(** * The postgres collector of go.d.plugin: [modules/postgres/collect.go]

    A shallow embedding of the collection cycle [Postgres.collect] and of
    the helpers it is built from, followed by the properties of the cycle:
    refresh windows, the standby-application tracker, partial snapshots,
    merge policies, relation-kind seeding, numeric parsing and the
    version/entity gates.

    Conventions.
    - Go's [int64] and [uint64] are [Z] with the wrap-around written out
      ([wrap64], [wrapU64]).
    - Go strings are byte strings: [string].
    - A Go [error] is its message; [fmt.Errorf("msg: %v", err)] is [Errorf].
    - [map[string]int64] is [gmap string Z]; a [map[string]bool] that only
      ever stores [true] is a [gset string].
    - The receiver [p *Postgres] is mutated in place by the source; here it
      is threaded through a small state monad. *)

From Stdlib Require Import ZArith Ascii String DecimalString List Lia.
From stdpp Require Import base tactics option list gmap strings sets.

Local Open Scope string_scope.
Local Open Scope list_scope.
Local Open Scope Z_scope.

(** ** Machine integers *)

Definition minInt64 : Z := - 2 ^ 63.
Definition maxInt64 : Z := 2 ^ 63 - 1.
Definition maxUint64 : Z := 2 ^ 64 - 1.

(** Conversion to [int64] and to [uint64], as Go's arithmetic wraps. *)
Definition wrap64 (z : Z) : Z := (z + 2 ^ 63) mod 2 ^ 64 - 2 ^ 63.
Definition wrapU64 (z : Z) : Z := z mod 2 ^ 64.

(** [a + b] on [int64]. *)
Definition add64 (a b : Z) : Z := wrap64 (a + b).

Definition inInt64 (z : Z) : Prop := minInt64 <= z <= maxInt64.

(** ** Errors *)

Definition error : Type := string.

(** [fmt.Errorf(msg + ": %v", err)]. *)
Definition Errorf (msg : string) (err : error) : error := msg +:+ ": " +:+ err.

(** ** [strconv.ParseInt(s, 10, 64)]

    The standard library is not part of the repository; the two functions
    below follow [strconv/atoi.go] for the one call shape the collector
    uses: base 10, bit size 64. *)

Inductive NumError := ErrSyntax | ErrRange.

Definition byteVal (c : ascii) : Z := Z.of_N (N_of_ascii c).

(** [lower(c) = c | ('x' - 'X')]. *)
Definition lower (c : ascii) : Z := Z.lor (byteVal c) 32.

(** The digit switch of [ParseUint]'s loop, followed by the test
    [d >= byte(base)]: [Some d] for a decimal digit, [None] where the loop
    returns a syntax error. *)
Definition digit10 (c : ascii) : option Z :=
  let b := byteVal c in
  if (48 <=? b) && (b <=? 57) then Some (b - 48)
  else if (97 <=? lower c) && (lower c <=? 122) then
    (let d := lower c - 97 + 10 in if d >=? 10 then None else Some d)
  else None.

(** [cutoff = maxUint64/10 + 1]: the smallest [n] with [n * 10 > maxUint64]. *)
Definition cutoffU10 : Z := maxUint64 / 10 + 1.

(** The loop of [ParseUint] over the bytes of [s], with accumulator [n]. *)
Fixpoint parseUintLoop (s : string) (n : Z) : Z * option NumError :=
  match s with
  | EmptyString => (n, None)
  | String c rest =>
      match digit10 c with
      | None => (0, Some ErrSyntax)
      | Some d =>
          if n >=? cutoffU10 then (maxUint64, Some ErrRange)
          else
            let n' := wrapU64 (n * 10) in
            let n1 := wrapU64 (n' + d) in
            if (n1 <? n') || (n1 >? maxUint64) then (maxUint64, Some ErrRange)
            else parseUintLoop rest n1
      end
  end.

Definition ParseUint (s : string) : Z * option NumError :=
  match s with
  | EmptyString => (0, Some ErrSyntax)
  | _ => parseUintLoop s 0
  end.

Definition ParseInt (s : string) : Z * option NumError :=
  match s with
  | EmptyString => (0, Some ErrSyntax)
  | String c0 rest =>
      let '(neg, s1) :=
        if Ascii.eqb c0 "+" then (false, rest)
        else if Ascii.eqb c0 "-" then (true, rest)
        else (false, s) in
      match ParseUint s1 with
      | (_, Some ErrSyntax) => (0, Some ErrSyntax)
      | (un, _) =>
          let cutoff := 2 ^ 63 in
          if negb neg && (un >=? cutoff) then (cutoff - 1, Some ErrRange)
          else if neg && (un >? cutoff) then (- cutoff, Some ErrRange)
          else
            let n := wrap64 un in
            (if neg then wrap64 (- n) else n, None)
      end
  end.

(** [strconv.Atoi] on a 64-bit platform: the same language and range as
    [ParseInt(s, 10, 0)]. *)
Definition Atoi (s : string) : Z * option NumError := ParseInt s.

(** The message of a [NumError], with [strconv.Quote] reduced to the
    quotes it puts around the text. *)
Definition NumError_Error (func num : string) (e : NumError) : error :=
  let quote := String (ascii_of_nat 34) EmptyString in
  "strconv." +:+ func +:+ ": parsing " +:+ quote +:+ num +:+ quote +:+ ": "
  +:+ match e with
      | ErrSyntax => "invalid syntax"
      | ErrRange => "value out of range"
      end.

(** [safeParseInt]: the error of [ParseInt] is dropped. *)
Definition safeParseInt (s : string) : Z := fst (ParseInt s).

(** ** [database/sql] as the collector sees it *)

(** [sql.NullString]. *)
Record NullString := { NullString_String : string; NullString_Valid : bool }.

(** A destination handed to [rows.Scan], of static type [interface{}]:
    the collector only ever passes [*sql.NullString], [valueToString]
    accepts anything. *)
Inductive iface :=
  | PtrNullString (v : NullString)
  | OtherValue.

Definition valueToString (value : iface) : string :=
  match value with
  | PtrNullString v => if negb (NullString_Valid v) then "" else NullString_String v
  | OtherValue => ""
  end.

Definition makeNullStrings (size : nat) : list iface :=
  replicate size (PtrNullString {| NullString_String := ""; NullString_Valid := false |}).

(** One result row as [rows.Scan] meets it: [Scan] returns an error, or
    the cells are delivered, [None] being SQL NULL. A failure of the driver
    between two rows is not a row: it makes [rows.Next()] return false and
    so ends [records]; [collectRows] never reads [rows.Err()] and cannot
    tell it from the end of the result set. *)
Definition RowResult : Type := error + list (option string).

(** An open result set: what [rows.Columns()] answers and the rows that
    [rows.Next()] steps through. *)
Record Rows := { Columns : error + list string; records : list RowResult }.

(** [NullString.Scan] on one cell. *)
Definition scanCell (cell : option string) : iface :=
  match cell with
  | None => PtrNullString {| NullString_String := ""; NullString_Valid := false |}
  | Some s => PtrNullString {| NullString_String := s; NullString_Valid := true |}
  end.

(** [%d] of a length. *)
Definition showNat (n : nat) : string := NilEmpty.string_of_uint (Nat.to_uint n).

(** [rows.Scan(values...)]: every destination is overwritten. A row whose
    arity differs from the number of destinations is refused, as
    [database/sql] does. *)
Definition Scan (values : list iface) (r : RowResult) : error + list iface :=
  match r with
  | inl err => inl err
  | inr cells =>
      if Nat.eqb (length cells) (length values) then inr (scanCell <$> cells)
      else inl ("sql: expected " +:+ showNat (length cells)
                +:+ " destination arguments in Scan, not " +:+ showNat (length values))
  end.

(** The inner loop [for i, v := range values { assign(columns[i], valueToString(v)) }].
    [values] has one entry per column, so indexing [columns] by [i] is a zip.
    The variables the callback closes over are the state [S]. *)
Definition assignRow {S : Type} (assign : string -> string -> S -> S)
    (columns : list string) (values : list iface) (st : S) : S :=
  fold_left (fun st cv => assign (fst cv) (valueToString (snd cv)) st)
            (zip columns values) st.

(** The loop [for rows.Next() { ... }] of [collectRows]. *)
Fixpoint collectRowsLoop {S : Type} (assign : string -> string -> S -> S)
    (columns : list string) (values : list iface) (pending : list RowResult)
    (st : S) : S * option error :=
  match pending with
  | [] => (st, None)
  | r :: rest =>
      match Scan values r with
      | inl err => (st, Some err)
      | inr values' =>
          collectRowsLoop assign columns values' rest (assignRow assign columns values' st)
      end
  end.

(** [collectRows]. The callback may be [nil]. *)
Definition collectRows {S : Type} (rows : Rows)
    (assign : option (string -> string -> S -> S)) (st : S) : S * option error :=
  match assign with
  | None => (st, None)
  | Some f =>
      match Columns rows with
      | inl err => (st, Some err)
      | inr columns =>
          collectRowsLoop f columns (makeNullStrings (length columns)) (records rows) st
      end
  end.

(** The statements of the query catalog (it lives outside this file):
    one name per function that returns SQL text, with the server version
    where the text depends on it. *)
Inductive Query :=
  | qServerVersion
  | qSettingsMaxConnections
  | qServerUptime
  | qTXIDWraparound
  | qWALWrites (ver : Z)
  | qWALFiles (ver : Z)
  | qWALArchiveFiles (ver : Z)
  | qCatalogRelations
  | qAutovacuumWorkers
  | qReplicationStandbyAppList
  | qReplicationStandbyAppDelta (ver : Z)
  | qReplicationStandbyAppLag.

(** The server behind [p.db] during one cycle: the answer to each statement,
    within the timeout, for each way the collector reads it. *)
Record DB := {
  QueryContext : Query -> error + Rows;
  (** [QueryRowContext(ctx, q).Scan(&s)] with [s string] *)
  QueryRowString : Query -> error + string;
  (** [QueryRowContext(ctx, q).Scan(&v)] with [v int64] *)
  QueryRowInt64 : Query -> error + Z
}.

(** ** Time *)

(** [time.Time] as nanoseconds on one clock, [time.Duration] as [int64]. *)
Definition Time : Type := Z.
Definition Duration : Type := Z.

(** [t.Sub(u)]: the difference, saturated to the range of [Duration]. *)
Definition Sub (t u : Time) : Duration :=
  if t - u >? maxInt64 then maxInt64
  else if t - u <? minInt64 then minInt64
  else t - u.

(** ** The collector's state *)

Record Postgres := {
  DSN : string;
  db : bool;  (** [p.db != nil] *)
  serverVersion : Z;
  recheckSettingsTime : Time;
  recheckSettingsEvery : Duration;
  relistDatabaseTime : Time;
  relistDatabaseEvery : Duration;
  relistStandbyTime : Time;
  relistStandbyEvery : Duration;
  maxConnections : Z;
  databases : list string;
  standbyApps : list string
}.

Definition set_db (v : bool) (p : Postgres) : Postgres :=
  {| DSN := DSN p; db := v; serverVersion := serverVersion p;
     recheckSettingsTime := recheckSettingsTime p; recheckSettingsEvery := recheckSettingsEvery p;
     relistDatabaseTime := relistDatabaseTime p; relistDatabaseEvery := relistDatabaseEvery p;
     relistStandbyTime := relistStandbyTime p; relistStandbyEvery := relistStandbyEvery p;
     maxConnections := maxConnections p; databases := databases p; standbyApps := standbyApps p |}.

Definition set_serverVersion (v : Z) (p : Postgres) : Postgres :=
  {| DSN := DSN p; db := db p; serverVersion := v;
     recheckSettingsTime := recheckSettingsTime p; recheckSettingsEvery := recheckSettingsEvery p;
     relistDatabaseTime := relistDatabaseTime p; relistDatabaseEvery := relistDatabaseEvery p;
     relistStandbyTime := relistStandbyTime p; relistStandbyEvery := relistStandbyEvery p;
     maxConnections := maxConnections p; databases := databases p; standbyApps := standbyApps p |}.

Definition set_recheckSettingsTime (v : Time) (p : Postgres) : Postgres :=
  {| DSN := DSN p; db := db p; serverVersion := serverVersion p;
     recheckSettingsTime := v; recheckSettingsEvery := recheckSettingsEvery p;
     relistDatabaseTime := relistDatabaseTime p; relistDatabaseEvery := relistDatabaseEvery p;
     relistStandbyTime := relistStandbyTime p; relistStandbyEvery := relistStandbyEvery p;
     maxConnections := maxConnections p; databases := databases p; standbyApps := standbyApps p |}.

Definition set_relistDatabaseTime (v : Time) (p : Postgres) : Postgres :=
  {| DSN := DSN p; db := db p; serverVersion := serverVersion p;
     recheckSettingsTime := recheckSettingsTime p; recheckSettingsEvery := recheckSettingsEvery p;
     relistDatabaseTime := v; relistDatabaseEvery := relistDatabaseEvery p;
     relistStandbyTime := relistStandbyTime p; relistStandbyEvery := relistStandbyEvery p;
     maxConnections := maxConnections p; databases := databases p; standbyApps := standbyApps p |}.

Definition set_relistStandbyTime (v : Time) (p : Postgres) : Postgres :=
  {| DSN := DSN p; db := db p; serverVersion := serverVersion p;
     recheckSettingsTime := recheckSettingsTime p; recheckSettingsEvery := recheckSettingsEvery p;
     relistDatabaseTime := relistDatabaseTime p; relistDatabaseEvery := relistDatabaseEvery p;
     relistStandbyTime := v; relistStandbyEvery := relistStandbyEvery p;
     maxConnections := maxConnections p; databases := databases p; standbyApps := standbyApps p |}.

Definition set_maxConnections (v : Z) (p : Postgres) : Postgres :=
  {| DSN := DSN p; db := db p; serverVersion := serverVersion p;
     recheckSettingsTime := recheckSettingsTime p; recheckSettingsEvery := recheckSettingsEvery p;
     relistDatabaseTime := relistDatabaseTime p; relistDatabaseEvery := relistDatabaseEvery p;
     relistStandbyTime := relistStandbyTime p; relistStandbyEvery := relistStandbyEvery p;
     maxConnections := v; databases := databases p; standbyApps := standbyApps p |}.

Definition set_databases (v : list string) (p : Postgres) : Postgres :=
  {| DSN := DSN p; db := db p; serverVersion := serverVersion p;
     recheckSettingsTime := recheckSettingsTime p; recheckSettingsEvery := recheckSettingsEvery p;
     relistDatabaseTime := relistDatabaseTime p; relistDatabaseEvery := relistDatabaseEvery p;
     relistStandbyTime := relistStandbyTime p; relistStandbyEvery := relistStandbyEvery p;
     maxConnections := maxConnections p; databases := v; standbyApps := standbyApps p |}.

Definition set_standbyApps (v : list string) (p : Postgres) : Postgres :=
  {| DSN := DSN p; db := db p; serverVersion := serverVersion p;
     recheckSettingsTime := recheckSettingsTime p; recheckSettingsEvery := recheckSettingsEvery p;
     relistDatabaseTime := relistDatabaseTime p; relistDatabaseEvery := relistDatabaseEvery p;
     relistStandbyTime := relistStandbyTime p; relistStandbyEvery := relistStandbyEvery p;
     maxConnections := maxConnections p; databases := databases p; standbyApps := v |}.

(** The snapshot [mx map[string]int64]. *)
Abbreviation Mx := (gmap string Z).

(** [mx[key]]: the zero value when the key is absent. *)
Definition mxGet (mx : Mx) (key : string) : Z := default 0 (mx !! key).

(** ** Code of the repository that is not in this file

    [collect] calls methods that live in other files of the package. They
    are parameters of the model. The five collectors receive the state and
    the connection read-only and work on the snapshot, which they may leave
    partly written when they fail; [queryDatabaseList] reads the connection,
    as its sibling [queryStandbyAppList] does; [collectDatabaseList] may
    rebuild the tracked database list, as its sibling [collectStandbyAppList]
    rebuilds the standby list; [ParseFloatInt64 s] stands for [int64(v)]
    after [v, _ := strconv.ParseFloat(s, 64)]. *)
Record Package := {
  collectConnection : Postgres -> DB -> Mx -> Mx * option error;
  collectCheckpoints : Postgres -> DB -> Mx -> Mx * option error;
  collectDatabaseStats : Postgres -> DB -> Mx -> Mx * option error;
  collectDatabaseConflicts : Postgres -> DB -> Mx -> Mx * option error;
  collectDatabaseLocks : Postgres -> DB -> Mx -> Mx * option error;
  queryDatabaseList : DB -> error + list string;
  (** from the fetched list and [p.databases] to the new [p.databases] *)
  collectDatabaseList : list string -> list string -> list string;
  ParseFloatInt64 : string -> Z
}.

(** ** Queries that return a value *)

Definition querySettingsMaxConnections (d : DB) : error + Z :=
  match QueryRowString d qSettingsMaxConnections with
  | inl err => inl err
  | inr s =>
      match ParseInt s with
      | (v, None) => inr v
      | (_, Some e) => inl (NumError_Error "ParseInt" s e)
      end
  end.

Definition queryServerVersion (d : DB) : error + Z :=
  match QueryRowString d qServerVersion with
  | inl err => inl err
  | inr s =>
      match Atoi s with
      | (v, None) => inr v
      | (_, Some e) => inl (NumError_Error "Atoi" s e)
      end
  end.

(** The callback of [queryStandbyAppList]; it closes over [apps] and [seen]. *)
Definition assignStandbyApp (column value : string) (st : list string * gset string)
    : list string * gset string :=
  let '(apps, seen) := st in
  if String.eqb column "application_name" && negb (bool_decide (value ∈ seen))
  then (apps ++ [value], {[value]} ∪ seen)
  else (apps, seen).

Definition queryStandbyAppList (d : DB) : error + list string :=
  match QueryContext d qReplicationStandbyAppList with
  | inl err => inl err
  | inr rows =>
      match collectRows rows (Some assignStandbyApp) ([], ∅) with
      | (_, Some err) => inl err
      | ((apps, _), None) => inr apps
      end
  end.

(** ** The standby-application tracker *)

(** The two chart methods are outside this file; a call to one of them is
    recorded as such. *)
Inductive ChartCall :=
  | addNewReplicationStandbyAppCharts (app : string)
  | removeReplicationStandbyAppCharts (app : string).

(** The loop [for _, app := range apps] of [collectStandbyAppList], over
    [seen], [collected] and the chart calls made so far. *)
Definition trackApp (st : gset string * gset string * list ChartCall) (app : string)
    : gset string * gset string * list ChartCall :=
  let '(seen, collected, calls) := st in
  let seen := {[app]} ∪ seen in
  if bool_decide (app ∈ collected) then (seen, collected, calls)
  else (seen, {[app]} ∪ collected, calls ++ [addNewReplicationStandbyAppCharts app]).

(** [collectStandbyAppList]. Go leaves the order of [range] over a map
    unspecified; [elements] fixes one, and nothing proved below depends on
    which. *)
Definition collectStandbyAppList (apps : list string) (p : Postgres)
    : Postgres * list ChartCall :=
  if Nat.eqb (length apps) 0 then (p, [])
  else
    let collected : gset string := list_to_set (standbyApps p) in
    let p := set_standbyApps apps p in
    let '(seen, collected, calls) := fold_left trackApp apps (∅, collected, []) in
    (p, calls ++ (removeReplicationStandbyAppCharts <$>
                    filter (fun app => app ∉ seen) (elements collected))).

(** ** Collectors *)

(** The callback [mx[column] = safeParseInt(value)]. *)
Definition assignColumn (column value : string) (mx : Mx) : Mx :=
  <[column := safeParseInt value]> mx.

Definition collectUptime (pk : Package) (d : DB) (mx : Mx) : Mx * option error :=
  match QueryRowString d qServerUptime with
  | inl err => (mx, Some err)
  | inr s => (<["server_uptime" := ParseFloatInt64 pk s]> mx, None)
  end.

Definition collectTXIDWraparound (d : DB) (mx : Mx) : Mx * option error :=
  match QueryContext d qTXIDWraparound with
  | inl err => (mx, Some err)
  | inr rows => collectRows rows (Some assignColumn) mx
  end.

Definition collectWALWrites (p : Postgres) (d : DB) (mx : Mx) : Mx * option error :=
  match QueryRowInt64 d (qWALWrites (serverVersion p)) with
  | inl err => (mx, Some err)
  | inr v => (<["wal_writes" := v]> mx, None)
  end.

Definition collectWALFiles (p : Postgres) (d : DB) (mx : Mx) : Mx * option error :=
  match QueryContext d (qWALFiles (serverVersion p)) with
  | inl err => (mx, Some err)
  | inr rows => collectRows rows (Some assignColumn) mx
  end.

Definition collectWALArchiveFiles (p : Postgres) (d : DB) (mx : Mx) : Mx * option error :=
  match QueryContext d (qWALArchiveFiles (serverVersion p)) with
  | inl err => (mx, Some err)
  | inr rows => collectRows rows (Some assignColumn) mx
  end.

(** The relation kinds of [pg_class] that [collectCatalog] seeds. *)
Definition relkinds : list string := ["r"; "i"; "S"; "t"; "v"; "m"; "c"; "f"; "p"; "I"].

(** The body of the seeding loop. *)
Definition seedRelkind (mx : Mx) (v : string) : Mx :=
  <["catalog_relkind_" +:+ v +:+ "_size" := 0]>
    (<["catalog_relkind_" +:+ v +:+ "_count" := 0]> mx).

(** The callback of [collectCatalog]; it closes over [mx] and [kind]. *)
Definition assignCatalog (column value : string) (st : Mx * string) : Mx * string :=
  let '(mx, kind) := st in
  if String.eqb column "relkind" then (mx, value)
  else (<["catalog_relkind_" +:+ kind +:+ "_" +:+ column := safeParseInt value]> mx, kind).

Definition collectCatalog (d : DB) (mx : Mx) : Mx * option error :=
  match QueryContext d qCatalogRelations with
  | inl err => (mx, Some err)
  | inr rows =>
      let mx := fold_left seedRelkind relkinds mx in
      let '((mx, _), err) := collectRows rows (Some assignCatalog) (mx, "") in
      (mx, err)
  end.

Definition collectAutovacuumWorkers (d : DB) (mx : Mx) : Mx * option error :=
  match QueryContext d qAutovacuumWorkers with
  | inl err => (mx, Some err)
  | inr rows => collectRows rows (Some assignColumn) mx
  end.

(** The callback shared, word for word, by the two replication collectors:
    [mx["repl_standby_app_"+app+"_wal_"+column] += safeParseInt(value)].
    It closes over [mx] and [app]. *)
Definition assignStandbyWAL (column value : string) (st : Mx * string) : Mx * string :=
  let '(mx, app) := st in
  if String.eqb column "application_name" then (mx, value)
  else
    let key := "repl_standby_app_" +:+ app +:+ "_wal_" +:+ column in
    (<[key := add64 (mxGet mx key) (safeParseInt value)]> mx, app).

Definition collectReplicationStandbyAppWALDelta (p : Postgres) (d : DB) (mx : Mx)
    : Mx * option error :=
  match QueryContext d (qReplicationStandbyAppDelta (serverVersion p)) with
  | inl err => (mx, Some err)
  | inr rows =>
      let '((mx, _), err) := collectRows rows (Some assignStandbyWAL) (mx, "") in
      (mx, err)
  end.

Definition collectReplicationStandbyAppWALLag (d : DB) (mx : Mx) : Mx * option error :=
  match QueryContext d qReplicationStandbyAppLag with
  | inl err => (mx, Some err)
  | inr rows =>
      let '((mx, _), err) := collectRows rows (Some assignStandbyWAL) (mx, "") in
      (mx, err)
  end.

(** [calcPercentage], on [int64]: the product wraps, the division
    truncates toward zero, and a zero total gives 0. *)
Definition calcPercentage (value total : Z) : Z :=
  if total =? 0 then 0 else wrap64 (Z.quot (wrap64 (value * 100)) total).

(** ** One collection cycle *)

(** What surrounds the collector during one call of [collect]: the outcome
    of [sql.Open] and of the ping, the server's answers, and the clock. *)
Record World := {
  sqlOpen : option error;
  PingContext : option error;
  server : DB;
  now : Time
}.

Definition openConnection (w : World) (p : Postgres) : Postgres * option error :=
  match sqlOpen w with
  | Some err =>
      (p, Some ("error on opening a connection with the Postgres database ["
                +:+ DSN p +:+ "]: " +:+ err))
  | None =>
      match PingContext w with
      | Some err =>
          (p, Some ("error on pinging the Postgres database [" +:+ DSN p +:+ "]: " +:+ err))
      | None => (set_db true p, None)
      end
  end.

(** The methods [collect] calls, to record which of them a cycle reaches. *)
Inductive Call :=
  | OpenConnection
  | QueryServerVersion
  | QuerySettingsMaxConnections
  | QueryDatabaseList
  | QueryStandbyAppList
  | CollectConnection
  | CollectCheckpoints
  | CollectUptime
  | CollectTXIDWraparound
  | CollectWALWrites
  | CollectWALFiles
  | CollectWALArchiveFiles
  | CollectCatalog
  | CollectAutovacuumWorkers
  | CollectReplicationStandbyAppWALDelta
  | CollectReplicationStandbyAppWALLag
  | CollectDatabaseStats
  | CollectDatabaseConflicts
  | CollectDatabaseLocks.

Inductive Event :=
  | Invoked (c : Call)
  | Chart (c : ChartCall).

(** The receiver, as mutated so far, and what the cycle has done so far. *)
Record Run := { self : Postgres; trace : list Event }.

(** A statement either falls through with a value or returns from
    [collect] with the pair [(mx, err)]; [mx = None] is the nil map. *)
Inductive Step (A : Type) :=
  | Next (a : A)
  | Return (mx : option Mx) (err : option error).
Arguments Next {A} a.
Arguments Return {A} mx err.

Definition M (A : Type) : Type := Run -> Run * Step A.

Definition ret {A : Type} (a : A) : M A := fun r => (r, Next a).

Definition bind {A B : Type} (m : M A) (k : A -> M B) : M B :=
  fun r =>
    match m r with
    | (r', Next a) => k a r'
    | (r', Return mx err) => (r', Return mx err)
    end.

Notation "'let*' x ':=' m 'in' k" := (bind m (fun x => k))
  (at level 10, x name, m at level 100, k at level 200).
Notation "m ';;' k" := (bind m (fun _ => k))
  (at level 100, k at level 200, right associativity).

Definition get : M Postgres := fun r => (r, Next (self r)).

Definition modify (f : Postgres -> Postgres) : M unit :=
  fun r => ({| self := f (self r); trace := trace r |}, Next tt).

Definition emit (es : list Event) : M unit :=
  fun r => ({| self := self r; trace := trace r ++ es |}, Next tt).

Definition invoke (c : Call) : M unit := emit [Invoked c].

Definition return_ {A : Type} (mx : option Mx) (err : option error) : M A :=
  fun r => (r, Return mx err).

Definition when (b : bool) (m : M unit) : M unit := if b then m else ret tt.

(** The pattern
    [if err := p.collectX(mx); err != nil { return mx, fmt.Errorf(msg, err) }]:
    the map is the one the collector worked on, whatever it had written. *)
Definition attempt (c : Call) (collector : Mx -> Mx * option error) (msg : string)
    (mx : Mx) : M Mx :=
  invoke c ;;
  match collector mx with
  | (mx', Some err) => return_ (Some mx') (Some (Errorf msg err))
  | (mx', None) => ret mx'
  end.

(** What one call of [collect] leaves behind. *)
Record Outcome := {
  post : Postgres;
  calls : list Event;
  snapshot : option Mx;
  failure : option error
}.

Definition run (p : Postgres) (m : M Empty_set) : Outcome :=
  match m {| self := p; trace := [] |} with
  | (r, Return mx err) =>
      {| post := self r; calls := trace r; snapshot := mx; failure := err |}
  | (_, Next a) => match a with end
  end.

Definition collect (pk : Package) (w : World) (p : Postgres) : Outcome :=
  run p (
    let* p0 := get in
    when (negb (db p0)) (
      invoke OpenConnection ;;
      match openConnection w p0 with
      | (_, Some err) => return_ None (Some err)
      | (p', None) => modify (fun _ => p')
      end) ;;

    let* p0 := get in
    when (serverVersion p0 =? 0) (
      invoke QueryServerVersion ;;
      match queryServerVersion (server w) with
      | inl err => return_ None (Some (Errorf "querying server version error" err))
      | inr ver => modify (set_serverVersion ver)
      end) ;;

    let now := now w in

    let* p0 := get in
    when (Sub now (recheckSettingsTime p0) >? recheckSettingsEvery p0) (
      modify (set_recheckSettingsTime now) ;;
      invoke QuerySettingsMaxConnections ;;
      match querySettingsMaxConnections (server w) with
      | inl err => return_ None (Some (Errorf "querying settings max connections error" err))
      | inr maxConn => modify (set_maxConnections maxConn)
      end) ;;

    let* p0 := get in
    when (Sub now (relistDatabaseTime p0) >? relistDatabaseEvery p0) (
      modify (set_relistDatabaseTime now) ;;
      invoke QueryDatabaseList ;;
      match queryDatabaseList pk (server w) with
      | inl err => return_ None (Some (Errorf "querying database list error" err))
      | inr dbs => modify (fun p => set_databases (collectDatabaseList pk dbs (databases p)) p)
      end) ;;

    let* p0 := get in
    when (Sub now (relistStandbyTime p0) >? relistStandbyEvery p0) (
      modify (set_relistStandbyTime now) ;;
      invoke QueryStandbyAppList ;;
      match queryStandbyAppList (server w) with
      | inl err => return_ None (Some (Errorf "querying standby app list error" err))
      | inr apps =>
          let* p1 := get in
          let '(p2, charts) := collectStandbyAppList apps p1 in
          modify (fun _ => p2) ;;
          emit (Chart <$> charts)
      end) ;;

    let* p := get in
    let d := server w in
    let mx : Mx := ∅ in

    let* mx := attempt CollectConnection (collectConnection pk p d)
                 "querying server connections error" mx in
    let* mx := attempt CollectCheckpoints (collectCheckpoints pk p d)
                 "querying database conflicts error" mx in
    let* mx := attempt CollectUptime (collectUptime pk d)
                 "querying server uptime error" mx in
    let* mx := attempt CollectTXIDWraparound (collectTXIDWraparound d)
                 "querying txid wraparound error" mx in
    let* mx := attempt CollectWALWrites (collectWALWrites p d)
                 "querying wal writes error" mx in
    let* mx := attempt CollectWALFiles (collectWALFiles p d)
                 "querying wal files error" mx in
    let* mx := attempt CollectWALArchiveFiles (collectWALArchiveFiles p d)
                 "querying wal archive files error" mx in
    let* mx := attempt CollectCatalog (collectCatalog d)
                 "querying catalog relations error" mx in
    let* mx := attempt CollectAutovacuumWorkers (collectAutovacuumWorkers d)
                 "querying autovacuum workers error" mx in

    let* mx :=
      if (0 <? length (standbyApps p))%nat then
        let* mx := attempt CollectReplicationStandbyAppWALDelta
                     (collectReplicationStandbyAppWALDelta p d)
                     "querying replication standby app wal delta error" mx in
        if serverVersion p >=? 100000 then
          attempt CollectReplicationStandbyAppWALLag
            (collectReplicationStandbyAppWALLag d)
            "querying replication standby app wal lag error" mx
        else ret mx
      else ret mx in

    let* mx :=
      if (0 <? length (databases p))%nat then
        let* mx := attempt CollectDatabaseStats (collectDatabaseStats pk p d)
                     "querying database stats error" mx in
        let* mx := attempt CollectDatabaseConflicts (collectDatabaseConflicts pk p d)
                     "querying database conflicts error" mx in
        attempt CollectDatabaseLocks (collectDatabaseLocks pk p d)
          "querying database locks error" mx
      else ret mx in

    return_ (Some mx) None).

(** Consecutive cycles: each starts from the state the previous one left. *)
Fixpoint cycles (pk : Package) (ws : list World) (p : Postgres) : list Outcome :=
  match ws with
  | [] => []
  | w :: ws' => let o := collect pk w p in o :: cycles pk ws' (post o)
  end.

(** ** Vocabulary of the statements *)

(** *** Numeric text *)

Definition isDigit (c : ascii) : bool := (48 <=? byteVal c) && (byteVal c <=? 57).

(** The text after an optional leading sign. *)
Definition unsignedPart (s : string) : string :=
  match s with
  | String c rest => if Ascii.eqb c "+" || Ascii.eqb c "-" then rest else s
  | EmptyString => EmptyString
  end.

Fixpoint allDigits (s : string) : bool :=
  match s with
  | EmptyString => true
  | String c rest => isDigit c && allDigits rest
  end.

(** Decimal integer text: an optional sign and at least one digit. *)
Definition decimal (s : string) : bool :=
  match unsignedPart s with
  | EmptyString => false
  | body => allDigits body
  end.

(** Malformed numeric text: [strconv.ParseInt] rejects its syntax. *)
Definition malformed (s : string) : Prop := snd (ParseInt s) = Some ErrSyntax.

(** *** Result sets *)

(** A result set that the driver delivers without error. *)
Definition table (cols : list string) (cellrows : list (list (option string))) : Rows :=
  {| Columns := inr cols; records := inr <$> cellrows |}.

(** Every row has one cell per column. *)
Definition wellShaped (cols : list string) (cellrows : list (list (option string))) : Prop :=
  Forall (fun cells => length cells = length cols) cellrows.

(** The text a callback receives for a cell. *)
Definition cellText (cell : option string) : string := valueToString (scanCell cell).

(** The [(column, value)] pairs a callback receives, in order. *)
Definition feedRow (cols : list string) (cells : list (option string)) : list (string * string) :=
  zip cols (cellText <$> cells).

Definition feed (cols : list string) (cellrows : list (list (option string)))
    : list (string * string) :=
  concat (feedRow cols <$> cellrows).

Definition foldPairs {S : Type} (assign : string -> string -> S -> S)
    (pairs : list (string * string)) (st : S) : S :=
  fold_left (fun st cv => assign (fst cv) (snd cv) st) pairs st.

(** *** Standby applications *)

(** The values of the [application_name] column, row by row. *)
Definition applicationNames (cols : list string) (cellrows : list (list (option string)))
    : list string :=
  snd <$> filter (fun cv => fst cv = "application_name") (feed cols cellrows).

(** Specification of de-duplication: every name once, at the place of its
    first occurrence. *)
Fixpoint firstOccurrences (l : list string) : list string :=
  match l with
  | [] => []
  | x :: l' => x :: filter (fun y => y <> x) (firstOccurrences l')
  end.

(** *** Relation kinds *)

Definition relkindCountKey (kind : string) : string := "catalog_relkind_" +:+ kind +:+ "_count".
Definition relkindSizeKey (kind : string) : string := "catalog_relkind_" +:+ kind +:+ "_size".

(** No row of the result set has [kind] in a [relkind] column. *)
Definition relkindAbsent (kind : string) (rows : Rows) : Prop :=
  forall cols cells, Columns rows = inr cols -> inr cells ∈ records rows ->
    ("relkind", Some kind) ∉ zip cols cells.

(** The key of a replication metric. *)
Definition standbyWALKey (app column : string) : string :=
  "repl_standby_app_" +:+ app +:+ "_wal_" +:+ column.

(** *** Weakest preconditions for the statements of a cycle *)

Definition wp {A : Type} (m : M A) (r : Run) (Q : Run -> Step A -> Prop) : Prop :=
  Q (fst (m r)) (snd (m r)).

Definition andThen {A B : Type} (k : A -> M B) (Q : Run -> Step B -> Prop)
    (r : Run) (s : Step A) : Prop :=
  match s with
  | Next a => wp (k a) r Q
  | Return mx err => Q r (Return mx err)
  end.

(** What a property of outcomes asks of the final step. *)
Definition atReturn (F : Outcome -> Prop) (r : Run) (s : Step Empty_set) : Prop :=
  match s with
  | Return mx err =>
      F {| post := self r; calls := trace r; snapshot := mx; failure := err |}
  | Next _ => True
  end.

(** *** Decimal text and its value *)

(** The number a run of digits spells, onto [acc]. *)
Fixpoint digitsValue (s : string) (acc : Z) : Z :=
  match s with
  | EmptyString => acc
  | String c rest => digitsValue rest (acc * 10 + (byteVal c - 48))
  end.

Definition isNegative (s : string) : bool :=
  match s with
  | String c _ => Ascii.eqb c "-"
  | EmptyString => false
  end.

(** The integer that decimal text spells, of any size. *)
Definition decimalValue (s : string) : Z :=
  let v := digitsValue (unsignedPart s) 0 in
  if isNegative s then - v else v.

(** The nearest [int64]. *)
Definition clamp64 (z : Z) : Z :=
  if z >? maxInt64 then maxInt64 else if z <? minInt64 then minInt64 else z.

Definition fits64 (z : Z) : bool := (minInt64 <=? z) && (z <=? maxInt64).

(** The digits a text starts with. *)
Fixpoint leadingDigits (s : string) : string :=
  match s with
  | EmptyString => EmptyString
  | String c rest => if isDigit c then String c (leadingDigits rest) else EmptyString
  end.

(** *** Rows that [rows.Scan] refuses, and rows of two cells *)

(** A result set in which [rows.Scan] accepts the rows [cellrows] and
    returns [err] on the row after them. (Not a failure of the driver
    between rows, which only ends [records].) *)
Definition scanFailingTable (cols : list string) (cellrows : list (list (option string)))
    (err : error) (rest : list RowResult) : Rows :=
  {| Columns := inr cols; records := (inr <$> cellrows) ++ inl err :: rest |}.

(** [key] is a column name of the result set. *)
Definition namesColumn (rows : Rows) (key : string) : Prop :=
  exists cols, Columns rows = inr cols /\ key ∈ cols.

(** Rows of a name and a value. *)
Definition pairRows (rows : list (string * string)) : list (list (option string)) :=
  (fun r => [Some (fst r); Some (snd r)]) <$> rows.

(** The [int64] sum, onto [acc], of the values of the rows named [name]. *)
Fixpoint sumFor (name : string) (rows : list (string * string)) (acc : Z) : Z :=
  match rows with
  | [] => acc
  | (a, v) :: rest =>
      sumFor name rest (if String.eqb a name then add64 acc (safeParseInt v) else acc)
  end.

(** The value of the last row named [name]. *)
Fixpoint lastFor (name : string) (rows : list (string * string)) : option string :=
  match rows with
  | [] => None
  | (a, v) :: rest =>
      match lastFor name rest with
      | Some v' => Some v'
      | None => if String.eqb a name then Some v else None
      end
  end.

(** The key of a catalog metric. *)
Definition relkindKey (kind column : string) : string :=
  "catalog_relkind_" +:+ kind +:+ "_" +:+ column.

(** *** The calls of a cycle *)

(** The methods a cycle called, in the order of the calls. *)
Fixpoint invoked (es : list Event) : list Call :=
  match es with
  | [] => []
  | Invoked c :: es' => c :: invoked es'
  | Chart _ :: es' => invoked es'
  end.

(** The order in which the text of [collect] names the methods. *)
Definition callOrder : list Call :=
  [ OpenConnection; QueryServerVersion; QuerySettingsMaxConnections;
    QueryDatabaseList; QueryStandbyAppList;
    CollectConnection; CollectCheckpoints; CollectUptime; CollectTXIDWraparound;
    CollectWALWrites; CollectWALFiles; CollectWALArchiveFiles; CollectCatalog;
    CollectAutovacuumWorkers;
    CollectReplicationStandbyAppWALDelta; CollectReplicationStandbyAppWALLag;
    CollectDatabaseStats; CollectDatabaseConflicts; CollectDatabaseLocks ].

(** The nine collectors that no condition guards. *)
Definition coreCollectors : list Call :=
  [ CollectConnection; CollectCheckpoints; CollectUptime; CollectTXIDWraparound;
    CollectWALWrites; CollectWALFiles; CollectWALArchiveFiles; CollectCatalog;
    CollectAutovacuumWorkers ].

(** The message [collect] puts in front of the error of a method; the
    error of [openConnection] is returned as it is. *)
Definition wrapper (c : Call) : option string :=
  match c with
  | OpenConnection => None
  | QueryServerVersion => Some "querying server version error"
  | QuerySettingsMaxConnections => Some "querying settings max connections error"
  | QueryDatabaseList => Some "querying database list error"
  | QueryStandbyAppList => Some "querying standby app list error"
  | CollectConnection => Some "querying server connections error"
  | CollectCheckpoints => Some "querying database conflicts error"
  | CollectUptime => Some "querying server uptime error"
  | CollectTXIDWraparound => Some "querying txid wraparound error"
  | CollectWALWrites => Some "querying wal writes error"
  | CollectWALFiles => Some "querying wal files error"
  | CollectWALArchiveFiles => Some "querying wal archive files error"
  | CollectCatalog => Some "querying catalog relations error"
  | CollectAutovacuumWorkers => Some "querying autovacuum workers error"
  | CollectReplicationStandbyAppWALDelta =>
      Some "querying replication standby app wal delta error"
  | CollectReplicationStandbyAppWALLag =>
      Some "querying replication standby app wal lag error"
  | CollectDatabaseStats => Some "querying database stats error"
  | CollectDatabaseConflicts => Some "querying database conflicts error"
  | CollectDatabaseLocks => Some "querying database locks error"
  end.

(** The error [collect] returns when method [c] has returned [cause]. *)
Definition wrapped (c : Call) (cause : error) : error :=
  match wrapper c with
  | Some msg => Errorf msg cause
  | None => cause
  end.

(** The collector behind a call of the metric phase, for the state [p]
    and the connection [d] of the cycle. *)
Definition collectorOf (pk : Package) (p : Postgres) (d : DB) (c : Call)
    : Mx -> Mx * option error :=
  match c with
  | CollectConnection => collectConnection pk p d
  | CollectCheckpoints => collectCheckpoints pk p d
  | CollectUptime => collectUptime pk d
  | CollectTXIDWraparound => collectTXIDWraparound d
  | CollectWALWrites => collectWALWrites p d
  | CollectWALFiles => collectWALFiles p d
  | CollectWALArchiveFiles => collectWALArchiveFiles p d
  | CollectCatalog => collectCatalog d
  | CollectAutovacuumWorkers => collectAutovacuumWorkers d
  | CollectReplicationStandbyAppWALDelta => collectReplicationStandbyAppWALDelta p d
  | CollectReplicationStandbyAppWALLag => collectReplicationStandbyAppWALLag d
  | CollectDatabaseStats => collectDatabaseStats pk p d
  | CollectDatabaseConflicts => collectDatabaseConflicts pk p d
  | CollectDatabaseLocks => collectDatabaseLocks pk p d
  | _ => fun mx => (mx, None)
  end.

(** Specification of the gates, in the spec's words: the nine collectors
    that always run; the per-standby group when a standby application is
    tracked, its lag collector only from version 100000 on; the
    per-database group when a database is tracked. A group that is not due
    is left out, nothing stands in for it. *)
Definition collectorsDue (p : Postgres) : list Call :=
  coreCollectors
  ++ match standbyApps p with
     | [] => []
     | _ :: _ =>
         CollectReplicationStandbyAppWALDelta
         :: (if 100000 <=? serverVersion p then [CollectReplicationStandbyAppWALLag] else [])
     end
  ++ match databases p with
     | [] => []
     | _ :: _ => [CollectDatabaseStats; CollectDatabaseConflicts; CollectDatabaseLocks]
     end.

(** Specification of the metric phase: the collectors of [cs] run in
    order, each on the snapshot the one before left; the first that
    returns an error ends the phase. The result is the calls made, the
    snapshot, and the collector that failed with its error. *)
Fixpoint runCollectors (pk : Package) (p : Postgres) (d : DB) (cs : list Call) (mx : Mx)
    : list Call * Mx * option (Call * error) :=
  match cs with
  | [] => ([], mx, None)
  | c :: rest =>
      match collectorOf pk p d c mx with
      | (mx', Some err) => ([c], mx', Some (c, err))
      | (mx', None) =>
          let '(called, mx'', failed) := runCollectors pk p d rest mx' in
          (c :: called, mx'', failed)
      end
  end.

(** Method [c], as the cycle [o = collect pk w p] called it, returned the
    error [cause]: a query on the answer of the server, [openConnection]
    on the state the cycle started from, a collector on the snapshot that
    the collectors due before it had built. *)
Definition returned (pk : Package) (w : World) (p : Postgres) (o : Outcome)
    (c : Call) (cause : error) : Prop :=
  match c with
  | OpenConnection => snd (openConnection w p) = Some cause
  | QueryServerVersion => queryServerVersion (server w) = inl cause
  | QuerySettingsMaxConnections => querySettingsMaxConnections (server w) = inl cause
  | QueryDatabaseList => queryDatabaseList pk (server w) = inl cause
  | QueryStandbyAppList => queryStandbyAppList (server w) = inl cause
  | _ => snd (runCollectors pk (post o) (server w) (collectorsDue (post o)) ∅) = Some (c, cause)
  end.

(** ** A sample installation

    Concrete servers, collaborators and collector states on which the
    statements below are exercised. *)

#[global] Instance Query_eq_dec : EqDecision Query.
Proof. solve_decision. Defined.

Definition sampleRows (q : Query) : Rows :=
  match q with
  | qReplicationStandbyAppList =>
      table ["application_name"]
        [[Some "replica1"]; [Some "replica1"]; [Some "replica2"]]
  | qCatalogRelations =>
      table ["relkind"; "count"; "size"]
        [[Some "r"; Some "12"; Some "4096"]; [Some "i"; Some "3"; None]]
  | qReplicationStandbyAppDelta _ =>
      table ["application_name"; "sent_delta"]
        [[Some "replica1"; Some "5"]; [Some "replica1"; Some "7"]]
  | qReplicationStandbyAppLag =>
      table ["application_name"; "write_lag"]
        [[Some "replica1"; Some "2"]; [Some "replica1"; None]]
  | qTXIDWraparound =>
      table ["oldest_current_xid"; "percent_towards_wraparound"] [[Some "123"; Some ""]]
  | qWALFiles _ => table ["wal_written_files_count"] [[Some "4"]]
  | qWALArchiveFiles _ => table ["wal_archive_files_ready_count"] [[Some "0"]]
  | qAutovacuumWorkers => table ["autovacuum_analyze"] [[Some "1"]]
  | _ => table [] []
  end.

(** A server that answers every statement; it reports version [ver]. *)
Definition sampleServer (ver : string) : DB :=
  {| QueryContext := fun q => inr (sampleRows q);
     QueryRowString := fun q =>
       inr (match q with
            | qServerVersion => ver
            | qSettingsMaxConnections => "100"
            | _ => "3600.75"
            end);
     QueryRowInt64 := fun _ => inr 7 |}.

(** The server [d], except that statement [q] fails with [err]. *)
Definition refusing (q : Query) (err : error) (d : DB) : DB :=
  {| QueryContext := fun q' => if decide (q' = q) then inl err else QueryContext d q';
     QueryRowString := fun q' => if decide (q' = q) then inl err else QueryRowString d q';
     QueryRowInt64 := fun q' => if decide (q' = q) then inl err else QueryRowInt64 d q' |}.

(** The server [d], except that statement [q] returns [rows]. *)
Definition answering (q : Query) (rows : Rows) (d : DB) : DB :=
  {| QueryContext := fun q' => if decide (q' = q) then inr rows else QueryContext d q';
     QueryRowString := QueryRowString d;
     QueryRowInt64 := QueryRowInt64 d |}.

(** A collector of another file: it writes one key, or fails. *)
Definition stubCollector (key : string) (outcome : option error)
    : Postgres -> DB -> Mx -> Mx * option error :=
  fun _ _ mx =>
    match outcome with
    | Some err => (mx, Some err)
    | None => (<[key := 1]> mx, None)
    end.

(** The rest of the package, with chosen outcomes for the checkpoints and
    the database-conflicts collectors. *)
Definition samplePackage (checkpoints conflicts : option error) : Package :=
  {| collectConnection := stubCollector "server_connections_used" None;
     collectCheckpoints := stubCollector "checkpoints_timed" checkpoints;
     collectDatabaseStats := stubCollector "db_postgres_numbackends" None;
     collectDatabaseConflicts := stubCollector "db_postgres_conflicts" conflicts;
     collectDatabaseLocks := stubCollector "db_postgres_lock_mode_AccessShareLock_held" None;
     queryDatabaseList := fun _ => inr ["postgres"];
     collectDatabaseList := fun dbs old => match dbs with [] => old | _ => dbs end;
     ParseFloatInt64 := fun _ => 3600 |}.

(** A collector that has never run: every refresh window is 60 wide. *)
Definition newCollector : Postgres :=
  {| DSN := "postgres://netdata@localhost"; db := false; serverVersion := 0;
     recheckSettingsTime := 0; recheckSettingsEvery := 60;
     relistDatabaseTime := 0; relistDatabaseEvery := 60;
     relistStandbyTime := 0; relistStandbyEvery := 60;
     maxConnections := 0; databases := []; standbyApps := [] |}.

(** The cycle at time [t] against server [d], the connection opening fine. *)
Definition cycleAt (t : Time) (d : DB) : World :=
  {| sqlOpen := None; PingContext := None; server := d; now := t |}.

(** * Properties *)

(** ** Machine integers *)

Lemma wrap64_id z : inInt64 z -> wrap64 z = z.
Proof.
  unfold inInt64, minInt64, maxInt64, wrap64. intros H.
  rewrite Z.mod_small; lia.
Qed.

Lemma wrap64_range z : inInt64 (wrap64 z).
Proof.
  unfold inInt64, minInt64, maxInt64, wrap64.
  pose proof (Z.mod_pos_bound (z + 2 ^ 63) (2 ^ 64)). lia.
Qed.

Lemma add64_0_r z : inInt64 z -> add64 z 0 = z.
Proof. intros H. unfold add64. rewrite Z.add_0_r. by apply wrap64_id. Qed.

(** ** [strconv.ParseInt] *)

Example safeParseInt_42 : safeParseInt "42" = 42.
Proof. reflexivity. Qed.
Example safeParseInt_neg : safeParseInt "-17" = -17.
Proof. reflexivity. Qed.
Example safeParseInt_float : safeParseInt "1.5" = 0.
Proof. reflexivity. Qed.
Example safeParseInt_min : safeParseInt "-9223372036854775808" = minInt64.
Proof. reflexivity. Qed.
(** Text that is well formed but out of range is clamped, not zeroed. *)
Example safeParseInt_big : safeParseInt "9223372036854775808" = maxInt64.
Proof. reflexivity. Qed.

Lemma digit10_Some c d : digit10 c = Some d -> isDigit c = true /\ 0 <= d <= 9.
Proof.
  unfold digit10, isDigit. cbv zeta.
  destruct ((48 <=? byteVal c) && _) eqn:E.
  - intros [= <-]. split; [reflexivity|]. apply andb_true_iff in E. lia.
  - destruct ((97 <=? lower c) && _) eqn:E1; [|intros [=]].
    destruct (lower c - 97 + 10 >=? 10) eqn:E2; [intros [=]|].
    apply andb_true_iff in E1. rewrite Z.geb_leb in E2. lia.
Qed.

Lemma digit10_None c : digit10 c = None <-> isDigit c = false.
Proof.
  unfold digit10, isDigit. cbv zeta.
  destruct ((48 <=? byteVal c) && _) eqn:E; [split; intros [=]|].
  split; [reflexivity|]. intros _.
  destruct ((97 <=? lower c) && _) eqn:E1; [|reflexivity].
  destruct (lower c - 97 + 10 >=? 10) eqn:E2; [reflexivity|].
  apply andb_true_iff in E1. rewrite Z.geb_leb in E2. lia.
Qed.

Lemma parseUintLoop_syntax s : forall n v, parseUintLoop s n = (v, Some ErrSyntax) -> v = 0.
Proof.
  induction s as [|c s IH]; intros n v; simpl; [done|].
  destruct (digit10 c); [|congruence].
  destruct (n >=? cutoffU10); [congruence|].
  cbv zeta. destruct ((_ <? _) || _); [congruence|]. apply IH.
Qed.

Lemma ParseInt_syntax s v : ParseInt s = (v, Some ErrSyntax) -> v = 0.
Proof.
  unfold ParseInt. destruct s as [|c0 rest]; [congruence|].
  destruct (if Ascii.eqb c0 "+" then _ else _) as [neg s1].
  destruct (ParseUint s1) as [un [[]|]]; [congruence| |]; cbv zeta;
    destruct (negb neg && _); try congruence;
    destruct (neg && _); congruence.
Qed.

Lemma ParseInt_range s : inInt64 (fst (ParseInt s)).
Proof.
  unfold ParseInt. destruct s as [|c0 rest]; [cbv; split; congruence|].
  destruct (if Ascii.eqb c0 "+" then _ else _) as [neg s1].
  destruct (ParseUint s1) as [un [[]|]]; [cbv; split; congruence| |]; cbv zeta;
    (destruct (negb neg && _); [cbv; split; congruence|]);
    (destruct (neg && _); [cbv; split; congruence|]);
    simpl; destruct neg; apply wrap64_range.
Qed.

Lemma parseUintLoop_digits s : forall n, allDigits s = true -> snd (parseUintLoop s n) <> Some ErrSyntax.
Proof.
  induction s as [|c s IH]; intros n; simpl; [done|].
  intros [Hc Hs]%andb_true_iff.
  destruct (digit10 c) eqn:E; [|apply digit10_None in E; congruence].
  destruct (n >=? cutoffU10); [done|].
  cbv zeta. destruct ((_ <? _) || _); [done|]. by apply IH.
Qed.

Lemma parseUintLoop_reject s : forall (j : nat) n,
  (j + String.length s <= 19)%nat -> 0 <= n < 10 ^ Z.of_nat j ->
  allDigits s = false -> parseUintLoop s n = (0, Some ErrSyntax).
Proof.
  induction s as [|c s IH]; intros j n Hlen Hn; simpl; [done|].
  intros Hd. destruct (digit10 c) as [d|] eqn:E; [|done].
  apply digit10_Some in E as [Hc Hd9]. rewrite Hc in Hd. simpl in Hd.
  simpl in Hlen.
  assert (Hj : 10 ^ Z.of_nat j <= 10 ^ 18) by (apply Z.pow_le_mono_r; lia).
  assert (H18 : 10 ^ 18 = 1000000000000000000) by reflexivity.
  assert (Hc10 : cutoffU10 = 1844674407370955162) by reflexivity.
  assert (H64 : 2 ^ 64 = 18446744073709551616) by reflexivity.
  destruct (n >=? cutoffU10) eqn:Ec; [rewrite Z.geb_leb in Ec; lia|].
  cbv zeta. unfold wrapU64, maxUint64.
  rewrite (Z.mod_small (n * 10)) by lia.
  rewrite (Z.mod_small (n * 10 + d)) by lia.
  destruct ((n * 10 + d <? n * 10) || _) eqn:Eo.
  { apply orb_true_iff in Eo as [Eo|Eo]; [lia|]. rewrite Z.gtb_ltb in Eo. lia. }
  apply (IH (S j)); [lia| |done].
  rewrite Nat2Z.inj_succ, Z.pow_succ_r by lia. lia.
Qed.

Lemma malformed_unsigned s :
  malformed s <-> snd (ParseUint (unsignedPart s)) = Some ErrSyntax.
Proof.
  unfold malformed, ParseInt, unsignedPart.
  destruct s as [|c0 rest]; [done|].
  destruct (Ascii.eqb c0 "+"); [|destruct (Ascii.eqb c0 "-")]; simpl orb; cbv iota;
    (destruct (ParseUint _) as [un [[]|]]; [done| |]); cbv zeta;
    (destruct (negb _ && _); [done|]); (destruct (_ && (un >? _)); done).
Qed.

Lemma unsignedPart_length s : (String.length (unsignedPart s) <= String.length s)%nat.
Proof.
  destruct s as [|c rest]; simpl; [lia|].
  destruct (Ascii.eqb c "+" || Ascii.eqb c "-"); simpl; lia.
Qed.

Lemma malformed_not_decimal s : malformed s -> decimal s = false.
Proof.
  rewrite malformed_unsigned. unfold decimal, ParseUint.
  destruct (unsignedPart s) as [|c body] eqn:E; [done|].
  intros H. destruct (allDigits (String c body)) eqn:Ed; [|done].
  by apply (parseUintLoop_digits _ 0) in Ed.
Qed.

(** Text of at most 19 bytes is malformed exactly when it is not decimal;
    the bound keeps [ParseUint] from reporting overflow before it reaches
    the offending byte. *)
Lemma short_not_decimal_malformed s :
  (String.length s <= 19)%nat -> decimal s = false -> malformed s.
Proof.
  intros Hlen. rewrite malformed_unsigned. unfold decimal, ParseUint.
  pose proof (unsignedPart_length s) as Hu.
  destruct (unsignedPart s) as [|c body] eqn:E; [done|].
  intros Hd. rewrite (parseUintLoop_reject _ 0 0); [done|lia|simpl; lia|done].
Qed.

(** ** [collectRows] *)

Lemma assignRow_scan {S} (f : string -> string -> S -> S) cols cells st :
  assignRow f cols (scanCell <$> cells) st = foldPairs f (feedRow cols cells) st.
Proof.
  unfold assignRow, foldPairs, feedRow. revert cells st.
  induction cols as [|c cols IH]; intros [|cell cells] st; simpl; try done.
Qed.

Lemma foldPairs_app {S} (f : string -> string -> S -> S) l1 l2 st :
  foldPairs f (l1 ++ l2) st = foldPairs f l2 (foldPairs f l1 st).
Proof. apply fold_left_app. Qed.

Lemma collectRowsLoop_success {S} (f : string -> string -> S -> S) cols pending :
  forall values st st',
  collectRowsLoop f cols values pending st = (st', None) ->
  exists cellrows, pending = inr <$> cellrows /\ st' = foldPairs f (feed cols cellrows) st.
Proof.
  induction pending as [|r rest IH]; intros values st st'; simpl.
  - intros [= <-]. by exists [].
  - destruct r as [err|cells]; simpl; [done|].
    destruct (Nat.eqb _ _); [|done].
    intros (cellrows & -> & ->)%IH. exists (cells :: cellrows). split; [done|].
    unfold feed. simpl. by rewrite foldPairs_app, assignRow_scan.
Qed.

Lemma collectRowsLoop_table {S} (f : string -> string -> S -> S) cols cellrows :
  wellShaped cols cellrows -> forall values st, length values = length cols ->
  collectRowsLoop f cols values (inr <$> cellrows) st = (foldPairs f (feed cols cellrows) st, None).
Proof.
  induction 1 as [|cells cellrows Hc _ IH]; intros values st Hv; simpl; [done|].
  rewrite Hc, Hv, Nat.eqb_refl. rewrite IH by (by rewrite length_fmap).
  unfold feed. simpl. by rewrite foldPairs_app, assignRow_scan.
Qed.

Lemma collectRows_table {S} (f : string -> string -> S -> S) cols cellrows st :
  wellShaped cols cellrows ->
  collectRows (table cols cellrows) (Some f) st = (foldPairs f (feed cols cellrows) st, None).
Proof.
  intros H. unfold collectRows, table; simpl. apply collectRowsLoop_table; [done|].
  unfold makeNullStrings. by rewrite length_replicate.
Qed.

Lemma elem_of_zip_scan (c : string) v cols cells :
  (c, v) ∈ zip cols (scanCell <$> cells) ->
  exists cell, v = scanCell cell /\ (c, cell) ∈ zip cols cells.
Proof.
  revert cells. induction cols as [|c0 cols IH]; intros [|cell cells]; simpl;
    try (by intros ?%elem_of_nil).
  intros [[= -> ->]|H]%elem_of_cons.
  - exists cell. split; [done|]. apply elem_of_cons; by left.
  - destruct (IH _ H) as (cell' & -> & ?). exists cell'. split; [done|].
    apply elem_of_cons; by right.
Qed.

Lemma assignRow_inv {S} (I : S -> Prop) (f : string -> string -> S -> S) cols values :
  (forall c v st, (c, v) ∈ zip cols values -> I st -> I (f c (valueToString v) st)) ->
  forall st, I st -> I (assignRow f cols values st).
Proof.
  unfold assignRow. generalize (zip cols values) as l.
  induction l as [|[c v] l IH]; intros H st Hst; simpl; [done|].
  apply IH.
  - intros c' v' st' Hin. apply H. apply elem_of_cons; by right.
  - apply (H c v); [apply elem_of_cons; by left|done].
Qed.

Lemma collectRowsLoop_inv {S} (I : S -> Prop) (f : string -> string -> S -> S) cols pending :
  (forall cells c cell st, inr cells ∈ pending -> (c, cell) ∈ zip cols cells ->
     I st -> I (f c (cellText cell) st)) ->
  forall values st, I st -> I (fst (collectRowsLoop f cols values pending st)).
Proof.
  induction pending as [|r rest IH]; intros H values st Hst; simpl; [done|].
  destruct r as [err|cells]; simpl; [done|].
  destruct (Nat.eqb _ _); [|done].
  apply IH.
  - intros cells' c cell st' Hin. apply H. apply elem_of_cons; by right.
  - apply assignRow_inv; [|done].
    intros c v st' (cell & -> & Hin)%elem_of_zip_scan. apply (H cells); [|done].
    apply elem_of_cons; by left.
Qed.

Lemma collectRows_inv {S} (I : S -> Prop) (f : string -> string -> S -> S) rows :
  (forall cols cells c cell st, Columns rows = inr cols -> inr cells ∈ records rows ->
     (c, cell) ∈ zip cols cells -> I st -> I (f c (cellText cell) st)) ->
  forall st, I st -> I (fst (collectRows rows (Some f) st)).
Proof.
  intros H st Hst. unfold collectRows. destruct (Columns rows) as [err|cols] eqn:E; [done|].
  apply collectRowsLoop_inv; [|done]. intros cells c cell st'. by apply H.
Qed.

Lemma feedRow_lookup cols cells (i : nat) c cell :
  cols !! i = Some c -> cells !! i = Some cell ->
  feedRow cols cells !! i = Some (c, cellText cell).
Proof.
  intros Hc Hcell. unfold feedRow. apply lookup_zip_with_Some.
  exists c, (cellText cell). split; [done|]. split; [done|].
  by rewrite list_lookup_fmap, Hcell.
Qed.

(** ** Numeric text and NULL cells *)

Lemma malformed_zero s : malformed s -> safeParseInt s = 0.
Proof.
  unfold malformed, safeParseInt. destruct (ParseInt s) as [v e] eqn:E; simpl.
  intros ->. by apply ParseInt_syntax in E.
Qed.

Lemma safeParseInt_range s : inInt64 (safeParseInt s).
Proof. apply ParseInt_range. Qed.

Lemma eqb_ne (a b : string) : a <> b -> String.eqb a b = false.
Proof. by intros ?%String.eqb_neq. Qed.

Lemma wellShaped_1 cols cells : length cells = length cols -> wellShaped cols [cells].
Proof. intros H. by repeat constructor. Qed.

Lemma wellShaped_2 cols c1 c2 :
  length c1 = length cols -> length c2 = length cols -> wellShaped cols [c1; c2].
Proof. intros H1 H2. by repeat constructor. Qed.

Example malformed_examples :
  malformed "" /\ malformed "abc" /\ malformed "12a" /\ malformed "1.5"
  /\ malformed "-" /\ malformed " 7" /\ ~ malformed "007" /\ ~ malformed "+5".
Proof. repeat split; try reflexivity; intros [=]. Qed.

(** The callbacks that carry a dimension key, read off at a value column
    and at the key column. *)
Lemma assignStandbyWAL_value column value app mx :
  column <> "application_name" ->
  assignStandbyWAL column value (mx, app)
  = (<[standbyWALKey app column :=
         add64 (mxGet mx (standbyWALKey app column)) (safeParseInt value)]> mx, app).
Proof. intros Hc. unfold assignStandbyWAL. by rewrite (eqb_ne _ _ Hc). Qed.

Lemma assignStandbyWAL_name value app mx :
  assignStandbyWAL "application_name" value (mx, app) = (mx, value).
Proof. reflexivity. Qed.

Lemma two_rows_accumulate app column v1 v2 (mx : Mx) :
  column <> "application_name" ->
  (let '(mx', _, err) :=
     (foldPairs assignStandbyWAL
        (feed ["application_name"; column] [[Some app; Some v1]; [Some app; Some v2]])
        (mx, ""), @None error) in (mx', err))
  = (<[ standbyWALKey app column :=
          add64 (add64 (mxGet mx (standbyWALKey app column)) (safeParseInt v1))
                (safeParseInt v2) ]> mx, None).
Proof.
  intros Hc. cbn -[assignStandbyWAL].
  rewrite !assignStandbyWAL_name, assignStandbyWAL_value by done.
  rewrite !assignStandbyWAL_name, assignStandbyWAL_value by done.
  unfold mxGet at 1. rewrite lookup_insert_eq. cbn [default].
  by rewrite insert_insert_eq.
Qed.

Lemma add64_exact a b : inInt64 (a + b) -> add64 a b = a + b.
Proof. apply wrap64_id. Qed.

Lemma add64_0_l z : inInt64 z -> add64 0 z = z.
Proof. intros H. unfold add64. rewrite Z.add_0_l. by apply wrap64_id. Qed.

Lemma assignCatalog_value column value kind mx :
  column <> "relkind" ->
  assignCatalog column value (mx, kind)
  = (<["catalog_relkind_" +:+ kind +:+ "_" +:+ column := safeParseInt value]> mx, kind).
Proof. intros Hc. unfold assignCatalog. by rewrite (eqb_ne _ _ Hc). Qed.

Lemma assignCatalog_kind value kind mx :
  assignCatalog "relkind" value (mx, kind) = (mx, value).
Proof. reflexivity. Qed.

(** C10. A NULL cell, and any destination that is not a valid
    [*sql.NullString], reaches the callback as the empty string:
    [collectRows] hands [valueToString] of every scanned cell to the
    callback, and the empty string parses to 0 without an error. *)
Theorem null_cell_becomes_empty_text :
  (forall s, valueToString
               (PtrNullString {| NullString_String := s; NullString_Valid := false |}) = "")
  /\ valueToString OtherValue = ""
  /\ cellText None = ""
  /\ (forall (S : Type) (assign : string -> string -> S -> S) cols cellrows st,
        wellShaped cols cellrows ->
        collectRows (table cols cellrows) (Some assign) st
        = (foldPairs assign (feed cols cellrows) st, None))
  /\ (forall cols cells (i : nat) column,
        cols !! i = Some column -> cells !! i = Some None ->
        feedRow cols cells !! i = Some (column, ""))
  /\ safeParseInt (cellText None) = 0
  /\ (forall d column mx,
        QueryContext d qTXIDWraparound = inr (table [column] [[None]]) ->
        collectTXIDWraparound d mx = (<[column := 0]> mx, None))
  /\ (forall p d app column,
        column <> "application_name" ->
        QueryContext d (qReplicationStandbyAppDelta (serverVersion p))
          = inr (table ["application_name"; column] [[Some app; None]]) ->
        collectReplicationStandbyAppWALDelta p d ∅
        = ({[ standbyWALKey app column := 0 ]}, None)).
Proof.
  split; [done|]. split; [done|]. split; [done|].
  split; [|split; [|split; [done|split]]].
  - intros S assign cols cellrows st. apply collectRows_table.
  - intros cols cells i column Hc Hn. by apply (feedRow_lookup cols cells i column None).
  - intros d column mx Hq. unfold collectTXIDWraparound. rewrite Hq.
    by rewrite collectRows_table by (by apply wellShaped_1).
  - intros p d app column Hc Hq. unfold collectReplicationStandbyAppWALDelta.
    rewrite Hq, collectRows_table by (by apply wellShaped_1).
    cbn -[assignStandbyWAL].
    by rewrite assignStandbyWAL_name, assignStandbyWAL_value by done.
Qed.

Lemma null_cell_becomes_empty_text_witness :
  let d := answering qTXIDWraparound (table ["oldest_current_xid"] [[None]])
             (sampleServer "140005") in
  QueryContext d qTXIDWraparound = inr (table ["oldest_current_xid"] [[None]])
  /\ collectTXIDWraparound d ∅ = (<["oldest_current_xid" := 0]> ∅, None).
Proof.
  cbv zeta. split; [reflexivity|].
  destruct null_cell_becomes_empty_text as (_ & _ & _ & _ & _ & _ & H & _).
  apply H. reflexivity.
Defined.


(** ** Merge policies *)

(** C4. The replication delta and lag collectors accumulate
    ([mx[key] += value], on [int64]): two rows for one standby application
    and one value column leave their sum under the key. Every other
    keyed-expansion callback of the file overwrites: the last row wins. *)
Theorem accumulate_replication_overwrite_others :
  (* the two merge policies *)
  (forall column value app mx, column <> "application_name" ->
     assignStandbyWAL column value (mx, app)
     = (<[standbyWALKey app column :=
            add64 (mxGet mx (standbyWALKey app column)) (safeParseInt value)]> mx, app))
  /\ (forall column value mx,
        assignColumn column value mx = <[column := safeParseInt value]> mx)
  /\ (forall column value kind mx, column <> "relkind" ->
        assignCatalog column value (mx, kind)
        = (<["catalog_relkind_" +:+ kind +:+ "_" +:+ column := safeParseInt value]> mx, kind))
  (* two rows for one standby application and one value column *)
  /\ (forall p d app column v1 v2 mx,
        column <> "application_name" ->
        QueryContext d (qReplicationStandbyAppDelta (serverVersion p))
          = inr (table ["application_name"; column]
                   [[Some app; Some v1]; [Some app; Some v2]]) ->
        collectReplicationStandbyAppWALDelta p d mx
        = (<[ standbyWALKey app column :=
                add64 (add64 (mxGet mx (standbyWALKey app column)) (safeParseInt v1))
                      (safeParseInt v2) ]> mx, None)
        /\ (mx !! standbyWALKey app column = None ->
            fst (collectReplicationStandbyAppWALDelta p d mx) !! standbyWALKey app column
            = Some (add64 (safeParseInt v1) (safeParseInt v2))))
  /\ (forall d app column v1 v2 mx,
        column <> "application_name" ->
        QueryContext d qReplicationStandbyAppLag
          = inr (table ["application_name"; column]
                   [[Some app; Some v1]; [Some app; Some v2]]) ->
        collectReplicationStandbyAppWALLag d mx
        = (<[ standbyWALKey app column :=
                add64 (add64 (mxGet mx (standbyWALKey app column)) (safeParseInt v1))
                      (safeParseInt v2) ]> mx, None)
        /\ (mx !! standbyWALKey app column = None ->
            fst (collectReplicationStandbyAppWALLag d mx) !! standbyWALKey app column
            = Some (add64 (safeParseInt v1) (safeParseInt v2))))
  (* on [int64] the sum is exact while it is in range *)
  /\ (forall a b, inInt64 (a + b) -> add64 a b = a + b)
  (* two rows for one key elsewhere *)
  /\ (forall d kind column v1 v2 mx,
        column <> "relkind" ->
        QueryContext d qCatalogRelations
          = inr (table ["relkind"; column] [[Some kind; Some v1]; [Some kind; Some v2]]) ->
        exists mx', collectCatalog d mx = (mx', None)
          /\ mx' !! ("catalog_relkind_" +:+ kind +:+ "_" +:+ column) = Some (safeParseInt v2))
  /\ (forall p d column v1 v2 mx rows,
        rows = table [column] [[Some v1]; [Some v2]] ->
        (QueryContext d qTXIDWraparound = inr rows ->
           collectTXIDWraparound d mx = (<[column := safeParseInt v2]> mx, None))
        /\ (QueryContext d (qWALFiles (serverVersion p)) = inr rows ->
           collectWALFiles p d mx = (<[column := safeParseInt v2]> mx, None))
        /\ (QueryContext d (qWALArchiveFiles (serverVersion p)) = inr rows ->
           collectWALArchiveFiles p d mx = (<[column := safeParseInt v2]> mx, None))
        /\ (QueryContext d qAutovacuumWorkers = inr rows ->
           collectAutovacuumWorkers d mx = (<[column := safeParseInt v2]> mx, None))).
Proof.
  assert (Hfresh : forall (mx : Mx) key v1 v2, mx !! key = None ->
            <[key := add64 (add64 (mxGet mx key) (safeParseInt v1)) (safeParseInt v2)]> mx
              !! key = Some (add64 (safeParseInt v1) (safeParseInt v2))).
  { intros mx key v1 v2 Hn. rewrite lookup_insert_eq. unfold mxGet. rewrite Hn.
    cbn [default]. by rewrite add64_0_l by apply safeParseInt_range. }
  split; [|split; [|split; [|split; [|split; [|split; [|split]]]]]].
  - intros column value app mx Hc. by apply assignStandbyWAL_value.
  - done.
  - intros column value kind mx Hc. by apply assignCatalog_value.
  - intros p d app column v1 v2 mx Hc Hq. unfold collectReplicationStandbyAppWALDelta.
    rewrite Hq, collectRows_table by (by apply wellShaped_2).
    rewrite two_rows_accumulate by done. split; [done|]. apply Hfresh.
  - intros d app column v1 v2 mx Hc Hq. unfold collectReplicationStandbyAppWALLag.
    rewrite Hq, collectRows_table by (by apply wellShaped_2).
    rewrite two_rows_accumulate by done. split; [done|]. apply Hfresh.
  - apply add64_exact.
  - intros d kind column v1 v2 mx Hc Hq. unfold collectCatalog.
    rewrite Hq, collectRows_table by (by apply wellShaped_2).
    cbn -[assignCatalog seedRelkind].
    rewrite !assignCatalog_kind, assignCatalog_value by done.
    rewrite !assignCatalog_kind, assignCatalog_value by done.
    eexists. split; [reflexivity|]. by rewrite lookup_insert_eq.
  - intros p d column v1 v2 mx rows ->.
    unfold collectTXIDWraparound, collectWALFiles, collectWALArchiveFiles,
      collectAutovacuumWorkers.
    repeat split; intros ->; rewrite collectRows_table by (by apply wellShaped_2);
      cbn; unfold assignColumn; by rewrite insert_insert_eq.
Qed.

Lemma accumulate_replication_overwrite_others_witness :
  let d := sampleServer "140005" in
  "sent_delta" <> "application_name"
  /\ QueryContext d (qReplicationStandbyAppDelta (serverVersion newCollector))
     = inr (table ["application_name"; "sent_delta"]
              [[Some "replica1"; Some "5"]; [Some "replica1"; Some "7"]])
  /\ fst (collectReplicationStandbyAppWALDelta newCollector d ∅)
       !! standbyWALKey "replica1" "sent_delta"
     = Some (add64 (safeParseInt "5") (safeParseInt "7")).
Proof.
  cbv zeta. split; [discriminate|]. split; [reflexivity|].
  destruct accumulate_replication_overwrite_others as (_ & _ & _ & H & _).
  destruct (H newCollector (sampleServer "140005") "replica1" "sent_delta" "5" "7" ∅)
    as [_ Hsum]; [discriminate|reflexivity|].
  apply Hsum. reflexivity.
Defined.

(** The sample server: two delta rows for "replica1" (5 and 7) and two lag
    rows (2 and NULL). *)
Example replication_sample :
  fst (collectReplicationStandbyAppWALDelta newCollector (sampleServer "140005") ∅)
    !! "repl_standby_app_replica1_wal_sent_delta" = Some 12
  /\ fst (collectReplicationStandbyAppWALLag (sampleServer "140005") ∅)
       !! "repl_standby_app_replica1_wal_write_lag" = Some 2.
Proof. vm_compute. split; reflexivity. Qed.

(** ** Relation kinds *)

(** A key written by the catalog callback coincides with a seeded key of a
    known kind only for that very kind. *)
Lemma no_separator_in_suffix k column suffix :
  suffix = "count" \/ suffix = "size" -> k +:+ "_" +:+ column <> suffix.
Proof.
  intros [->| ->] H;
    repeat (destruct k as [|? k]; simpl in H; try discriminate H; injection H as _ H).
Qed.

Lemma catalog_key_kind kind column K suffix :
  K ∈ relkinds -> suffix = "count" \/ suffix = "size" ->
  "catalog_relkind_" +:+ kind +:+ "_" +:+ column = "catalog_relkind_" +:+ K +:+ "_" +:+ suffix ->
  kind = K.
Proof.
  intros HK Hs H. simpl in H. injection H as H.
  assert (exists a, K = String a EmptyString /\ a <> "_"%char) as (a & -> & Ha).
  { unfold relkinds in HK. repeat (apply elem_of_cons in HK as [->|HK]; [eexists; split; [reflexivity|discriminate]|]).
    by apply elem_of_nil in HK. }
  simpl in H. destruct kind as [|b kind]; simpl in H.
  { injection H as H _. congruence. }
  injection H as -> H. destruct kind as [|c kind]; [done|]. simpl in H.
  injection H as _ H. by apply no_separator_in_suffix in H.
Qed.

Lemma relkindCountKey_eq K : relkindCountKey K = "catalog_relkind_" +:+ K +:+ "_" +:+ "count".
Proof. reflexivity. Qed.
Lemma relkindSizeKey_eq K : relkindSizeKey K = "catalog_relkind_" +:+ K +:+ "_" +:+ "size".
Proof. reflexivity. Qed.

Lemma seedRelkind_zero mx v key : mx !! key = Some 0 -> seedRelkind mx v !! key = Some 0.
Proof.
  intros H. unfold seedRelkind. rewrite !lookup_insert. by repeat case_decide.
Qed.

Lemma seedRelkind_hit mx K :
  seedRelkind mx K !! relkindCountKey K = Some 0
  /\ seedRelkind mx K !! relkindSizeKey K = Some 0.
Proof.
  unfold seedRelkind. fold (relkindCountKey K) (relkindSizeKey K).
  rewrite !lookup_insert. split; repeat case_decide; congruence.
Qed.

Lemma seeded_zero l : forall mx K, K ∈ l ->
  fold_left seedRelkind l mx !! relkindCountKey K = Some 0
  /\ fold_left seedRelkind l mx !! relkindSizeKey K = Some 0.
Proof.
  assert (Hkeep : forall l mx key, mx !! key = Some 0 ->
                    fold_left seedRelkind l mx !! key = Some 0).
  { clear. induction l as [|v l IH]; intros mx key H; simpl; [done|].
    by apply IH, seedRelkind_zero. }
  induction l as [|v l IH]; intros mx K HK; simpl.
  - by apply elem_of_nil in HK.
  - apply elem_of_cons in HK as [->|HK]; [|by apply IH].
    destruct (seedRelkind_hit mx v). split; by apply Hkeep.
Qed.

Lemma cellText_ne cell K : K <> "" -> cell <> Some K -> cellText cell <> K.
Proof. destruct cell as [s|]; unfold cellText; simpl; congruence. Qed.

Lemma relkinds_nonempty K : K ∈ relkinds -> K <> "".
Proof.
  unfold relkinds. intros HK ->.
  repeat (apply elem_of_cons in HK as [HK|HK]; [discriminate|]).
  by apply elem_of_nil in HK.
Qed.

(** The callback never deletes a key. *)
Lemma assignCatalog_keeps column value mx kind key :
  is_Some (mx !! key) -> is_Some (fst (assignCatalog column value (mx, kind)) !! key).
Proof.
  intros H. unfold assignCatalog. destruct (String.eqb column "relkind"); simpl; [done|].
  rewrite lookup_insert. by case_decide.
Qed.

(** When the catalog statement itself fails, nothing is seeded. *)
Lemma collectCatalog_query_error d mx err :
  QueryContext d qCatalogRelations = inl err -> collectCatalog d mx = (mx, Some err).
Proof. intros H. unfold collectCatalog. by rewrite H. Qed.

(** C5. Once the catalog statement has returned its rows, the ten known
    relation kinds have their count and size keys set to 0 before any row is
    folded in. Both keys of every known kind are present afterwards, and
    they still hold 0 for every kind that no row names. *)
Theorem relkinds_seeded d rows mx
    (Hq : QueryContext d qCatalogRelations = inr rows) :
  let seeded := fold_left seedRelkind relkinds mx in
  collectCatalog d mx
    = (let '((mx', _), err) := collectRows rows (Some assignCatalog) (seeded, "") in (mx', err))
  /\ forall kind, kind ∈ relkinds ->
       (seeded !! relkindCountKey kind = Some 0 /\ seeded !! relkindSizeKey kind = Some 0)
       /\ (is_Some (fst (collectCatalog d mx) !! relkindCountKey kind)
           /\ is_Some (fst (collectCatalog d mx) !! relkindSizeKey kind))
       /\ (relkindAbsent kind rows ->
             fst (collectCatalog d mx) !! relkindCountKey kind = Some 0
             /\ fst (collectCatalog d mx) !! relkindSizeKey kind = Some 0).
Proof.
  intros seeded. unfold collectCatalog. rewrite Hq. fold seeded.
  split; [reflexivity|]. intros K HK.
  destruct (seeded_zero relkinds mx K HK) as [Hc Hs]. fold seeded in Hc, Hs.
  split; [done|].
  assert (Hpres : (fun st : Mx * string =>
             is_Some (fst st !! relkindCountKey K) /\ is_Some (fst st !! relkindSizeKey K))
           (fst (collectRows rows (Some assignCatalog) (seeded, "")))).
  { apply collectRows_inv.
    - intros cols cells c cell [m k] _ _ _ [H1 H2]. split; by apply assignCatalog_keeps.
    - cbn [fst]. rewrite Hc, Hs. split; by eexists. }
  assert (Hzero : relkindAbsent K rows ->
           (fun st : Mx * string =>
              snd st <> K /\ fst st !! relkindCountKey K = Some 0
              /\ fst st !! relkindSizeKey K = Some 0)
           (fst (collectRows rows (Some assignCatalog) (seeded, "")))).
  { intros Habs. apply collectRows_inv.
    - intros cols cells c cell [m k] Hcols Hin Hzip (Hk & H1 & H2). cbn [fst snd] in *.
      unfold assignCatalog. destruct (String.eqb c "relkind") eqn:E; cbn [fst snd].
      + apply String.eqb_eq in E as ->. split; [|done].
        apply cellText_ne; [by apply relkinds_nonempty|].
        intros ->. by apply (Habs cols cells).
      + split; [done|]. rewrite !lookup_insert_ne; [done| |].
        * rewrite relkindSizeKey_eq. by intros ?%catalog_key_kind; [|done|right].
        * rewrite relkindCountKey_eq. by intros ?%catalog_key_kind; [|done|left].
    - cbn [fst snd]. split; [|done]. apply not_eq_sym. by apply relkinds_nonempty. }
  destruct (collectRows rows (Some assignCatalog) (seeded, "")) as [[mx' kind'] err].
  cbn [fst snd] in *. split; [done|]. intros Habs. by destruct (Hzero Habs) as (_ & ? & ?).
Qed.

Lemma relkinds_seeded_witness :
  QueryContext (sampleServer "140005") qCatalogRelations = inr (sampleRows qCatalogRelations)
  /\ is_Some (fst (collectCatalog (sampleServer "140005") ∅) !! relkindCountKey "v").
Proof.
  split; [reflexivity|].
  destruct (relkinds_seeded (sampleServer "140005") (sampleRows qCatalogRelations) ∅ eq_refl)
    as [_ Hk].
  destruct (Hk "v") as (_ & [Hc _] & _); [|exact Hc].
  unfold relkinds. rewrite !elem_of_cons. auto 10.
Defined.

Example catalog_sample :
  let mx := fst (collectCatalog (sampleServer "140005") ∅) in
  mx !! "catalog_relkind_r_count" = Some 12 /\ mx !! "catalog_relkind_r_size" = Some 4096
  /\ mx !! "catalog_relkind_i_count" = Some 3 /\ mx !! "catalog_relkind_i_size" = Some 0
  /\ mx !! "catalog_relkind_v_count" = Some 0 /\ mx !! "catalog_relkind_I_size" = Some 0.
Proof. vm_compute. repeat split. Qed.

(** ** De-duplication *)

Lemma filter_filter_and {A} (P Q R : A -> Prop) `{!forall x, Decision (P x)}
    `{!forall x, Decision (Q x)} `{!forall x, Decision (R x)} (l : list A) :
  (forall x, R x <-> P x /\ Q x) -> filter P (filter Q l) = filter R l.
Proof.
  intros HR. rewrite list_filter_filter. apply list_filter_iff. intros x. by rewrite HR.
Qed.

Lemma filter_all {A} (P : A -> Prop) `{!forall x, Decision (P x)} (l : list A) :
  (forall x, x ∈ l -> P x) -> filter P l = l.
Proof.
  induction l as [|a l IH]; intros HP; [done|].
  rewrite filter_cons_True by (apply HP, elem_of_cons; by left).
  f_equal. apply IH. intros x Hx. apply HP, elem_of_cons. by right.
Qed.

Lemma firstOccurrences_elem l x : x ∈ firstOccurrences l <-> x ∈ l.
Proof.
  induction l as [|a l IH]; simpl; [done|].
  rewrite !elem_of_cons, list_elem_of_filter, IH.
  destruct (decide (x = a)); tauto.
Qed.

Lemma firstOccurrences_NoDup l : NoDup (firstOccurrences l).
Proof.
  induction l as [|a l IH]; simpl; [constructor|].
  constructor; [|by apply NoDup_filter].
  rewrite list_elem_of_filter. tauto.
Qed.

Lemma firstOccurrences_app l1 l2 :
  firstOccurrences (l1 ++ l2)
  = firstOccurrences l1 ++ filter (fun y => y ∉ l1) (firstOccurrences l2).
Proof.
  induction l1 as [|a l1 IH]; simpl.
  - symmetry. apply filter_all. intros x _. apply not_elem_of_nil.
  - f_equal. rewrite IH, filter_app. f_equal.
    apply filter_filter_and. intros x. rewrite not_elem_of_cons. tauto.
Qed.

Lemma firstOccurrences_id l : NoDup l -> firstOccurrences l = l.
Proof.
  induction 1 as [|a l Ha _ IH]; simpl; [done|]. f_equal. rewrite IH.
  apply filter_all. intros x Hx ->. done.
Qed.

Lemma foldPairs_cons {S} (f : string -> string -> S -> S) c v l st :
  foldPairs f ((c, v) :: l) st = foldPairs f l (f c v st).
Proof. reflexivity. Qed.

(** One call of the callback of [queryStandbyAppList]. *)
Lemma assignStandbyApp_step c v apps :
  assignStandbyApp c v (apps, list_to_set apps)
  = if decide (c = "application_name" /\ v ∉ apps)
    then (apps ++ [v], list_to_set (apps ++ [v]))
    else (apps, list_to_set apps).
Proof.
  unfold assignStandbyApp.
  destruct (String.eqb c "application_name") eqn:Ec.
  - apply String.eqb_eq in Ec as ->.
    destruct (bool_decide (v ∈ list_to_set apps)) eqn:E; simpl.
    + apply bool_decide_eq_true in E. rewrite elem_of_list_to_set in E.
      by rewrite decide_False by tauto.
    + apply bool_decide_eq_false in E. rewrite elem_of_list_to_set in E.
      rewrite decide_True by tauto. f_equal.
      rewrite list_to_set_app_L. cbn [list_to_set foldr].
      by rewrite union_empty_r_L, union_comm_L.
  - apply String.eqb_neq in Ec. simpl. by rewrite decide_False by tauto.
Qed.

(** The loop of [queryStandbyAppList] over the pairs it is fed. *)
Lemma fold_assignStandbyApp pairs : forall apps,
  NoDup apps ->
  fst (foldPairs assignStandbyApp pairs (apps, list_to_set apps))
  = firstOccurrences
      (apps ++ (snd <$> filter (fun cv => fst cv = "application_name") pairs)).
Proof.
  induction pairs as [|[c v] pairs IH]; intros apps Hnd.
  - simpl. by rewrite app_nil_r, firstOccurrences_id.
  - rewrite foldPairs_cons, assignStandbyApp_step, filter_cons. cbn [fst].
    destruct (decide (c = "application_name")) as [->|Hc].
    + destruct (decide (v ∈ apps)) as [Hv|Hv].
      * rewrite decide_False by tauto. rewrite IH by done.
        rewrite !firstOccurrences_app. f_equal. cbn [fmap list_fmap snd firstOccurrences].
        rewrite filter_cons_False by tauto.
        symmetry. apply filter_filter_and. intros x. split; [|tauto].
        intros Hx. split; [done|]. congruence.
      * rewrite decide_True by tauto.
        rewrite IH.
        { cbn [fmap list_fmap snd]. by rewrite <- app_assoc. }
        apply NoDup_app. split; [done|]. split; [|apply NoDup_singleton].
        intros x Hx ->%list_elem_of_singleton. done.
    + rewrite decide_False by tauto. by apply IH.
Qed.

(** C9. The name list that [queryStandbyAppList] hands to the tracker
    holds every [application_name] of the result set once, at the place of
    its first occurrence, however many rows carry it. *)
Theorem standby_names_deduplicated :
  (forall d cols cellrows,
     QueryContext d qReplicationStandbyAppList = inr (table cols cellrows) ->
     wellShaped cols cellrows ->
     queryStandbyAppList d = inr (firstOccurrences (applicationNames cols cellrows)))
  /\ (forall d apps, queryStandbyAppList d = inr apps -> NoDup apps)
  /\ (forall names : list string,
        NoDup (firstOccurrences names)
        /\ (forall x, x ∈ firstOccurrences names <-> x ∈ names)
        /\ (forall before x after, names = before ++ x :: after -> x ∉ before ->
              firstOccurrences names
              = firstOccurrences before
                  ++ x :: filter (fun y => y ∉ before ++ [x]) (firstOccurrences after))).
Proof.
  split; [|split].
  - intros d cols cellrows Hq Hw. unfold queryStandbyAppList. rewrite Hq.
    rewrite collectRows_table by done.
    pose proof (fold_assignStandbyApp (feed cols cellrows) [] (NoDup_nil_2)) as H.
    change (list_to_set []) with (∅ : gset string) in H.
    destruct (foldPairs assignStandbyApp (feed cols cellrows) ([], ∅)) as [apps seen].
    cbn [fst] in H. by rewrite H.
  - intros d apps. unfold queryStandbyAppList.
    destruct (QueryContext d qReplicationStandbyAppList) as [err|rows]; [done|].
    unfold collectRows. destruct (Columns rows) as [err|cols]; [done|].
    destruct (collectRowsLoop _ _ _ _ _) as [[apps' seen] [err|]] eqn:E; [done|].
    intros [= <-]. apply collectRowsLoop_success in E as (cellrows & _ & E).
    pose proof (fold_assignStandbyApp (feed cols cellrows) [] (NoDup_nil_2)) as H.
    change (list_to_set []) with (∅ : gset string) in H.
    rewrite <- E in H. cbn [fst] in H. rewrite H. apply firstOccurrences_NoDup.
  - intros names. split; [apply firstOccurrences_NoDup|].
    split; [intros x; apply firstOccurrences_elem|].
    intros before x after -> Hx. rewrite firstOccurrences_app. f_equal.
    cbn [firstOccurrences]. rewrite filter_cons_True by done. f_equal.
    apply filter_filter_and. intros y. rewrite not_elem_of_app, list_elem_of_singleton. tauto.
Qed.

Lemma standby_names_deduplicated_witness :
  let d := sampleServer "140005" in
  let cols := ["application_name"] in
  let cellrows := [[Some "replica1"]; [Some "replica1"]; [Some "replica2"]] in
  QueryContext d qReplicationStandbyAppList = inr (table cols cellrows)
  /\ wellShaped cols cellrows
  /\ queryStandbyAppList d = inr (firstOccurrences (applicationNames cols cellrows)).
Proof.
  cbv zeta.
  assert (Hw : wellShaped ["application_name"]
                 [[Some "replica1"]; [Some "replica1"]; [Some "replica2"]]).
  { repeat constructor. }
  split; [reflexivity|]. split; [exact Hw|].
  destruct standby_names_deduplicated as (H & _).
  apply H; [reflexivity|exact Hw].
Defined.

Example standby_sample :
  queryStandbyAppList (sampleServer "140005") = inr ["replica1"; "replica2"].
Proof. reflexivity. Qed.

(** ** The standby-application tracker *)

(** Equality of two sets built from unions and singletons. *)
Ltac same_set :=
  apply set_eq; intros ?;
  rewrite ?elem_of_union, ?elem_of_singleton, ?elem_of_union, ?elem_of_singleton;
  intuition congruence.

(** The first loop of [collectStandbyAppList]. *)
Lemma fold_trackApp apps : forall (seen collected : gset string) calls,
  fold_left trackApp apps (seen, collected, calls)
  = (list_to_set apps ∪ seen, list_to_set apps ∪ collected,
     calls ++ (addNewReplicationStandbyAppCharts
                 <$> filter (fun app => app ∉ collected) (firstOccurrences apps))).
Proof.
  induction apps as [|a apps IH]; intros seen collected calls.
  - cbn. by rewrite !union_empty_l_L, app_nil_r.
  - cbn [fold_left firstOccurrences list_to_set foldr]. unfold trackApp at 2.
    destruct (bool_decide (a ∈ collected)) eqn:E.
    + apply bool_decide_eq_true in E. rewrite IH. f_equal; [f_equal|].
      * same_set.
      * same_set.
      * do 2 f_equal. rewrite filter_cons_False by tauto.
        symmetry. apply filter_filter_and. intros x. split; [|tauto].
        intros Hx. split; [done|]. congruence.
    + apply bool_decide_eq_false in E. rewrite IH. f_equal; [f_equal|].
      * same_set.
      * same_set.
      * rewrite <- app_assoc. f_equal. rewrite filter_cons_True by done.
        cbn [fmap list_fmap app]. do 2 f_equal.
        symmetry. apply filter_filter_and. intros x.
        rewrite not_elem_of_union, not_elem_of_singleton. tauto.
Qed.

(** What [collectStandbyAppList] does with a list that is not empty. *)
Lemma collectStandbyAppList_cons a apps p :
  collectStandbyAppList (a :: apps) p
  = (set_standbyApps (a :: apps) p,
     (addNewReplicationStandbyAppCharts
        <$> filter (fun app => app ∉ (list_to_set (standbyApps p) : gset string))
              (firstOccurrences (a :: apps)))
     ++ (removeReplicationStandbyAppCharts
           <$> filter (fun app => app ∉ (list_to_set (a :: apps) ∪ ∅ : gset string))
                 (elements (list_to_set (a :: apps) ∪ list_to_set (standbyApps p)
                            : gset string)))).
Proof.
  unfold collectStandbyAppList. cbn [length Nat.eqb standbyApps set_standbyApps].
  by rewrite fold_trackApp.
Qed.

#[local] Instance addNew_inj : Inj (=) (=) addNewReplicationStandbyAppCharts.
Proof. by intros x y [= ->]. Qed.
#[local] Instance remove_inj : Inj (=) (=) removeReplicationStandbyAppCharts.
Proof. by intros x y [= ->]. Qed.

(** C2, as the code has it. For a fetched list that is not empty the
    tracker replaces the tracked set with the list, calls the removal method
    once for each tracked name that the list lacks and the addition method
    once for each listed name that was not tracked. For the empty list the
    guard at the head of [collectStandbyAppList] returns at once: nothing is
    removed and the tracked set stays as it was. *)
Theorem tracker_replaces_unless_empty (p : Postgres) (apps : list string) :
  (apps <> [] ->
     standbyApps (fst (collectStandbyAppList apps p)) = apps
     /\ (forall name,
           removeReplicationStandbyAppCharts name ∈ snd (collectStandbyAppList apps p)
           <-> name ∈ standbyApps p /\ name ∉ apps)
     /\ (forall name,
           addNewReplicationStandbyAppCharts name ∈ snd (collectStandbyAppList apps p)
           <-> name ∈ apps /\ name ∉ standbyApps p)
     /\ NoDup (snd (collectStandbyAppList apps p)))
  /\ (apps = [] -> collectStandbyAppList apps p = (p, [])).
Proof.
  split; [|by intros ->].
  destruct apps as [|a apps]; [done|]. intros _.
  rewrite collectStandbyAppList_cons. cbn [fst snd].
  set (new := a :: apps). set (old := standbyApps p).
  split; [done|]. split; [|split].
  - intros name. rewrite elem_of_app, !list_elem_of_fmap. split.
    + intros [(x & [=] & _)|(x & [= <-] & Hx)].
      apply list_elem_of_filter in Hx as [Hs Hc].
      rewrite elem_of_elements, !elem_of_union, !elem_of_list_to_set in Hc.
      rewrite !elem_of_union, elem_of_list_to_set in Hs.
      tauto.
    + intros [Ho Hn]. right. exists name. split; [done|].
      apply list_elem_of_filter.
      rewrite elem_of_elements, !elem_of_union, !elem_of_list_to_set, elem_of_empty.
      tauto.
  - intros name. rewrite elem_of_app, !list_elem_of_fmap. split.
    + intros [(x & [= <-] & Hx)|(x & [=] & _)].
      apply list_elem_of_filter in Hx as [Hs Hc].
      rewrite firstOccurrences_elem in Hc. rewrite elem_of_list_to_set in Hs. done.
    + intros [Hn Ho]. left. exists name. split; [done|].
      apply list_elem_of_filter. rewrite firstOccurrences_elem, elem_of_list_to_set. done.
  - apply NoDup_app. split; [|split].
    + apply NoDup_fmap_2; [apply _|]. apply NoDup_filter, firstOccurrences_NoDup.
    + intros c (x & -> & _)%list_elem_of_fmap (y & [=] & _)%list_elem_of_fmap.
    + apply NoDup_fmap_2; [apply _|]. apply NoDup_filter, NoDup_elements.
Qed.

Lemma tracker_replaces_unless_empty_witness :
  let p := set_standbyApps ["a"; "b"] newCollector in
  ["b"; "c"] <> []
  /\ standbyApps (fst (collectStandbyAppList ["b"; "c"] p)) = ["b"; "c"]
  /\ (removeReplicationStandbyAppCharts "a" ∈ snd (collectStandbyAppList ["b"; "c"] p)).
Proof.
  cbv zeta. split; [discriminate|].
  destruct (tracker_replaces_unless_empty (set_standbyApps ["a"; "b"] newCollector) ["b"; "c"])
    as [H _].
  destruct H as (Hs & Hr & _); [discriminate|].
  split; [exact Hs|]. apply Hr. split.
  - vm_compute. repeat constructor.
  - vm_compute. intros H. repeat (apply elem_of_cons in H as [[=]|H]). by apply elem_of_nil in H.
Defined.

(** C2 as stated fails on the empty list: with "a" and "b" tracked, the
    empty list removes nothing and leaves both names tracked. *)
Lemma tracker_keeps_names_on_empty_list :
  let p := set_standbyApps ["a"; "b"] newCollector in
  snd (collectStandbyAppList [] p) = []
  /\ standbyApps (fst (collectStandbyAppList [] p)) = ["a"; "b"]
  /\ ~ (forall (p : Postgres) (apps : list string),
          (forall name, name ∈ standbyApps p -> name ∉ apps ->
             removeReplicationStandbyAppCharts name ∈ snd (collectStandbyAppList apps p))
          /\ standbyApps (fst (collectStandbyAppList apps p)) = apps).
Proof.
  split; [reflexivity|]. split; [reflexivity|].
  intros H. destruct (H (set_standbyApps ["a"; "b"] newCollector) []) as [_ Hs].
  discriminate Hs.
Qed.

(** The churn scenario, from no standby to "a", to "a" and "b", to none. *)
Example tracker_churn :
  let p0 := newCollector in
  let s0 := collectStandbyAppList [] p0 in
  let s1 := collectStandbyAppList ["a"] (fst s0) in
  let s2 := collectStandbyAppList ["a"; "b"] (fst s1) in
  let s3 := collectStandbyAppList [] (fst s2) in
  snd s0 ++ snd s1 ++ snd s2 ++ snd s3
  = [addNewReplicationStandbyAppCharts "a"; addNewReplicationStandbyAppCharts "b"]
  /\ standbyApps (fst s3) = ["a"; "b"].
Proof. vm_compute. split; reflexivity. Qed.

Example tracker_swap :
  snd (collectStandbyAppList ["b"; "c"] (set_standbyApps ["a"; "b"] newCollector))
  = [addNewReplicationStandbyAppCharts "c"; removeReplicationStandbyAppCharts "a"].
Proof. vm_compute. reflexivity. Qed.

(** ** Symbolic execution of a cycle *)

Lemma wp_bind {A B} (m : M A) (k : A -> M B) r Q :
  wp m r (andThen k Q) -> wp (bind m k) r Q.
Proof. unfold wp, bind, andThen. destruct (m r) as [r' [a|mx e]]; simpl; auto. Qed.

Lemma wp_ret {A} (a : A) r (Q : Run -> Step A -> Prop) : Q r (Next a) -> wp (ret a) r Q.
Proof. auto. Qed.
Lemma wp_get r (Q : Run -> Step Postgres -> Prop) : Q r (Next (self r)) -> wp get r Q.
Proof. auto. Qed.
Lemma wp_modify f r (Q : Run -> Step unit -> Prop) :
  Q {| self := f (self r); trace := trace r |} (Next tt) -> wp (modify f) r Q.
Proof. auto. Qed.
Lemma wp_emit es r (Q : Run -> Step unit -> Prop) :
  Q {| self := self r; trace := trace r ++ es |} (Next tt) -> wp (emit es) r Q.
Proof. auto. Qed.
Lemma wp_invoke c r (Q : Run -> Step unit -> Prop) :
  Q {| self := self r; trace := trace r ++ [Invoked c] |} (Next tt) -> wp (invoke c) r Q.
Proof. auto. Qed.
Lemma wp_return {A} mx err r (Q : Run -> Step A -> Prop) :
  Q r (Return mx err) -> wp (return_ mx err) r Q.
Proof. auto. Qed.
Lemma wp_when b m r (Q : Run -> Step unit -> Prop) :
  (b = true -> wp m r Q) -> (b = false -> Q r (Next tt)) -> wp (when b m) r Q.
Proof. intros H1 H2. destruct b; [apply H1 | apply H2]; reflexivity. Qed.
Lemma wp_attempt c f msg mx r (Q : Run -> Step Mx -> Prop) :
  (forall mx' e, f mx = (mx', Some e) ->
     Q {| self := self r; trace := trace r ++ [Invoked c] |} (Return (Some mx') (Some (Errorf msg e)))) ->
  (forall mx', f mx = (mx', None) ->
     Q {| self := self r; trace := trace r ++ [Invoked c] |} (Next mx')) ->
  wp (attempt c f msg mx) r Q.
Proof.
  intros H1 H2. unfold attempt. apply wp_bind, wp_invoke. unfold andThen.
  destruct (f mx) as [mx' [e|]] eqn:E; [apply wp_return | apply wp_ret]; auto.
Qed.

Lemma run_wp p (m : M Empty_set) (F : Outcome -> Prop) :
  wp m {| self := p; trace := [] |} (atReturn F) -> F (run p m).
Proof. unfold wp, run, atReturn. destruct (m _) as [r [[]|mx e]]; auto. Qed.

Lemma wp_openConnection {A} w p (k : Postgres * option error -> M A) r Q :
  (forall err,
     wp (k (p, Some ("error on opening a connection with the Postgres database ["
                     +:+ DSN p +:+ "]: " +:+ err))) r Q) ->
  (forall err,
     wp (k (p, Some ("error on pinging the Postgres database ["
                     +:+ DSN p +:+ "]: " +:+ err))) r Q) ->
  wp (k (set_db true p, None)) r Q ->
  wp (k (openConnection w p)) r Q.
Proof.
  intros H1 H2 H3. unfold openConnection.
  destruct (sqlOpen w); [apply H1|]. destruct (PingContext w); [apply H2|apply H3].
Qed.

Lemma collectStandbyAppList_state apps p :
  exists l, fst (collectStandbyAppList apps p) = set_standbyApps l p
            /\ (l = apps \/ l = standbyApps p).
Proof.
  destruct apps as [|a apps].
  - exists (standbyApps p). split; [by destruct p|by right].
  - exists (a :: apps). rewrite collectStandbyAppList_cons. split; [done|by left].
Qed.

(** A statement followed by the rest of the cycle, cut at an invariant. *)
Lemma wp_seq {A B} (I : Run -> Prop) (m : M A) (k : A -> M B) r Q :
  wp m r (fun r' s => match s with
                      | Next _ => I r'
                      | Return mx err => Q r' (Return mx err)
                      end) ->
  (forall r' a, I r' -> wp (k a) r' Q) ->
  wp (bind m k) r Q.
Proof.
  intros H1 H2. apply wp_bind. unfold wp, andThen in *.
  destruct (m r) as [r' [a|mx e]]; cbn [fst snd] in *; [by apply H2|done].
Qed.

Lemma elem_of_snoc {A} (l : list A) x y : x ∈ l ++ [y] <-> x ∈ l \/ x = y.
Proof. by rewrite elem_of_app, list_elem_of_singleton. Qed.

Lemma not_elem_of_snoc {A} (l : list A) x y : x ∉ l -> x <> y -> x ∉ l ++ [y].
Proof. rewrite elem_of_snoc. tauto. Qed.

Lemma not_invoked_charts c (l : list Event) (charts : list ChartCall) :
  Invoked c ∉ l -> Invoked c ∉ l ++ (Chart <$> charts).
Proof.
  intros H [|(x & [=] & _)%list_elem_of_fmap]%elem_of_app. done.
Qed.

Ltac wp_red :=
  cbv beta iota delta [andThen atReturn];
  cbn [self trace post calls snapshot failure fst snd].

Ltac wp_step :=
  lazymatch goal with
  | |- wp (bind get _) _ _ => apply wp_bind, wp_get; wp_red
  | |- wp (bind _ _) _ _ => apply wp_bind
  | |- wp (ret _) _ _ => apply wp_ret; wp_red
  | |- wp get _ _ => apply wp_get; wp_red
  | |- wp (modify _) _ _ => apply wp_modify; wp_red
  | |- wp (emit _) _ _ => apply wp_emit; wp_red
  | |- wp (invoke _) _ _ => apply wp_invoke; wp_red
  | |- wp (return_ _ _) _ _ => apply wp_return; wp_red
  | |- wp (when _ _) _ _ => apply wp_when; [intros ? | intros ?; wp_red]
  | |- wp (attempt _ _ _ _) _ _ => apply wp_attempt; [intros ? ? ? | intros ? ?]; wp_red
  | |- wp (match openConnection ?w ?p with _ => _ end) _ _ =>
      apply (wp_openConnection w p
               (fun x => match x with (_, Some err) => _ | (p', None) => _ end));
      [intros ? | intros ? | ]; cbv beta iota
  | |- wp (match collectStandbyAppList ?apps ?p with _ => _ end) _ _ =>
      let l := fresh "l" in let Hl := fresh "Hl" in let ch := fresh "charts" in
      let p2 := fresh "p" in
      destruct (collectStandbyAppList_state apps p) as (l & Hl & _);
      destruct (collectStandbyAppList apps p) as [p2 ch]; cbn [fst] in Hl; subst p2
  | |- wp (match ?x with _ => _ end) _ _ => destruct x eqn:?
  | |- wp (if ?x then _ else _) _ _ => destruct x eqn:?
  end.

(** Run the cycle: each refresh block is executed on its own and joined
    with the rest at the invariant [I]; the metric collectors are executed
    in sequence. What is left are the returns and the joins. *)
Ltac wp_cycle I :=
  repeat lazymatch goal with
  | |- wp (bind (when _ _) _) _ _ =>
      apply (wp_seq I); [repeat wp_step | intros ? _ ?]
  | |- wp _ _ _ => wp_step
  end.

Ltac absent :=
  repeat first [ assumption
               | apply not_elem_of_nil
               | apply not_invoked_charts
               | apply not_elem_of_snoc; [|discriminate] ].


(** ** The cached server version *)

Lemma elem_of_snoc_r {A} (l : list A) x : x ∈ l ++ [x].
Proof. apply elem_of_snoc. by right. Qed.

Lemma elem_of_snoc_l {A} (l : list A) x y : x ∈ l -> x ∈ l ++ [y].
Proof. intros H. apply elem_of_snoc. by left. Qed.

Lemma elem_of_charts_l (l : list Event) x (charts : list ChartCall) :
  x ∈ l -> x ∈ l ++ (Chart <$> charts).
Proof. intros H. apply elem_of_app. by left. Qed.

(** A call found in the trace. *)
Ltac present :=
  repeat first [ assumption
               | apply elem_of_snoc_r
               | apply elem_of_snoc_l
               | apply elem_of_charts_l ].

(** Split a hypothesis [x ∈ trace] into the places where [x] may stand. *)
Ltac whereabouts H :=
  repeat first
    [ apply elem_of_snoc in H as [H|H]
    | apply elem_of_app in H as [H|(? & [=] & _)%list_elem_of_fmap] ];
  try (apply elem_of_nil in H; destruct H);
  try discriminate H.

Lemma version_kept pk w p : serverVersion p <> 0 ->
  serverVersion (post (collect pk w p)) = serverVersion p
  /\ Invoked QueryServerVersion ∉ calls (collect pk w p).
Proof.
  intros H. unfold collect. apply run_wp.
  wp_cycle (fun r => serverVersion (self r) = serverVersion p
                     /\ Invoked QueryServerVersion ∉ trace r).
  all: repeat match goal with H : _ /\ _ |- _ => destruct H end.
  all: try (exfalso; cbn in *; lia).
  all: (split; [cbn; congruence| absent]).
Qed.

Lemma version_stored pk w p ver :
  queryServerVersion (server w) = inr ver ->
  Invoked QueryServerVersion ∈ calls (collect pk w p) ->
  serverVersion (post (collect pk w p)) = ver.
Proof.
  intros Hq. unfold collect. apply run_wp.
  wp_cycle (fun r => Invoked QueryServerVersion ∈ trace r -> serverVersion (self r) = ver).
  all: try congruence.
  all: intros Hin; whereabouts Hin; cbn; auto; congruence.
Qed.

(** C7, as the code has it. The version statement is executed only in a
    cycle that starts with the cache at 0; a cache that is not 0 is neither
    queried again nor changed, over any number of cycles; a successful query
    stores the version it returned, and from then on that version is kept
    when it is not 0. *)
Theorem version_cached_once_nonzero (pk : Package) :
  (forall w p, Invoked QueryServerVersion ∈ calls (collect pk w p) -> serverVersion p = 0)
  /\ (forall w p, serverVersion p <> 0 ->
        serverVersion (post (collect pk w p)) = serverVersion p
        /\ Invoked QueryServerVersion ∉ calls (collect pk w p))
  /\ (forall ws p, serverVersion p <> 0 ->
        Forall (fun o => serverVersion (post o) = serverVersion p
                         /\ Invoked QueryServerVersion ∉ calls o)
               (cycles pk ws p))
  /\ (forall w p ver,
        Invoked QueryServerVersion ∈ calls (collect pk w p) ->
        queryServerVersion (server w) = inr ver ->
        serverVersion (post (collect pk w p)) = ver
        /\ (ver <> 0 -> forall ws,
              Forall (fun o => serverVersion (post o) = ver
                               /\ Invoked QueryServerVersion ∉ calls o)
                     (cycles pk ws (post (collect pk w p))))).
Proof.
  assert (Hmany : forall ws p, serverVersion p <> 0 ->
        Forall (fun o => serverVersion (post o) = serverVersion p
                         /\ Invoked QueryServerVersion ∉ calls o)
               (cycles pk ws p)).
  { induction ws as [|w ws IH]; intros p Hne; cbn [cycles]; constructor.
    - by apply version_kept.
    - destruct (version_kept pk w p Hne) as [Hv _].
      rewrite <- Hv. apply IH. by rewrite Hv. }
  split; [|split; [|split]].
  - intros w p Hin. destruct (decide (serverVersion p = 0)) as [|Hne]; [done|].
    by destruct (version_kept pk w p Hne).
  - intros w p. apply version_kept.
  - apply Hmany.
  - intros w p ver Hin Hq. pose proof (version_stored pk w p ver Hq Hin) as Hv.
    split; [done|]. intros Hne ws. rewrite <- Hv. apply Hmany. by rewrite Hv.
Qed.

Lemma version_cached_once_nonzero_witness :
  let pk := samplePackage None None in
  let up := sampleServer "140005" in
  let p := post (collect pk (cycleAt 100 up) newCollector) in
  serverVersion p <> 0
  /\ serverVersion (post (collect pk (cycleAt 130 up) p)) = serverVersion p
  /\ (Invoked QueryServerVersion ∉ calls (collect pk (cycleAt 130 up) p)).
Proof.
  cbv zeta. split; [vm_compute; discriminate|].
  destruct (version_cached_once_nonzero (samplePackage None None)) as (_ & H & _).
  apply H. vm_compute. discriminate.
Defined.

(** C7 as stated fails for a server that reports version 0: the query
    succeeds, the cache still holds 0 and the next cycle queries again. *)
Lemma version_zero_is_queried_again :
  let pk := samplePackage None None in
  let o := collect pk (cycleAt 100 (sampleServer "0")) newCollector in
  queryServerVersion (sampleServer "0") = inr 0
  /\ failure o = None
  /\ serverVersion (post o) = 0
  /\ Invoked QueryServerVersion ∈ calls (collect pk (cycleAt 101 (sampleServer "0")) (post o)).
Proof.
  vm_compute. repeat split. repeat constructor.
Qed.

(** ** Refresh windows *)

Lemma gtb_true x y : (x >? y) = true -> x > y.
Proof. rewrite Z.gtb_ltb. intros ?%Z.ltb_lt. lia. Qed.

(** Close a leaf of a window lemma: the fetch was attempted and the window
    is marked, or it was not and the window is as before. *)
Ltac window_leaf :=
  repeat match goal with
         | H : _ /\ _ |- _ => destruct H
         | H : _ \/ _ |- _ => destruct H
         | H : (_ >? _) = true |- _ => apply gtb_true in H
         end;
  cbn [self trace recheckSettingsTime recheckSettingsEvery relistDatabaseTime
       relistDatabaseEvery relistStandbyTime relistStandbyEvery
       set_db set_serverVersion set_recheckSettingsTime set_relistDatabaseTime
       set_relistStandbyTime set_maxConnections set_databases set_standbyApps] in *;
  try (split; [congruence|]);
  first [ left; split; [present|split; [congruence|congruence]]
        | right; split; [absent|congruence]
        | left; split; [present|split; [reflexivity|congruence]] ].

Section Windows.

(** One cycle [collect pk w p], whatever the package, the world and the
    state it starts from. *)
Context (pk : Package) (w : World) (p : Postgres).

Lemma settings_window :
  let o := collect pk w p in
  ((Invoked QuerySettingsMaxConnections ∈ calls o)
   /\ recheckSettingsTime (post o) = now w
   /\ Sub (now w) (recheckSettingsTime p) > recheckSettingsEvery p)
  \/ ((Invoked QuerySettingsMaxConnections ∉ calls o)
      /\ recheckSettingsTime (post o) = recheckSettingsTime p).
Proof.
  cbv zeta. unfold collect. apply run_wp.
  wp_cycle (fun r =>
      recheckSettingsEvery (self r) = recheckSettingsEvery p
      /\ (((Invoked QuerySettingsMaxConnections ∈ trace r)
           /\ recheckSettingsTime (self r) = now w
           /\ Sub (now w) (recheckSettingsTime p) > recheckSettingsEvery p)
          \/ ((Invoked QuerySettingsMaxConnections ∉ trace r)
              /\ recheckSettingsTime (self r) = recheckSettingsTime p))).
  all: window_leaf.
Qed.

Lemma database_window :
  let o := collect pk w p in
  ((Invoked QueryDatabaseList ∈ calls o)
   /\ relistDatabaseTime (post o) = now w
   /\ Sub (now w) (relistDatabaseTime p) > relistDatabaseEvery p)
  \/ ((Invoked QueryDatabaseList ∉ calls o)
      /\ relistDatabaseTime (post o) = relistDatabaseTime p).
Proof.
  cbv zeta. unfold collect. apply run_wp.
  wp_cycle (fun r =>
      relistDatabaseEvery (self r) = relistDatabaseEvery p
      /\ (((Invoked QueryDatabaseList ∈ trace r)
           /\ relistDatabaseTime (self r) = now w
           /\ Sub (now w) (relistDatabaseTime p) > relistDatabaseEvery p)
          \/ ((Invoked QueryDatabaseList ∉ trace r)
              /\ relistDatabaseTime (self r) = relistDatabaseTime p))).
  all: window_leaf.
Qed.

Lemma standby_window :
  let o := collect pk w p in
  ((Invoked QueryStandbyAppList ∈ calls o)
   /\ relistStandbyTime (post o) = now w
   /\ Sub (now w) (relistStandbyTime p) > relistStandbyEvery p)
  \/ ((Invoked QueryStandbyAppList ∉ calls o)
      /\ relistStandbyTime (post o) = relistStandbyTime p).
Proof.
  cbv zeta. unfold collect. apply run_wp.
  wp_cycle (fun r =>
      relistStandbyEvery (self r) = relistStandbyEvery p
      /\ (((Invoked QueryStandbyAppList ∈ trace r)
           /\ relistStandbyTime (self r) = now w
           /\ Sub (now w) (relistStandbyTime p) > relistStandbyEvery p)
          \/ ((Invoked QueryStandbyAppList ∉ trace r)
              /\ relistStandbyTime (self r) = relistStandbyTime p))).
  all: window_leaf.
Qed.

(** Close a leaf of a failure lemma: the call is not in the trace, or the
    cycle has just returned its error. *)
Ltac failure_leaf :=
  first [ solve [absent]
        | congruence
        | intros _; split; [congruence|reflexivity]
        | let H := fresh in
          intros H; exfalso; revert H; change (?x ∈ ?l -> False) with (x ∉ l);
          solve [absent] ].

Lemma settings_failure e :
  querySettingsMaxConnections (server w) = inl e ->
  let o := collect pk w p in
  Invoked QuerySettingsMaxConnections ∈ calls o ->
  failure o = Some (Errorf "querying settings max connections error" e)
  /\ snapshot o = None.
Proof.
  intros Hq. cbv zeta. unfold collect. apply run_wp.
  wp_cycle (fun r => Invoked QuerySettingsMaxConnections ∉ trace r).
  all: failure_leaf.
Qed.

Lemma database_failure e :
  queryDatabaseList pk (server w) = inl e ->
  let o := collect pk w p in
  Invoked QueryDatabaseList ∈ calls o ->
  failure o = Some (Errorf "querying database list error" e) /\ snapshot o = None.
Proof.
  intros Hq. cbv zeta. unfold collect. apply run_wp.
  wp_cycle (fun r => Invoked QueryDatabaseList ∉ trace r).
  all: failure_leaf.
Qed.

Lemma standby_failure e :
  queryStandbyAppList (server w) = inl e ->
  let o := collect pk w p in
  Invoked QueryStandbyAppList ∈ calls o ->
  failure o = Some (Errorf "querying standby app list error" e) /\ snapshot o = None.
Proof.
  intros Hq. cbv zeta. unfold collect. apply run_wp.
  wp_cycle (fun r => Invoked QueryStandbyAppList ∉ trace r).
  all: failure_leaf.
Qed.

(** C1, as the code has it. Each of the three refresh windows (settings,
    database list, standby list) is marked with the current time as soon as
    it is found stale, before its fetch is attempted: in a cycle that
    attempts the fetch the window's last-run time is the current time,
    whether the fetch succeeds or fails, and in a cycle that does not it is
    unchanged. A failed fetch ends the cycle with the wrapped error and a
    nil snapshot, the window already marked. *)
Theorem refresh_marked_before_fetch :
  let o := collect pk w p in
  (* settings *)
  ((Invoked QuerySettingsMaxConnections ∈ calls o ->
      recheckSettingsTime (post o) = now w
      /\ Sub (now w) (recheckSettingsTime p) > recheckSettingsEvery p)
   /\ (Invoked QuerySettingsMaxConnections ∉ calls o ->
         recheckSettingsTime (post o) = recheckSettingsTime p)
   /\ (forall e, querySettingsMaxConnections (server w) = inl e ->
         Invoked QuerySettingsMaxConnections ∈ calls o ->
         failure o = Some (Errorf "querying settings max connections error" e)
         /\ snapshot o = None /\ recheckSettingsTime (post o) = now w))
  (* database list *)
  /\ ((Invoked QueryDatabaseList ∈ calls o ->
         relistDatabaseTime (post o) = now w
         /\ Sub (now w) (relistDatabaseTime p) > relistDatabaseEvery p)
      /\ (Invoked QueryDatabaseList ∉ calls o ->
            relistDatabaseTime (post o) = relistDatabaseTime p)
      /\ (forall e, queryDatabaseList pk (server w) = inl e ->
            Invoked QueryDatabaseList ∈ calls o ->
            failure o = Some (Errorf "querying database list error" e)
            /\ snapshot o = None /\ relistDatabaseTime (post o) = now w))
  (* standby list *)
  /\ ((Invoked QueryStandbyAppList ∈ calls o ->
         relistStandbyTime (post o) = now w
         /\ Sub (now w) (relistStandbyTime p) > relistStandbyEvery p)
      /\ (Invoked QueryStandbyAppList ∉ calls o ->
            relistStandbyTime (post o) = relistStandbyTime p)
      /\ (forall e, queryStandbyAppList (server w) = inl e ->
            Invoked QueryStandbyAppList ∈ calls o ->
            failure o = Some (Errorf "querying standby app list error" e)
            /\ snapshot o = None /\ relistStandbyTime (post o) = now w)).
Proof.
  cbv zeta.
  pose proof settings_window as Hs. pose proof database_window as Hd.
  pose proof standby_window as Ha. cbv zeta in Hs, Hd, Ha.
  split; [|split]; (split; [|split]).
  - tauto.
  - tauto.
  - intros e Hq Hin. destruct (settings_failure e Hq Hin). tauto.
  - tauto.
  - tauto.
  - intros e Hq Hin. destruct (database_failure e Hq Hin). tauto.
  - tauto.
  - tauto.
  - intros e Hq Hin. destruct (standby_failure e Hq Hin). tauto.
Qed.

End Windows.

Lemma refresh_marked_before_fetch_witness :
  let pk := samplePackage None None in
  let w := cycleAt 100 (refusing qSettingsMaxConnections "timeout" (sampleServer "140005")) in
  let o := collect pk w newCollector in
  (Invoked QuerySettingsMaxConnections ∈ calls o)
  /\ querySettingsMaxConnections (server w) = inl "timeout"
  /\ failure o = Some (Errorf "querying settings max connections error" "timeout")
  /\ snapshot o = None
  /\ recheckSettingsTime (post o) = now w.
Proof.
  cbv zeta.
  assert (Hin : Invoked QuerySettingsMaxConnections
                  ∈ calls (collect (samplePackage None None)
                             (cycleAt 100 (refusing qSettingsMaxConnections "timeout"
                                             (sampleServer "140005")))
                             newCollector)).
  { vm_compute. repeat constructor. }
  split; [exact Hin|]. split; [reflexivity|].
  destruct (refresh_marked_before_fetch (samplePackage None None)
              (cycleAt 100 (refusing qSettingsMaxConnections "timeout"
                              (sampleServer "140005")))
              newCollector) as [(_ & _ & Hf) _].
  exact (Hf "timeout" eq_refl Hin).
Defined.

(** C1 as stated fails: the settings fetch fails at time 100, the window's
    last-run time moves from 0 to 100 all the same, and the cycle at time
    130, within the interval of 60, does not fetch again. *)
Lemma failed_refresh_moves_lastRun :
  let pk := samplePackage None None in
  let down := refusing qSettingsMaxConnections "timeout" (sampleServer "140005") in
  let o := collect pk (cycleAt 100 down) newCollector in
  failure o = Some "querying settings max connections error: timeout"
  /\ recheckSettingsTime newCollector = 0
  /\ recheckSettingsTime (post o) = 100
  /\ Invoked QuerySettingsMaxConnections
       ∉ calls (collect pk (cycleAt 130 (sampleServer "140005")) (post o)).
Proof.
  vm_compute. repeat split.
  intros H. repeat (apply elem_of_cons in H as [[=]|H]). by apply elem_of_nil in H.
Qed.

(** ** Gates of the entity-dependent collectors *)

Lemma ltb_length_nonempty {A} (l : list A) : (0 <? length l)%nat = true -> l <> [].
Proof. by destruct l. Qed.

Lemma geb_true x y : (x >=? y) = true -> x >= y.
Proof. rewrite Z.geb_leb. intros ?%Z.leb_le. lia. Qed.

Ltac gate_leaf :=
  repeat match goal with H : _ /\ _ |- _ => destruct H end;
  (split; [|split; [|split; [|split]]]);
  (let H := fresh in
   intros H; whereabouts H; try contradiction;
   repeat split; first [by apply ltb_length_nonempty | by apply geb_true]).

Lemma entity_gates pk w p :
  let o := collect pk w p in
  (Invoked CollectReplicationStandbyAppWALDelta ∈ calls o -> standbyApps (post o) <> [])
  /\ (Invoked CollectReplicationStandbyAppWALLag ∈ calls o ->
        standbyApps (post o) <> [] /\ serverVersion (post o) >= 100000)
  /\ (Invoked CollectDatabaseStats ∈ calls o -> databases (post o) <> [])
  /\ (Invoked CollectDatabaseConflicts ∈ calls o -> databases (post o) <> [])
  /\ (Invoked CollectDatabaseLocks ∈ calls o -> databases (post o) <> []).
Proof.
  cbv zeta. unfold collect. apply run_wp.
  wp_cycle (fun r =>
      (Invoked CollectReplicationStandbyAppWALDelta ∉ trace r)
      /\ (Invoked CollectReplicationStandbyAppWALLag ∉ trace r)
      /\ (Invoked CollectDatabaseStats ∉ trace r)
      /\ (Invoked CollectDatabaseConflicts ∉ trace r)
      /\ (Invoked CollectDatabaseLocks ∉ trace r)).
  all: try (repeat match goal with H : _ /\ _ |- _ => destruct H end;
            (split; [|split; [|split; [|split]]]); solve [absent]).
  all: gate_leaf.
Qed.

Ltac other_error :=
  let H := fresh in
  intros _ ? H; first [discriminate H | unfold Errorf in H; simpl in H; discriminate H].

Lemma lag_error_needs_version pk w p :
  let o := collect pk w p in
  serverVersion (post o) < 100000 ->
  forall e, failure o
            <> Some (Errorf "querying replication standby app wal lag error" e).
Proof.
  cbv zeta. unfold collect. apply run_wp.
  wp_cycle (fun r : Run => True).
  all: try exact I.
  all: try other_error.
  all: intros Hlt; match goal with H : (_ >=? _) = true |- _ => apply geb_true in H end; lia.
Qed.

(** A 9.6 server with standby applications: the delta collector runs, the
    lag collector does not, and the cycle ends without an error. *)
Example old_server_skips_lag :
  let o := collect (samplePackage None None) (cycleAt 100 (sampleServer "90600")) newCollector in
  serverVersion (post o) = 90600
  /\ standbyApps (post o) = ["replica1"; "replica2"]
  /\ failure o = None
  /\ (Invoked CollectReplicationStandbyAppWALDelta ∈ calls o)
  /\ (Invoked CollectReplicationStandbyAppWALLag ∉ calls o)
  /\ (Invoked CollectDatabaseLocks ∈ calls o).
Proof.
  vm_compute. repeat split; try (repeat constructor).
  intros H. repeat (apply elem_of_cons in H as [[=]|H]). by apply elem_of_nil in H.
Qed.

(** ** Partial snapshots *)

Lemma snapshot_nil_before_metrics pk w p :
  let o := collect pk w p in
  ((Invoked CollectConnection ∈ calls o) /\ is_Some (snapshot o))
  \/ ((Invoked CollectConnection ∉ calls o) /\ snapshot o = None /\ is_Some (failure o)).
Proof.
  cbv zeta. unfold collect. apply run_wp.
  wp_cycle (fun r => Invoked CollectConnection ∉ trace r).
  all: first [ solve [absent]
             | right; split; [solve [absent]|split; [reflexivity|by eexists]]
             | left; split; [solve [present]|by eexists] ].
Qed.

(** The collectors of this file never delete a key. *)
Lemma assignColumn_keeps rows mx key :
  is_Some (mx !! key) ->
  is_Some (fst (collectRows rows (Some assignColumn) mx) !! key).
Proof.
  intros H.
  apply (collectRows_inv (fun mx : Mx => is_Some (mx !! key)) assignColumn rows); [|done].
  intros cols cells c cell st _ _ _ Hst. unfold assignColumn.
  rewrite lookup_insert. by case_decide.
Qed.

Lemma collectTXIDWraparound_keeps d mx key :
  is_Some (mx !! key) -> is_Some (fst (collectTXIDWraparound d mx) !! key).
Proof.
  intros H. unfold collectTXIDWraparound. destruct (QueryContext _ _); [done|].
  by apply assignColumn_keeps.
Qed.

Lemma collectWALWrites_keeps p d mx key :
  is_Some (mx !! key) -> is_Some (fst (collectWALWrites p d mx) !! key).
Proof.
  intros H. unfold collectWALWrites. destruct (QueryRowInt64 _ _); [done|].
  cbn [fst]. rewrite lookup_insert. by case_decide.
Qed.

Lemma collectWALFiles_keeps p d mx key :
  is_Some (mx !! key) -> is_Some (fst (collectWALFiles p d mx) !! key).
Proof.
  intros H. unfold collectWALFiles. destruct (QueryContext _ _); [done|].
  by apply assignColumn_keeps.
Qed.

Lemma collectUptime_key pk d mx mx' :
  collectUptime pk d mx = (mx', None) -> is_Some (mx' !! "server_uptime").
Proof.
  unfold collectUptime. destruct (QueryRowString _ _); [done|].
  intros [= <-]. rewrite lookup_insert_eq. by eexists.
Qed.

Lemma last_snoc_eq {A} (l : list A) x y : last (l ++ [x]) = Some y -> x = y.
Proof. rewrite last_snoc. by intros [= ->]. Qed.

Lemma wal_files_failure_keeps_earlier_keys pk w p :
  let o := collect pk w p in
  last (calls o) = Some (Invoked CollectWALFiles) -> failure o <> None ->
  exists mx1 mx2 mx3 mx e,
    collectConnection pk (post o) (server w) ∅ = (mx1, None)
    /\ collectCheckpoints pk (post o) (server w) mx1 = (mx2, None)
    /\ collectUptime pk (server w) mx2 = (mx3, None)
    /\ snapshot o = Some mx
    /\ failure o = Some (Errorf "querying wal files error" e)
    /\ (forall key, is_Some (mx3 !! key) -> is_Some (mx !! key))
    /\ is_Some (mx !! "server_uptime").
Proof.
  cbv zeta. unfold collect. apply run_wp.
  wp_cycle (fun r : Run => True).
  all: try exact I.
  all: try (intros Hl; apply last_snoc_eq in Hl; discriminate Hl).
  all: try (intros _ Hf; by destruct Hf).
  intros _ _.
  repeat match goal with
         | H : ?f = (?m, _) |- _ =>
             lazymatch f with
             | collectTXIDWraparound _ _ => idtac
             | collectWALWrites _ _ _ => idtac
             | collectWALFiles _ _ _ => idtac
             end;
             apply (f_equal fst) in H; cbn [fst] in H
         end.
  do 5 eexists. repeat (split; [eassumption || reflexivity|]).
  assert (Hkeep : forall key, is_Some (mx'1 !! key) -> is_Some (mx'4 !! key)).
  { intros key Hk. subst mx'4 mx'3 mx'2.
    by apply collectWALFiles_keeps, collectWALWrites_keeps, collectTXIDWraparound_keeps. }
  split; [done|]. eapply Hkeep, collectUptime_key. eassumption.
Qed.

(** The WAL-file statement fails in a cycle at time 130 that follows a
    complete cycle at time 100: the keys written before it are returned. *)
Example wal_files_failure_sample :
  let pk := samplePackage None None in
  let up := sampleServer "140005" in
  let o := collect pk (cycleAt 130 (refusing (qWALFiles 140005) "timeout" up))
             (post (collect pk (cycleAt 100 up) newCollector)) in
  failure o = Some "querying wal files error: timeout"
  /\ (map_to_list <$> snapshot o)
     = Some [("oldest_current_xid", 123); ("wal_writes", 7);
             ("server_connections_used", 1); ("server_uptime", 3600);
             ("checkpoints_timed", 1); ("percent_towards_wraparound", 0)].
Proof. vm_compute. split; reflexivity. Qed.

(** ** Error wrappers *)

(** C3. A metric collector that fails ends the cycle with the snapshot
    filled so far and an error that should name the failed stage. The
    snapshot part holds (see [wal_files_failure_keeps_earlier_keys]); the
    wrapper of the checkpoints stage does not name it: a failure of the
    checkpoints collector is reported word for word as a failure of the
    database-conflicts collector is. *)
Lemma checkpoints_failure_mislabelled :
  let down := Some "timeout" in
  let w := cycleAt 100 (sampleServer "140005") in
  let o1 := collect (samplePackage down None) w newCollector in
  let o2 := collect (samplePackage None down) w newCollector in
  last (calls o1) = Some (Invoked CollectCheckpoints)
  /\ last (calls o2) = Some (Invoked CollectDatabaseConflicts)
  /\ failure o1 = Some "querying database conflicts error: timeout"
  /\ failure o2 = Some "querying database conflicts error: timeout"
  /\ (map_to_list <$> snapshot o1) = Some [("server_connections_used", 1)].
Proof. vm_compute. repeat split. Qed.

(** ** Decimal text: what [ParseInt] makes of it *)

Lemma isDigit_range c : isDigit c = true -> 0 <= byteVal c - 48 <= 9.
Proof. unfold isDigit. intros [? ?]%andb_true_iff. lia. Qed.

Lemma isDigit_digit10 c : isDigit c = true -> digit10 c = Some (byteVal c - 48).
Proof. unfold digit10, isDigit. cbv zeta. by intros ->. Qed.

Lemma digitsValue_ge s : forall n, 0 <= n -> allDigits s = true -> n <= digitsValue s n.
Proof.
  induction s as [|c s IH]; intros n Hn; simpl; [lia|].
  intros [Hc Hs]%andb_true_iff. apply isDigit_range in Hc.
  etransitivity; [|apply IH; [lia|done]]. lia.
Qed.

(** The loop of [ParseUint] on a run of digits: the number spelled, or
    the range error as soon as it passes [maxUint64]. *)
Lemma parseUintLoop_value s : forall n,
  0 <= n <= maxUint64 -> allDigits s = true ->
  parseUintLoop s n
  = if digitsValue s n <=? maxUint64 then (digitsValue s n, None)
    else (maxUint64, Some ErrRange).
Proof.
  assert (HmaxU : maxUint64 = 18446744073709551615) by reflexivity.
  assert (Hcut : cutoffU10 = 1844674407370955162) by reflexivity.
  assert (H64 : 2 ^ 64 = 18446744073709551616) by reflexivity.
  induction s as [|c s IH]; intros n Hn; simpl.
  - intros _. destruct (n <=? maxUint64) eqn:E; [done|]. apply Z.leb_gt in E. lia.
  - intros [Hc Hs]%andb_true_iff. rewrite (isDigit_digit10 _ Hc).
    apply isDigit_range in Hc. set (d := byteVal c - 48) in *.
    destruct (n >=? cutoffU10) eqn:Ec.
    + rewrite Z.geb_leb in Ec. apply Z.leb_le in Ec.
      assert (Hbig : n * 10 + d <= digitsValue s (n * 10 + d))
        by (apply digitsValue_ge; [lia|done]).
      destruct (digitsValue s (n * 10 + d) <=? maxUint64) eqn:E; [|done].
      apply Z.leb_le in E. lia.
    + rewrite Z.geb_leb in Ec. apply Z.leb_gt in Ec. cbv zeta. unfold wrapU64.
      rewrite (Z.mod_small (n * 10)) by lia.
      destruct (decide (n * 10 + d <= maxUint64)) as [Hfit|Hover].
      * rewrite (Z.mod_small (n * 10 + d)) by lia.
        destruct ((n * 10 + d <? n * 10) || (n * 10 + d >? maxUint64)) eqn:Eo.
        { apply orb_true_iff in Eo as [Eo|Eo]; [lia|]. rewrite Z.gtb_ltb in Eo. lia. }
        apply IH; [lia|done].
      * assert (Hw : (n * 10 + d) mod 2 ^ 64 = n * 10 + d - 2 ^ 64).
        { symmetry. apply Z.mod_unique_pos with (q := 1); lia. }
        rewrite Hw.
        destruct ((n * 10 + d - 2 ^ 64 <? n * 10) || _) eqn:Eo.
        2:{ apply orb_false_iff in Eo as [Eo _]. lia. }
        assert (Hbig : n * 10 + d <= digitsValue s (n * 10 + d))
          by (apply digitsValue_ge; [lia|done]).
        destruct (digitsValue s (n * 10 + d) <=? maxUint64) eqn:E; [|done].
        apply Z.leb_le in E. lia.
Qed.

Lemma parseUintLoop_ok_digits s : forall n v,
  parseUintLoop s n = (v, None) -> allDigits s = true.
Proof.
  induction s as [|c s IH]; intros n v; simpl; [done|].
  destruct (digit10 c) as [d|] eqn:E; [|done].
  apply digit10_Some in E as [-> _].
  destruct (n >=? cutoffU10); [done|]. cbv zeta.
  destruct ((_ <? _) || _); [done|]. apply IH.
Qed.

Lemma parseUintLoop_range_value s : forall n v,
  parseUintLoop s n = (v, Some ErrRange) -> v = maxUint64.
Proof.
  induction s as [|c s IH]; intros n v; simpl; [done|].
  destruct (digit10 c); [|done].
  destruct (n >=? cutoffU10); [congruence|]. cbv zeta.
  destruct ((_ <? _) || _); [congruence|]. apply IH.
Qed.

Lemma ParseUint_decimal body :
  body <> EmptyString -> allDigits body = true ->
  ParseUint body
  = if digitsValue body 0 <=? maxUint64 then (digitsValue body 0, None)
    else (maxUint64, Some ErrRange).
Proof.
  intros Hne Hd. unfold ParseUint. destruct body; [done|].
  apply parseUintLoop_value; [|done]. cbv. split; congruence.
Qed.

Lemma ParseUint_ok body v : ParseUint body = (v, None) ->
  body <> EmptyString /\ allDigits body = true.
Proof.
  unfold ParseUint. destruct body as [|c body]; [done|].
  intros H%parseUintLoop_ok_digits. done.
Qed.

Lemma ParseUint_range_value s v : ParseUint s = (v, Some ErrRange) -> v = maxUint64.
Proof. unfold ParseUint. destruct s; [done|]. apply parseUintLoop_range_value. Qed.

Lemma decimal_body s :
  decimal s = true -> unsignedPart s <> EmptyString /\ allDigits (unsignedPart s) = true.
Proof. unfold decimal. destruct (unsignedPart s); [done|]. done. Qed.

(** [ParseInt] in terms of the sign and the text after it. *)
Lemma ParseInt_unsigned s :
  ParseInt s
  = match s with
    | EmptyString => (0, Some ErrSyntax)
    | _ =>
      match ParseUint (unsignedPart s) with
      | (_, Some ErrSyntax) => (0, Some ErrSyntax)
      | (un, _) =>
          if negb (isNegative s) && (un >=? 2 ^ 63) then (2 ^ 63 - 1, Some ErrRange)
          else if isNegative s && (un >? 2 ^ 63) then (- 2 ^ 63, Some ErrRange)
          else (if isNegative s then wrap64 (- wrap64 un) else wrap64 un, None)
      end
    end.
Proof.
  unfold ParseInt, unsignedPart, isNegative. destruct s as [|c0 rest]; [done|].
  destruct (Ascii.eqb c0 "+") eqn:Ep.
  - apply Ascii.eqb_eq in Ep as ->. reflexivity.
  - destruct (Ascii.eqb c0 "-"); reflexivity.
Qed.

Lemma ParseInt_decimal s : decimal s = true ->
  ParseInt s = (clamp64 (decimalValue s),
                if fits64 (decimalValue s) then None else Some ErrRange).
Proof.
  intros Hd. pose proof (decimal_body s Hd) as [Hne Hall].
  pose proof (digitsValue_ge _ 0 (Z.le_refl 0) Hall) as H0.
  rewrite ParseInt_unsigned. destruct s as [|c0 rest]; [done|].
  rewrite (ParseUint_decimal _ Hne Hall).
  unfold decimalValue, clamp64, fits64, maxInt64, minInt64, maxUint64 in *.
  set (v := digitsValue (unsignedPart (String c0 rest)) 0) in *.
  set (neg := isNegative (String c0 rest)). clearbody v neg. clear -H0.
  assert (H63 : 2 ^ 63 = 9223372036854775808) by reflexivity.
  assert (H64 : 2 ^ 64 = 18446744073709551616) by reflexivity.
  rewrite H63, H64.
  assert (Hw : forall z, -9223372036854775808 <= z < 9223372036854775808 -> wrap64 z = z).
  { intros z Hz. unfold wrap64. rewrite H63, H64, Z.mod_small; lia. }
  destruct (v <=? _) eqn:Eu; [apply Z.leb_le in Eu|apply Z.leb_gt in Eu];
    destruct neg; cbn [negb andb].
  all: repeat match goal with
       | |- context [?a >=? ?b] => rewrite (Z.geb_leb a b)
       | |- context [?a >? ?b] => rewrite (Z.gtb_ltb a b)
       end.
  all: repeat match goal with
       | |- context [?a <=? ?b] => destruct (Z.leb_spec a b)
       | |- context [?a <? ?b] => destruct (Z.ltb_spec a b)
       end; cbn [andb]; try lia; try reflexivity.
  all: destruct (decide (v = 9223372036854775808)) as [->|Hv]; [first [lia | reflexivity]|].
  all: rewrite ?Hw by (rewrite ?Hw by lia; lia); reflexivity.
Qed.

Lemma ParseInt_ok_decimal s v : ParseInt s = (v, None) -> decimal s = true.
Proof.
  rewrite ParseInt_unsigned. destruct s as [|c0 rest]; [done|].
  destruct (ParseUint _) as [un [[]|]] eqn:E; [done| |].
  - apply ParseUint_range_value in E as ->. by destruct (isNegative _).
  - intros _. apply ParseUint_ok in E as [Hne Hall]. unfold decimal.
    destruct (unsignedPart _); done.
Qed.

Lemma fits64_spec z : fits64 z = true <-> inInt64 z.
Proof. unfold fits64, inInt64. rewrite andb_true_iff, !Z.leb_le. done. Qed.

Lemma clamp64_fits z : inInt64 z -> clamp64 z = z.
Proof.
  unfold inInt64, clamp64. intros H.
  rewrite Z.gtb_ltb. destruct (Z.ltb_spec maxInt64 z); [lia|].
  destruct (Z.ltb_spec z minInt64); [lia|done].
Qed.

(** [ParseInt] accepts exactly the decimal text whose value is an [int64],
    and returns that value. *)
Lemma ParseInt_accepts s v :
  ParseInt s = (v, None)
  <-> decimal s = true /\ inInt64 (decimalValue s) /\ v = decimalValue s.
Proof.
  split.
  - intros H. pose proof (ParseInt_ok_decimal _ _ H) as Hd.
    rewrite (ParseInt_decimal _ Hd) in H.
    destruct (fits64 (decimalValue s)) eqn:E; [|by inversion H].
    apply fits64_spec in E. rewrite clamp64_fits in H by done. by inversion H.
  - intros (Hd & Hr & ->). rewrite (ParseInt_decimal _ Hd), clamp64_fits by done.
    apply fits64_spec in Hr. by rewrite Hr.
Qed.

(** X1. On decimal text (an optional sign and at least one digit, of any
    length) [safeParseInt] returns the number the text spells, clamped to
    the range of [int64]: text beyond the range gives the nearest bound,
    not 0. *)
Theorem safeParseInt_decimal_clamped (s : string) (H : decimal s = true) :
  safeParseInt s = clamp64 (decimalValue s).
Proof. unfold safeParseInt. by rewrite ParseInt_decimal. Qed.

Lemma safeParseInt_decimal_clamped_witness :
  decimal "-9223372036854775809" = true
  /\ safeParseInt "-9223372036854775809" = clamp64 (decimalValue "-9223372036854775809").
Proof.
  split; [reflexivity|].
  apply (safeParseInt_decimal_clamped "-9223372036854775809"). reflexivity.
Defined.

Example safeParseInt_decimal_samples :
  safeParseInt "-42" = -42 /\ safeParseInt "+007" = 7
  /\ safeParseInt "-9223372036854775809" = minInt64
  /\ safeParseInt "99999999999999999999999" = maxInt64.
Proof. vm_compute. repeat split. Qed.

(** X2. On text that is not decimal [safeParseInt] returns 0, or one of
    the two bounds of [int64]: a bound when the text starts with so many
    digits that [ParseInt] reports the range error before it reaches the
    byte that is not a digit. *)
Theorem safeParseInt_other_text (s : string) (H : decimal s = false) :
  safeParseInt s = 0 \/ safeParseInt s = maxInt64 \/ safeParseInt s = minInt64.
Proof.
  unfold safeParseInt. destruct (ParseInt s) as [v [[]|]] eqn:E; cbn [fst].
  - left. by apply ParseInt_syntax in E.
  - right. revert E. rewrite ParseInt_unsigned. destruct s as [|c0 rest]; [done|].
    destruct (ParseUint _) as [un [[]|]]; [done| |];
      (destruct (negb _ && _); [intros [= <- ]; by left|]);
      (destruct (_ && _); [intros [= <- ]; by right|]); done.
  - apply ParseInt_ok_decimal in E. congruence.
Qed.

Lemma safeParseInt_other_text_witness :
  decimal "99999999999999999999x" = false
  /\ (safeParseInt "99999999999999999999x" = 0
      \/ safeParseInt "99999999999999999999x" = maxInt64
      \/ safeParseInt "99999999999999999999x" = minInt64).
Proof.
  split; [reflexivity|].
  apply (safeParseInt_other_text "99999999999999999999x"). reflexivity.
Defined.

Example safeParseInt_other_samples :
  safeParseInt "12 MB" = 0 /\ safeParseInt "1e3" = 0
  /\ safeParseInt "99999999999999999999x" = maxInt64.
Proof. vm_compute. repeat split. Qed.

(** X3. The two scalar queries are strict where [safeParseInt] is
    lenient: [querySettingsMaxConnections] and [queryServerVersion] return
    a value exactly when the statement returned decimal text whose value
    is an [int64], and then that value; any other text is an error. *)
Theorem scalar_queries_accept_decimal_in_range (d : DB) (v : Z) :
  (querySettingsMaxConnections d = inr v
   <-> exists s, QueryRowString d qSettingsMaxConnections = inr s
         /\ decimal s = true /\ inInt64 (decimalValue s) /\ v = decimalValue s)
  /\ (queryServerVersion d = inr v
      <-> exists s, QueryRowString d qServerVersion = inr s
            /\ decimal s = true /\ inInt64 (decimalValue s) /\ v = decimalValue s).
Proof.
  split.
  - unfold querySettingsMaxConnections.
    destruct (QueryRowString d qSettingsMaxConnections) as [err|s].
    { split; [done|]. by intros (s & [=] & _). }
    split.
    + destruct (ParseInt s) as [v' [e|]] eqn:E; [done|]. intros [= <-].
      exists s. split; [done|]. by apply ParseInt_accepts.
    + intros (s' & [= <-] & H). apply ParseInt_accepts in H. by rewrite H.
  - unfold queryServerVersion, Atoi.
    destruct (QueryRowString d qServerVersion) as [err|s].
    { split; [done|]. by intros (s & [=] & _). }
    split.
    + destruct (ParseInt s) as [v' [e|]] eqn:E; [done|]. intros [= <-].
      exists s. split; [done|]. by apply ParseInt_accepts.
    + intros (s' & [= <-] & H). apply ParseInt_accepts in H. by rewrite H.
Qed.

Example scalar_queries_samples :
  queryServerVersion (sampleServer "140005") = inr 140005
  /\ queryServerVersion (sampleServer "14.5") = inl (NumError_Error "Atoi" "14.5" ErrSyntax)
  /\ querySettingsMaxConnections (sampleServer "140005") = inr 100.
Proof. vm_compute. repeat split. Qed.

(** ** Text that is not decimal *)

Lemma leadingDigits_allDigits s : allDigits (leadingDigits s) = true.
Proof.
  induction s as [|c s IH]; simpl; [done|].
  destruct (isDigit c) eqn:E; simpl; [|done]. by rewrite E.
Qed.


Lemma not_isDigit_digit10 c : isDigit c = false -> digit10 c = None.
Proof.
  intros H. destruct (digit10 c) as [d|] eqn:E; [|done].
  apply digit10_Some in E as [E _]. congruence.
Qed.

(** The loop of [ParseUint] on text that holds a byte that is no digit:
    the syntax error, unless the digits before that byte have already
    passed [maxUint64]. *)
Lemma parseUintLoop_stops s : forall n,
  0 <= n <= maxUint64 -> allDigits s = false ->
  parseUintLoop s n
  = if digitsValue (leadingDigits s) n <=? maxUint64 then (0, Some ErrSyntax)
    else (maxUint64, Some ErrRange).
Proof.
  assert (HmaxU : maxUint64 = 18446744073709551615) by reflexivity.
  assert (Hcut : cutoffU10 = 1844674407370955162) by reflexivity.
  assert (H64 : 2 ^ 64 = 18446744073709551616) by reflexivity.
  induction s as [|c s IH]; intros n Hn; simpl; [done|].
  destruct (isDigit c) eqn:Hc; simpl.
  - intros Hs. rewrite (isDigit_digit10 _ Hc).
    apply isDigit_range in Hc. set (d := byteVal c - 48) in *.
    assert (Hbig : forall m, 0 <= m -> m <= digitsValue (leadingDigits s) m).
    { intros m Hm. apply digitsValue_ge; [done|apply leadingDigits_allDigits]. }
    destruct (n >=? cutoffU10) eqn:Ec.
    + rewrite Z.geb_leb in Ec. apply Z.leb_le in Ec.
      pose proof (Hbig (n * 10 + d) ltac:(lia)).
      destruct (_ <=? maxUint64) eqn:E; [|done]. apply Z.leb_le in E. lia.
    + rewrite Z.geb_leb in Ec. apply Z.leb_gt in Ec. cbv zeta. unfold wrapU64.
      rewrite (Z.mod_small (n * 10)) by lia.
      destruct (decide (n * 10 + d <= maxUint64)) as [Hfit|Hover].
      * rewrite (Z.mod_small (n * 10 + d)) by lia.
        destruct ((n * 10 + d <? n * 10) || (n * 10 + d >? maxUint64)) eqn:Eo.
        { apply orb_true_iff in Eo as [Eo|Eo]; [lia|]. rewrite Z.gtb_ltb in Eo. lia. }
        apply IH; [lia|done].
      * assert (Hw : (n * 10 + d) mod 2 ^ 64 = n * 10 + d - 2 ^ 64).
        { symmetry. apply Z.mod_unique_pos with (q := 1); lia. }
        rewrite Hw.
        destruct ((n * 10 + d - 2 ^ 64 <? n * 10) || _) eqn:Eo.
        2:{ apply orb_false_iff in Eo as [Eo _]. lia. }
        pose proof (Hbig (n * 10 + d) ltac:(lia)).
        destruct (_ <=? maxUint64) eqn:E; [|done]. apply Z.leb_le in E. lia.
  - intros _. rewrite (not_isDigit_digit10 _ Hc).
    destruct (n <=? maxUint64) eqn:E; [done|]. apply Z.leb_gt in E. lia.
Qed.

Lemma decimal_false_body s :
  decimal s = false -> unsignedPart s = EmptyString \/ allDigits (unsignedPart s) = false.
Proof. unfold decimal. destruct (unsignedPart s); [by left|by right]. Qed.

(** [ParseInt] on text that is not decimal. *)
Lemma ParseInt_not_decimal s : decimal s = false ->
  ParseInt s
  = if digitsValue (leadingDigits (unsignedPart s)) 0 <=? maxUint64
    then (0, Some ErrSyntax)
    else (if isNegative s then minInt64 else maxInt64, Some ErrRange).
Proof.
  intros Hd. rewrite ParseInt_unsigned. destruct s as [|c0 rest]; [done|].
  destruct (decimal_false_body _ Hd) as [He|Hall].
  - rewrite He. reflexivity.
  - unfold ParseUint. destruct (unsignedPart (String c0 rest)) as [|c body] eqn:Eu; [done|].
    rewrite parseUintLoop_stops; [|cbv; split; congruence|done].
    destruct (_ <=? maxUint64); [done|].
    by destruct (isNegative (String c0 rest)).
Qed.



Lemma not_decimal_malformed s :
  decimal s = false -> digitsValue (leadingDigits (unsignedPart s)) 0 <= maxUint64 ->
  malformed s.
Proof.
  intros Hd Hl. unfold malformed. rewrite (ParseInt_not_decimal _ Hd).
  apply Z.leb_le in Hl. by rewrite Hl.
Qed.




(** ** A row that [rows.Scan] refuses *)

Lemma collectRowsLoop_app {S} (f : string -> string -> S -> S) cols cellrows pending :
  wellShaped cols cellrows -> forall values st, length values = length cols ->
  exists values',
    length values' = length cols
    /\ collectRowsLoop f cols values ((inr <$> cellrows) ++ pending) st
       = collectRowsLoop f cols values' pending (foldPairs f (feed cols cellrows) st).
Proof.
  induction 1 as [|cells cellrows Hc _ IH]; intros values st Hv; simpl.
  - by exists values.
  - rewrite Hc, Hv, Nat.eqb_refl.
    destruct (IH (scanCell <$> cells) (assignRow f cols (scanCell <$> cells) st))
      as (values' & Hv' & Heq); [by rewrite length_fmap|].
    exists values'. split; [done|].
    etransitivity; [exact Heq|].
    unfold feed. simpl. by rewrite foldPairs_app, assignRow_scan.
Qed.

Lemma collectRows_scanFailingTable {S} (f : string -> string -> S -> S) cols cellrows err rest st :
  wellShaped cols cellrows ->
  collectRows (scanFailingTable cols cellrows err rest) (Some f) st
  = (foldPairs f (feed cols cellrows) st, Some err).
Proof.
  intros H. unfold collectRows, scanFailingTable. cbn [Columns records].
  destruct (collectRowsLoop_app f cols cellrows (inl err :: rest) H
              (makeNullStrings (length cols)) st) as (values' & _ & Heq).
  { unfold makeNullStrings. by rewrite length_replicate. }
  etransitivity; [exact Heq|]. reflexivity.
Qed.

(** X4. When [rows.Scan] returns an error on a row, [collectRows] stops
    there: the rows before it have gone through the callback, the rows
    after it are never read, and the error of [Scan] is returned as it
    is. The collectors therefore keep, in the snapshot, what the earlier
    rows wrote, while [queryStandbyAppList] drops the names it had
    gathered and returns the error alone. (A failure of the driver
    between rows is another matter: it ends [rows.Next()], and
    [collectRows], which never reads [rows.Err()], returns nil.) *)
Theorem row_failure_stops_the_scan (cols : list string)
    (cellrows : list (list (option string))) (err : error) (rest : list RowResult)
    (H : wellShaped cols cellrows) :
  let rows := scanFailingTable cols cellrows err rest in
  (forall (S : Type) (assign : string -> string -> S -> S) (st : S),
     collectRows rows (Some assign) st = (foldPairs assign (feed cols cellrows) st, Some err))
  /\ (forall d, QueryContext d qReplicationStandbyAppList = inr rows ->
        queryStandbyAppList d = inl err)
  /\ (forall d mx, QueryContext d qTXIDWraparound = inr rows ->
        collectTXIDWraparound d mx
        = (foldPairs assignColumn (feed cols cellrows) mx, Some err))
  /\ (forall d mx, QueryContext d qCatalogRelations = inr rows ->
        collectCatalog d mx
        = (fst (foldPairs assignCatalog (feed cols cellrows)
                  (fold_left seedRelkind relkinds mx, "")), Some err))
  /\ (forall p d mx,
        QueryContext d (qReplicationStandbyAppDelta (serverVersion p)) = inr rows ->
        collectReplicationStandbyAppWALDelta p d mx
        = (fst (foldPairs assignStandbyWAL (feed cols cellrows) (mx, "")), Some err)).
Proof.
  cbv zeta. split; [|split; [|split; [|split]]].
  - intros S assign st. by apply collectRows_scanFailingTable.
  - intros d Hq. unfold queryStandbyAppList. rewrite Hq, collectRows_scanFailingTable by done.
    by destruct (foldPairs _ _ _).
  - intros d mx Hq. unfold collectTXIDWraparound. by rewrite Hq, collectRows_scanFailingTable.
  - intros d mx Hq. unfold collectCatalog. rewrite Hq. cbv zeta.
    rewrite collectRows_scanFailingTable by done. by destruct (foldPairs _ _ _).
  - intros p d mx Hq. unfold collectReplicationStandbyAppWALDelta.
    rewrite Hq, collectRows_scanFailingTable by done. by destruct (foldPairs _ _ _).
Qed.

Lemma row_failure_stops_the_scan_witness :
  wellShaped ["application_name"] [[Some "replica1"]]
  /\ queryStandbyAppList
       (answering qReplicationStandbyAppList
          (scanFailingTable ["application_name"] [[Some "replica1"]] "sql: Scan error on column index 0"
             [inr [Some "replica2"]])
          (sampleServer "140005"))
     = inl "sql: Scan error on column index 0".
Proof.
  assert (Hw : wellShaped ["application_name"] [[Some "replica1"]]) by repeat constructor.
  split; [exact Hw|].
  destruct (row_failure_stops_the_scan ["application_name"] [[Some "replica1"]]
              "sql: Scan error on column index 0" [inr [Some "replica2"]] Hw) as (_ & Hq & _).
  apply Hq. reflexivity.
Defined.

(** ** The keys a collector writes *)

Lemma elem_of_zip_fst {A B} (a : A) (b : B) l k : (a, b) ∈ zip l k -> a ∈ l.
Proof.
  revert k. induction l as [|x l IH]; intros [|y k]; simpl; try by intros ?%elem_of_nil.
  intros [[= -> ->]|H]%elem_of_cons; [left|right; by eapply IH].
Qed.

Lemma assignColumn_frame rows key (mx : Mx) :
  ~ namesColumn rows key ->
  fst (collectRows rows (Some assignColumn) mx) !! key = mx !! key.
Proof.
  intros Hk.
  apply (collectRows_inv (fun st : Mx => st !! key = mx !! key) assignColumn rows); [|done].
  intros cols cells c cell st Hc _ Hin Hst. unfold assignColumn.
  apply elem_of_zip_fst in Hin.
  rewrite lookup_insert_ne; [done|]. intros ->. apply Hk. by exists cols.
Qed.

Lemma assignCatalog_frame rows key (mx : Mx) kind :
  String.prefix "catalog_relkind_" key = false ->
  fst (fst (collectRows rows (Some assignCatalog) (mx, kind))) !! key = mx !! key.
Proof.
  intros Hk.
  apply (collectRows_inv (fun st : Mx * string => fst st !! key = mx !! key)
           assignCatalog rows); [|done].
  intros cols cells c cell [st k] _ _ _ Hst. unfold assignCatalog.
  destruct (String.eqb c "relkind"); [done|]. cbn [fst] in *.
  rewrite lookup_insert_ne; [done|]. intros <-. simpl in Hk.
  revert Hk. by generalize ("" +:+ k +:+ "_" +:+ c); intros [|].
Qed.

Lemma assignStandbyWAL_frame rows key (mx : Mx) app :
  String.prefix "repl_standby_app_" key = false ->
  fst (fst (collectRows rows (Some assignStandbyWAL) (mx, app))) !! key = mx !! key.
Proof.
  intros Hk.
  apply (collectRows_inv (fun st : Mx * string => fst st !! key = mx !! key)
           assignStandbyWAL rows); [|done].
  intros cols cells c cell [st k] _ _ _ Hst. unfold assignStandbyWAL.
  destruct (String.eqb c "application_name"); [done|]. cbn [fst] in *.
  rewrite lookup_insert_ne; [done|]. intros <-. simpl in Hk.
  revert Hk. by generalize ("" +:+ k +:+ "_wal_" +:+ c); intros [|].
Qed.

Lemma fold_seedRelkind_frame l : forall (mx : Mx) key,
  String.prefix "catalog_relkind_" key = false ->
  fold_left seedRelkind l mx !! key = mx !! key.
Proof.
  induction l as [|v l IH]; intros mx key Hk; simpl; [done|].
  rewrite IH by done. unfold seedRelkind.
  rewrite !lookup_insert_ne; [done| |]; intros <-; simpl in Hk; revert Hk.
  - by generalize ("" +:+ v +:+ "_count"); intros [|].
  - by generalize ("" +:+ v +:+ "_size"); intros [|].
Qed.

(** X5. Each collector of this file writes keys of its own only: the two
    scalar collectors their one key, the four column collectors the column
    names of their result set, the catalog and the two replication
    collectors keys under their prefix. Every other key of the snapshot
    keeps its value (or its absence), whether the collector succeeds or
    fails. *)
Theorem collectors_write_only_their_keys (pk : Package) (p : Postgres) (d : DB)
    (mx : Mx) (key : string) :
  (key <> "server_uptime" -> fst (collectUptime pk d mx) !! key = mx !! key)
  /\ (key <> "wal_writes" -> fst (collectWALWrites p d mx) !! key = mx !! key)
  /\ ((forall rows, QueryContext d qTXIDWraparound = inr rows -> ~ namesColumn rows key) ->
        fst (collectTXIDWraparound d mx) !! key = mx !! key)
  /\ ((forall rows, QueryContext d (qWALFiles (serverVersion p)) = inr rows ->
         ~ namesColumn rows key) ->
        fst (collectWALFiles p d mx) !! key = mx !! key)
  /\ ((forall rows, QueryContext d (qWALArchiveFiles (serverVersion p)) = inr rows ->
         ~ namesColumn rows key) ->
        fst (collectWALArchiveFiles p d mx) !! key = mx !! key)
  /\ ((forall rows, QueryContext d qAutovacuumWorkers = inr rows -> ~ namesColumn rows key) ->
        fst (collectAutovacuumWorkers d mx) !! key = mx !! key)
  /\ (String.prefix "catalog_relkind_" key = false ->
        fst (collectCatalog d mx) !! key = mx !! key)
  /\ (String.prefix "repl_standby_app_" key = false ->
        fst (collectReplicationStandbyAppWALDelta p d mx) !! key = mx !! key
        /\ fst (collectReplicationStandbyAppWALLag d mx) !! key = mx !! key).
Proof.
  repeat apply conj.
  - intros Hk. unfold collectUptime. destruct (QueryRowString _ _); [done|].
    cbn [fst]. by rewrite lookup_insert_ne.
  - intros Hk. unfold collectWALWrites. destruct (QueryRowInt64 _ _); [done|].
    cbn [fst]. by rewrite lookup_insert_ne.
  - intros Hk. unfold collectTXIDWraparound.
    destruct (QueryContext _ _) as [e|rows]; [done|]. by apply assignColumn_frame, Hk.
  - intros Hk. unfold collectWALFiles.
    destruct (QueryContext _ _) as [e|rows]; [done|]. by apply assignColumn_frame, Hk.
  - intros Hk. unfold collectWALArchiveFiles.
    destruct (QueryContext _ _) as [e|rows]; [done|]. by apply assignColumn_frame, Hk.
  - intros Hk. unfold collectAutovacuumWorkers.
    destruct (QueryContext _ _) as [e|rows]; [done|]. by apply assignColumn_frame, Hk.
  - intros Hk. unfold collectCatalog. destruct (QueryContext _ _) as [e|rows]; [done|].
    cbv zeta.
    pose proof (assignCatalog_frame rows key (fold_left seedRelkind relkinds mx) "" Hk) as H.
    destruct (collectRows _ _ _) as [[mx' k] e]. cbn [fst] in *.
    by rewrite H, fold_seedRelkind_frame.
  - intros Hk. split.
    + unfold collectReplicationStandbyAppWALDelta.
      destruct (QueryContext _ _) as [e|rows]; [done|].
      pose proof (assignStandbyWAL_frame rows key mx "" Hk) as H.
      by destruct (collectRows _ _ _) as [[mx' k] e].
    + unfold collectReplicationStandbyAppWALLag.
      destruct (QueryContext _ _) as [e|rows]; [done|].
      pose proof (assignStandbyWAL_frame rows key mx "" Hk) as H.
      by destruct (collectRows _ _ _) as [[mx' k] e].
Qed.

Lemma collectors_write_only_their_keys_witness :
  let mx : Mx := {[ "server_connections_used" := 1 ]} in
  String.prefix "catalog_relkind_" "server_connections_used" = false
  /\ fst (collectCatalog (sampleServer "140005") mx) !! "server_connections_used"
     = mx !! "server_connections_used".
Proof.
  cbv zeta. split; [reflexivity|].
  destruct (collectors_write_only_their_keys (samplePackage None None) newCollector
              (sampleServer "140005") {[ "server_connections_used" := 1 ]}
              "server_connections_used") as (_ & _ & _ & _ & _ & _ & Hc & _).
  apply Hc. reflexivity.
Defined.

Lemma assignStandbyWAL_keeps rows key (mx : Mx) app :
  is_Some (mx !! key) ->
  is_Some (fst (fst (collectRows rows (Some assignStandbyWAL) (mx, app))) !! key).
Proof.
  intros H.
  apply (collectRows_inv (fun st : Mx * string => is_Some (fst st !! key))
           assignStandbyWAL rows); [|done].
  intros cols cells c cell [st k] _ _ _ Hst. unfold assignStandbyWAL.
  destruct (String.eqb c "application_name"); [done|]. cbn [fst] in *.
  rewrite lookup_insert. by case_decide.
Qed.

Lemma assignCatalog_rows_keep rows key (mx : Mx) kind :
  is_Some (mx !! key) ->
  is_Some (fst (fst (collectRows rows (Some assignCatalog) (mx, kind))) !! key).
Proof.
  intros H.
  apply (collectRows_inv (fun st : Mx * string => is_Some (fst st !! key))
           assignCatalog rows); [|done].
  intros cols cells c cell [st k] _ _ _ Hst. by apply assignCatalog_keeps.
Qed.

Lemma fold_seedRelkind_keeps l : forall (mx : Mx) key,
  is_Some (mx !! key) -> is_Some (fold_left seedRelkind l mx !! key).
Proof.
  induction l as [|v l IH]; intros mx key H; simpl; [done|].
  apply IH. unfold seedRelkind. rewrite !lookup_insert. repeat case_decide; done.
Qed.

(** X6. No collector of this file ever deletes a key: what an earlier
    collector put into the snapshot is still there after a later one has
    run, whether that one succeeds, fails on its statement or fails on a
    row. *)
Theorem collectors_never_delete_keys (pk : Package) (p : Postgres) (d : DB)
    (mx : Mx) (key : string) (H : is_Some (mx !! key)) :
  is_Some (fst (collectUptime pk d mx) !! key)
  /\ is_Some (fst (collectTXIDWraparound d mx) !! key)
  /\ is_Some (fst (collectWALWrites p d mx) !! key)
  /\ is_Some (fst (collectWALFiles p d mx) !! key)
  /\ is_Some (fst (collectWALArchiveFiles p d mx) !! key)
  /\ is_Some (fst (collectCatalog d mx) !! key)
  /\ is_Some (fst (collectAutovacuumWorkers d mx) !! key)
  /\ is_Some (fst (collectReplicationStandbyAppWALDelta p d mx) !! key)
  /\ is_Some (fst (collectReplicationStandbyAppWALLag d mx) !! key).
Proof.
  repeat apply conj.
  - unfold collectUptime. destruct (QueryRowString _ _); [done|].
    cbn [fst]. rewrite lookup_insert. by case_decide.
  - by apply collectTXIDWraparound_keeps.
  - by apply collectWALWrites_keeps.
  - by apply collectWALFiles_keeps.
  - unfold collectWALArchiveFiles. destruct (QueryContext _ _); [done|].
    by apply assignColumn_keeps.
  - unfold collectCatalog. destruct (QueryContext _ _) as [e|rows]; [done|].
    cbv zeta.
    pose proof (assignCatalog_rows_keep rows key (fold_left seedRelkind relkinds mx) ""
                  (fold_seedRelkind_keeps _ _ _ H)) as H'.
    by destruct (collectRows _ _ _) as [[mx' k] e].
  - unfold collectAutovacuumWorkers. destruct (QueryContext _ _); [done|].
    by apply assignColumn_keeps.
  - unfold collectReplicationStandbyAppWALDelta.
    destruct (QueryContext _ _) as [e|rows]; [done|].
    pose proof (assignStandbyWAL_keeps rows key mx "" H) as H'.
    by destruct (collectRows _ _ _) as [[mx' k] e].
  - unfold collectReplicationStandbyAppWALLag.
    destruct (QueryContext _ _) as [e|rows]; [done|].
    pose proof (assignStandbyWAL_keeps rows key mx "" H) as H'.
    by destruct (collectRows _ _ _) as [[mx' k] e].
Qed.

Lemma collectors_never_delete_keys_witness :
  let mx : Mx := {[ "server_connections_used" := 1 ]} in
  let d := sampleServer "140005" in
  is_Some (mx !! "server_connections_used")
  /\ is_Some (fst (collectCatalog d mx) !! "server_connections_used").
Proof.
  cbv zeta.
  assert (H : is_Some (({[ "server_connections_used" := 1 ]} : Mx)
                         !! "server_connections_used")).
  { rewrite lookup_singleton_eq. by eexists. }
  split; [exact H|].
  destruct (collectors_never_delete_keys (samplePackage None None) newCollector
              (sampleServer "140005") {[ "server_connections_used" := 1 ]}
              "server_connections_used" H) as (_ & _ & _ & _ & _ & Hc & _).
  exact Hc.
Defined.

(** ** Many rows for one key *)

Lemma string_length_app (s t : string) :
  String.length (s +:+ t) = (String.length s + String.length t)%nat.
Proof. induction s as [|c s IH]; simpl; [done|]. by rewrite IH. Qed.

Lemma string_app_inj_r (s1 s2 t : string) : s1 +:+ t = s2 +:+ t -> s1 = s2.
Proof.
  revert s2. induction s1 as [|c s1 IH]; intros [|c2 s2] H; simpl in H.
  - done.
  - apply (f_equal String.length) in H. rewrite !string_length_app in H. simpl in H. lia.
  - apply (f_equal String.length) in H. rewrite !string_length_app in H. simpl in H. lia.
  - injection H as -> H. f_equal. by apply IH.
Qed.

(** For one column, two names give two keys. *)
Lemma standbyWALKey_inj a b column : standbyWALKey a column = standbyWALKey b column -> a = b.
Proof.
  unfold standbyWALKey. intros H. simpl in H. injection H as H.
  change (a +:+ ("_wal_" +:+ column) = b +:+ ("_wal_" +:+ column)) in H.
  by apply string_app_inj_r in H.
Qed.

Lemma relkindKey_inj a b column : relkindKey a column = relkindKey b column -> a = b.
Proof.
  unfold relkindKey. intros H. simpl in H. injection H as H.
  change (a +:+ ("_" +:+ column) = b +:+ ("_" +:+ column)) in H.
  by apply string_app_inj_r in H.
Qed.

Lemma sumFor_absent name rows : forall acc, name ∉ rows.*1 -> sumFor name rows acc = acc.
Proof.
  induction rows as [|[a v] rows IH]; intros acc Hn; simpl; [done|].
  cbn [fmap list_fmap fst] in Hn. apply not_elem_of_cons in Hn as [Hne Hn].
  rewrite eqb_ne by done. by apply IH.
Qed.

Lemma feed_pairRows_cons c1 c2 a v rows :
  feed [c1; c2] (pairRows ((a, v) :: rows))
  = (c1, a) :: (c2, v) :: feed [c1; c2] (pairRows rows).
Proof. reflexivity. Qed.

Lemma wellShaped_pairRows c1 c2 rows : wellShaped [c1; c2] (pairRows rows).
Proof. unfold wellShaped, pairRows. apply Forall_fmap, Forall_true. done. Qed.

Lemma fold_assignStandbyWAL column rows : column <> "application_name" ->
  forall (mx : Mx) a0 name,
  fst (foldPairs assignStandbyWAL (feed ["application_name"; column] (pairRows rows)) (mx, a0))
    !! standbyWALKey name column
  = if bool_decide (name ∈ rows.*1)
    then Some (sumFor name rows (mxGet mx (standbyWALKey name column)))
    else mx !! standbyWALKey name column.
Proof.
  intros Hc. induction rows as [|[a v] rows IH]; intros mx a0 name.
  - reflexivity.
  - rewrite feed_pairRows_cons, !foldPairs_cons. cbn [fst snd].
    rewrite assignStandbyWAL_name, assignStandbyWAL_value by done.
    rewrite IH. cbn [fmap list_fmap fst sumFor].
    destruct (decide (a = name)) as [->|Hne].
    + rewrite String.eqb_refl. rewrite (bool_decide_eq_true_2 (name ∈ name :: _)) by left.
      unfold mxGet at 1. rewrite lookup_insert_eq. cbn [default].
      case_bool_decide as Hin; [done|].
      by rewrite sumFor_absent.
    + rewrite (eqb_ne a name) by done.
      assert (Hk : standbyWALKey a column <> standbyWALKey name column).
      { intros H. by apply standbyWALKey_inj in H. }
      unfold mxGet at 1. rewrite !lookup_insert_ne by done.
      fold (mxGet mx (standbyWALKey name column)).
      repeat case_bool_decide; try done; exfalso.
      * match goal with H : _ ∉ _ :: _ |- _ => apply H end. by right.
      * match goal with H : _ ∈ _ :: _ |- _ => apply elem_of_cons in H as [?|?] end;
          congruence.
Qed.

Lemma fold_assignCatalog column rows : column <> "relkind" ->
  forall (mx : Mx) k0 name,
  fst (foldPairs assignCatalog (feed ["relkind"; column] (pairRows rows)) (mx, k0))
    !! relkindKey name column
  = match lastFor name rows with
    | Some v => Some (safeParseInt v)
    | None => mx !! relkindKey name column
    end.
Proof.
  intros Hc. induction rows as [|[a v] rows IH]; intros mx k0 name.
  - reflexivity.
  - rewrite feed_pairRows_cons, !foldPairs_cons. cbn [fst snd].
    rewrite assignCatalog_kind, assignCatalog_value by done.
    rewrite IH. cbn [lastFor]. destruct (lastFor name rows); [done|].
    fold (relkindKey a column).
    destruct (decide (a = name)) as [->|Hne].
    + by rewrite String.eqb_refl, lookup_insert_eq.
    + rewrite (eqb_ne a name) by done. rewrite lookup_insert_ne; [done|].
      intros H. by apply relkindKey_inj in H.
Qed.

(** X7. The two replication collectors sum per application, over any
    number of rows: for a result set with the name column and one value
    column, the key of every application that has a row ends up holding
    what it held before (0 when absent) plus the values of that
    application's rows, added in row order on [int64]; the keys of
    applications without a row are left as they were. *)
Theorem replication_sums_rows_per_application (p : Postgres) (d : DB) (column : string)
    (rows : list (string * string)) (mx : Mx) (H : column <> "application_name") :
  let answer := table ["application_name"; column] (pairRows rows) in
  let expected (mx' : Mx) :=
    forall app, mx' !! standbyWALKey app column
                = if bool_decide (app ∈ rows.*1)
                  then Some (sumFor app rows (mxGet mx (standbyWALKey app column)))
                  else mx !! standbyWALKey app column in
  (QueryContext d (qReplicationStandbyAppDelta (serverVersion p)) = inr answer ->
     exists mx', collectReplicationStandbyAppWALDelta p d mx = (mx', None) /\ expected mx')
  /\ (QueryContext d qReplicationStandbyAppLag = inr answer ->
        exists mx', collectReplicationStandbyAppWALLag d mx = (mx', None) /\ expected mx').
Proof.
  cbv zeta. split; intros Hq.
  - unfold collectReplicationStandbyAppWALDelta. rewrite Hq.
    rewrite collectRows_table by apply wellShaped_pairRows.
    pose proof (fold_assignStandbyWAL column rows H mx "") as Hf.
    destruct (foldPairs _ _ _) as [mx' a]. cbn [fst] in Hf. by exists mx'.
  - unfold collectReplicationStandbyAppWALLag. rewrite Hq.
    rewrite collectRows_table by apply wellShaped_pairRows.
    pose proof (fold_assignStandbyWAL column rows H mx "") as Hf.
    destruct (foldPairs _ _ _) as [mx' a]. cbn [fst] in Hf. by exists mx'.
Qed.

Lemma replication_sums_rows_per_application_witness :
  let rows := [("replica1", "5"); ("replica2", "1"); ("replica1", "7")] in
  let d := answering qReplicationStandbyAppLag
             (table ["application_name"; "write_lag"] (pairRows rows))
             (sampleServer "140005") in
  "write_lag" <> "application_name"
  /\ exists mx',
       collectReplicationStandbyAppWALLag d ∅ = (mx', None)
       /\ forall app,
            mx' !! standbyWALKey app "write_lag"
            = if bool_decide (app ∈ rows.*1)
              then Some (sumFor app rows (mxGet ∅ (standbyWALKey app "write_lag")))
              else (∅ : Mx) !! standbyWALKey app "write_lag".
Proof.
  cbv zeta. split; [discriminate|].
  destruct (replication_sums_rows_per_application newCollector
              (answering qReplicationStandbyAppLag
                 (table ["application_name"; "write_lag"]
                    (pairRows [("replica1", "5"); ("replica2", "1"); ("replica1", "7")]))
                 (sampleServer "140005"))
              "write_lag" [("replica1", "5"); ("replica2", "1"); ("replica1", "7")] ∅)
    as [_ Hlag]; [discriminate|].
  apply Hlag. reflexivity.
Defined.

Example replication_interleaved_sample :
  let rows := [("replica1", "5"); ("replica2", "1"); ("replica1", "7")] in
  sumFor "replica1" rows 0 = 12 /\ sumFor "replica2" rows 0 = 1.
Proof. vm_compute. split; reflexivity. Qed.

(** X8. [collectCatalog] overwrites per relation kind, over any number
    of rows: for a result set with the kind column and one value column,
    the key of every kind that has a row ends up holding the parsed value
    of the last row of that kind; every other key of that column is as the
    seeding left it. *)
Theorem catalog_last_row_of_a_kind_wins (d : DB) (column : string)
    (rows : list (string * string)) (mx : Mx) (H : column <> "relkind")
    (Hq : QueryContext d qCatalogRelations = inr (table ["relkind"; column] (pairRows rows))) :
  exists mx',
    collectCatalog d mx = (mx', None)
    /\ forall kind,
         mx' !! relkindKey kind column
         = match lastFor kind rows with
           | Some v => Some (safeParseInt v)
           | None => fold_left seedRelkind relkinds mx !! relkindKey kind column
           end.
Proof.
  unfold collectCatalog. rewrite Hq. cbv zeta.
  rewrite collectRows_table by apply wellShaped_pairRows.
  pose proof (fold_assignCatalog column rows H (fold_left seedRelkind relkinds mx) "") as Hf.
  destruct (foldPairs _ _ _) as [mx' a]. cbn [fst] in Hf. by exists mx'.
Qed.

Lemma catalog_last_row_of_a_kind_wins_witness :
  let rows := [("r", "12"); ("i", "3"); ("r", "15")] in
  let d := answering qCatalogRelations (table ["relkind"; "count"] (pairRows rows))
             (sampleServer "140005") in
  "count" <> "relkind"
  /\ QueryContext d qCatalogRelations = inr (table ["relkind"; "count"] (pairRows rows))
  /\ exists mx',
       collectCatalog d ∅ = (mx', None)
       /\ forall kind,
            mx' !! relkindKey kind "count"
            = match lastFor kind rows with
              | Some v => Some (safeParseInt v)
              | None => fold_left seedRelkind relkinds ∅ !! relkindKey kind "count"
              end.
Proof.
  cbv zeta. split; [discriminate|]. split; [reflexivity|].
  apply (catalog_last_row_of_a_kind_wins
           (answering qCatalogRelations
              (table ["relkind"; "count"] (pairRows [("r", "12"); ("i", "3"); ("r", "15")]))
              (sampleServer "140005"))
           "count" [("r", "12"); ("i", "3"); ("r", "15")] ∅); [discriminate|reflexivity].
Defined.

(** ** The tracker, called again *)

Lemma filter_none {A} (P : A -> Prop) `{forall x, Decision (P x)} (l : list A) :
  (forall x, x ∈ l -> ~ P x) -> filter P l = [].
Proof.
  induction l as [|a l IH]; intros Hl; [done|].
  rewrite filter_cons_False by (apply Hl; left).
  apply IH. intros x Hx. apply Hl. by right.
Qed.

(** X9. The tracker is idempotent: called a second time with the list it
    has just been given, it makes no chart call and leaves the state as it
    is, whatever the list (empty, with duplicates) and the state before. *)
Theorem tracker_is_idempotent (apps : list string) (p : Postgres) :
  let p' := fst (collectStandbyAppList apps p) in
  collectStandbyAppList apps p' = (p', []).
Proof.
  cbv zeta. destruct apps as [|a apps]; [reflexivity|].
  rewrite !collectStandbyAppList_cons. cbn [fst standbyApps set_standbyApps].
  f_equal.
  rewrite (filter_none (fun app => app ∉ (list_to_set (a :: apps) : gset string))).
  2:{ intros x Hx Hn. apply (proj1 (firstOccurrences_elem _ _)) in Hx.
      apply Hn. by apply elem_of_list_to_set. }
  rewrite filter_none; [done|].
  intros x Hx%elem_of_elements Hn. apply Hn.
  rewrite !elem_of_union in Hx. rewrite elem_of_union. tauto.
Qed.

(** X10. The chart calls of the tracker come in two runs: first the
    additions, one for each listed name that was not tracked, in the order
    of the names' first occurrence in the list; then the removals, one for
    each tracked name that is not listed (in the order Go's map iteration
    happens to give). No removal precedes an addition. *)
Theorem tracker_adds_before_it_removes (apps : list string) (p : Postgres)
    (H : apps <> []) :
  exists removed,
    snd (collectStandbyAppList apps p)
    = (addNewReplicationStandbyAppCharts
         <$> filter (fun app => app ∉ standbyApps p) (firstOccurrences apps))
      ++ (removeReplicationStandbyAppCharts <$> removed)
    /\ NoDup removed
    /\ forall name, name ∈ removed <-> name ∈ standbyApps p /\ name ∉ apps.
Proof.
  destruct apps as [|a apps]; [done|]. rewrite collectStandbyAppList_cons. cbn [snd].
  eexists. split; [f_equal|split].
  - f_equal. apply list_filter_iff. intros x. by rewrite elem_of_list_to_set.
  - apply NoDup_filter, NoDup_elements.
  - intros name. rewrite list_elem_of_filter, elem_of_elements.
    rewrite !elem_of_union, !elem_of_list_to_set, elem_of_empty. tauto.
Qed.

Lemma tracker_adds_before_it_removes_witness :
  exists removed,
    snd (collectStandbyAppList ["c"; "b"; "d"; "c"] (set_standbyApps ["a"; "b"] newCollector))
    = (addNewReplicationStandbyAppCharts
         <$> filter (fun app => app ∉ standbyApps (set_standbyApps ["a"; "b"] newCollector))
               (firstOccurrences ["c"; "b"; "d"; "c"]))
      ++ (removeReplicationStandbyAppCharts <$> removed)
    /\ NoDup removed
    /\ forall name, name ∈ removed
         <-> name ∈ standbyApps (set_standbyApps ["a"; "b"] newCollector)
             /\ name ∉ ["c"; "b"; "d"; "c"].
Proof.
  apply (tracker_adds_before_it_removes ["c"; "b"; "d"; "c"]). discriminate.
Defined.

Example tracker_order_sample :
  snd (collectStandbyAppList ["c"; "b"; "d"; "c"] (set_standbyApps ["a"; "b"] newCollector))
  = [addNewReplicationStandbyAppCharts "c"; addNewReplicationStandbyAppCharts "d";
     removeReplicationStandbyAppCharts "a"].
Proof. vm_compute. reflexivity. Qed.

(** ** [calcPercentage] *)

Lemma calcPercentage_quot (value total : Z) :
  inInt64 (value * 100) -> inInt64 total -> total <> 0 ->
  ~ (value * 100 = minInt64 /\ total = -1) ->
  calcPercentage value total = Z.quot (value * 100) total.
Proof.
  intros Hv Ht H0 Hm.
  unfold calcPercentage. apply Z.eqb_neq in H0 as E. rewrite E.
  rewrite (wrap64_id (value * 100)) by done.
  apply wrap64_id. unfold inInt64, minInt64, maxInt64 in *.
  set (n := value * 100) in *. clearbody n.
  assert (H63 : 2 ^ 63 = 9223372036854775808) by reflexivity. rewrite H63 in *.
  destruct (Z.lt_trichotomy total 0) as [Hneg|[?|Hpos]]; [|done|].
  - destruct (Z.lt_trichotomy n 0) as [Hn|[->|Hn]].
    + assert (0 <= Z.quot n total <= - n).
      { rewrite <- (Z.quot_opp_opp n total) by lia.
        split; [apply Z.quot_pos; lia|].
        destruct (decide (- total = 1)) as [->|]; [rewrite Z.quot_1_r; lia|].
        apply Z.lt_le_incl, Z.quot_lt; lia. }
      destruct (decide (n = -9223372036854775808)) as [->|]; [|lia].
      assert (total <> -1) by tauto.
      assert (Z.quot (-9223372036854775808) total < 9223372036854775808); [|lia].
      rewrite <- (Z.quot_opp_opp _ total) by lia. apply Z.quot_lt; lia.
    + rewrite Z.quot_0_l by lia. lia.
    + assert (- n <= Z.quot n total <= 0); [|lia].
      rewrite <- (Z.opp_involutive total), Z.quot_opp_r by lia.
      assert (0 <= Z.quot n (- total) <= n); [|lia].
      split; [apply Z.quot_pos; lia|].
      destruct (decide (- total = 1)) as [->|]; [rewrite Z.quot_1_r; lia|].
      apply Z.lt_le_incl, Z.quot_lt; lia.
  - destruct (Z.lt_trichotomy n 0) as [Hn|[->|Hn]].
    + assert (n <= Z.quot n total <= 0); [|lia].
      rewrite <- (Z.opp_involutive n), Z.quot_opp_l by lia.
      assert (0 <= Z.quot (- n) total <= - n); [|lia].
      split; [apply Z.quot_pos; lia|].
      destruct (decide (total = 1)) as [->|]; [rewrite Z.quot_1_r; lia|].
      apply Z.lt_le_incl, Z.quot_lt; lia.
    + rewrite Z.quot_0_l by lia. lia.
    + assert (0 <= Z.quot n total <= n); [|lia].
      split; [apply Z.quot_pos; lia|].
      destruct (decide (total = 1)) as [->|]; [rewrite Z.quot_1_r; lia|].
      apply Z.lt_le_incl, Z.quot_lt; lia.
Qed.

(** X11. While [value * 100] fits [int64], [calcPercentage] is the
    quotient of [value * 100] by [total] truncated toward zero (so a
    negative value is rounded up, not down), and 0 for a zero total; the
    one exception is the quotient of the smallest [int64] by -1, which
    does not fit. *)
Theorem calcPercentage_truncated_quotient (value total : Z)
    (Hv : inInt64 (value * 100)) (Ht : inInt64 total)
    (Hm : ~ (value * 100 = minInt64 /\ total = -1)) :
  calcPercentage value total = if total =? 0 then 0 else Z.quot (value * 100) total.
Proof.
  destruct (total =? 0) eqn:E.
  - unfold calcPercentage. by rewrite E.
  - apply Z.eqb_neq in E. by apply calcPercentage_quot.
Qed.

Lemma calcPercentage_truncated_quotient_witness :
  inInt64 (-1 * 100) /\ inInt64 3 /\ calcPercentage (-1) 3 = -33.
Proof.
  split; [vm_compute; split; discriminate|].
  split; [vm_compute; split; discriminate|].
  apply (calcPercentage_truncated_quotient (-1) 3).
  - vm_compute. split; discriminate.
  - vm_compute. split; discriminate.
  - intros [_ [=]].
Defined.

(** X12. For a part of a positive whole, with [value * 100] in range,
    [calcPercentage] is the percentage rounded down: it lies between 0 and
    100, and it is 100 only when the part is the whole. *)
Theorem calcPercentage_of_a_part (value total : Z)
    (Hv : 0 <= value <= total) (Ht : 0 < total <= maxInt64)
    (Hfit : value * 100 <= maxInt64) :
  calcPercentage value total = value * 100 / total
  /\ 0 <= calcPercentage value total <= 100
  /\ (calcPercentage value total = 100 <-> value = total).
Proof.
  assert (Hmax : maxInt64 = 9223372036854775807) by reflexivity.
  assert (Hmin : minInt64 = -9223372036854775808) by reflexivity.
  rewrite Hmax in *.
  assert (E : calcPercentage value total = value * 100 / total).
  { rewrite calcPercentage_quot.
    - apply Z.quot_div_nonneg; lia.
    - unfold inInt64. rewrite Hmax, Hmin. lia.
    - unfold inInt64. rewrite Hmax, Hmin. lia.
    - lia.
    - lia. }
  rewrite E. split; [done|].
  assert (0 <= value * 100 / total) by (apply Z.div_pos; lia).
  assert (value * 100 / total <= 100).
  { apply Z.div_le_upper_bound; lia. }
  split; [lia|]. split.
  - intros H100. pose proof (Z.mul_div_le (value * 100) total (proj1 Ht)). nia.
  - intros ->. rewrite Z.mul_comm. apply Z.div_mul. lia.
Qed.

Lemma calcPercentage_of_a_part_witness :
  0 <= 2 <= 3 /\ 0 < 3 <= maxInt64 /\ 2 * 100 <= maxInt64
  /\ calcPercentage 2 3 = 2 * 100 / 3
  /\ 0 <= calcPercentage 2 3 <= 100
  /\ (calcPercentage 2 3 = 100 <-> 2 = 3).
Proof.
  split; [lia|]. split; [vm_compute; split; [reflexivity|discriminate]|].
  split; [vm_compute; discriminate|].
  apply (calcPercentage_of_a_part 2 3).
  - lia.
  - vm_compute. split; [reflexivity|discriminate].
  - vm_compute. discriminate.
Defined.

(** Outside that range the product wraps: the whole of a large total is
    not 100 percent of itself. *)
Example calcPercentage_wraps :
  calcPercentage maxInt64 maxInt64 = 0
  /\ calcPercentage 100000000000000000 100000000000000000 = -84.
Proof. vm_compute. split; reflexivity. Qed.

(** ** The shape of a cycle *)

(** X13. When the connection is not open and [openConnection] fails (on
    [sql.Open] or on the ping), the cycle does nothing else: no statement
    is sent, the collector's state is left exactly as it was, and the
    caller gets a nil snapshot with the error of [openConnection],
    unwrapped. *)
Theorem failed_open_touches_nothing (pk : Package) (w : World) (p : Postgres) (err : error)
    (Hdb : db p = false) (Hopen : snd (openConnection w p) = Some err) :
  collect pk w p
  = {| post := p; calls := [Invoked OpenConnection]; snapshot := None; failure := Some err |}.
Proof.
  unfold collect, run, bind, get, when, invoke, emit, return_. cbn [self trace fst snd].
  rewrite Hdb. cbn [negb].
  destruct (openConnection w p) as [p' [e|]] eqn:E; cbn [snd] in Hopen; [|done].
  injection Hopen as ->. reflexivity.
Qed.

Lemma failed_open_touches_nothing_witness :
  let w := {| sqlOpen := None; PingContext := Some "timeout";
              server := sampleServer "140005"; now := 100 |} in
  db newCollector = false
  /\ snd (openConnection w newCollector)
     = Some "error on pinging the Postgres database [postgres://netdata@localhost]: timeout"
  /\ collect (samplePackage None None) w newCollector
     = {| post := newCollector; calls := [Invoked OpenConnection]; snapshot := None;
          failure := Some "error on pinging the Postgres database [postgres://netdata@localhost]: timeout" |}.
Proof.
  cbv zeta. split; [reflexivity|]. split; [reflexivity|].
  apply (failed_open_touches_nothing (samplePackage None None)
           {| sqlOpen := None; PingContext := Some "timeout";
              server := sampleServer "140005"; now := 100 |} newCollector); reflexivity.
Defined.

Lemma configuration_kept pk w p :
  let o := collect pk w p in
  DSN (post o) = DSN p
  /\ recheckSettingsEvery (post o) = recheckSettingsEvery p
  /\ relistDatabaseEvery (post o) = relistDatabaseEvery p
  /\ relistStandbyEvery (post o) = relistStandbyEvery p
  /\ (db p = true -> db (post o) = true /\ Invoked OpenConnection ∉ calls o).
Proof.
  cbv zeta. unfold collect. apply run_wp.
  wp_cycle (fun r =>
      DSN (self r) = DSN p
      /\ recheckSettingsEvery (self r) = recheckSettingsEvery p
      /\ relistDatabaseEvery (self r) = relistDatabaseEvery p
      /\ relistStandbyEvery (self r) = relistStandbyEvery p
      /\ (db p = true -> db (self r) = true /\ Invoked OpenConnection ∉ trace r)).
  all: repeat match goal with H : _ /\ _ |- _ => destruct H end.
  all: repeat match goal with |- _ /\ _ => split end; try (cbn; congruence).
  all: try match goal with
         | H : negb (db ?x) = true |- db ?x = true -> _ =>
             let H' := fresh in intros H'; rewrite H' in H; discriminate H
         end.
  all: intros Hdb;
       try match goal with H : db _ = true -> _ |- _ => destruct (H Hdb) end;
       (split; [cbn; congruence|absent]).
Qed.

(** X14. Over any number of cycles, [collect] never changes the
    collector's configuration (the DSN and the three refresh intervals),
    and a connection that is open stays open and is never opened again:
    [collect] has no path that closes or replaces [p.db]. *)
Theorem connection_and_configuration_kept (pk : Package) (ws : list World) (p : Postgres) :
  Forall (fun o =>
            DSN (post o) = DSN p
            /\ recheckSettingsEvery (post o) = recheckSettingsEvery p
            /\ relistDatabaseEvery (post o) = relistDatabaseEvery p
            /\ relistStandbyEvery (post o) = relistStandbyEvery p
            /\ (db p = true -> db (post o) = true /\ Invoked OpenConnection ∉ calls o))
         (cycles pk ws p).
Proof.
  revert p. induction ws as [|w ws IH]; intros p; simpl; constructor.
  - apply configuration_kept.
  - destruct (configuration_kept pk w p) as (H1 & H2 & H3 & H4 & H5).
    eapply Forall_impl; [apply IH|]. cbv beta.
    intros o (G1 & G2 & G3 & G4 & G5).
    do 4 (split; [congruence|]).
    intros Hdb. destruct (H5 Hdb) as [Hdb' _]. exact (G5 Hdb').
Qed.

Lemma invoked_app l k : invoked (l ++ k) = invoked l ++ invoked k.
Proof. induction l as [|[c|c] l IH]; simpl; [done| |done]. by rewrite IH. Qed.

Lemma invoked_charts (charts : list ChartCall) : invoked (Chart <$> charts) = [].
Proof. induction charts as [|c l IH]; simpl; done. Qed.

Lemma ordered_step (j k : nat) l cs :
  l `sublist_of` take j callOrder -> (j <= k)%nat ->
  cs `sublist_of` drop j (take k callOrder) ->
  l ++ cs `sublist_of` take k callOrder.
Proof.
  intros Hl Hjk Hcs. rewrite <- (take_drop j (take k callOrder)).
  apply sublist_app; [|done]. rewrite take_take. by rewrite Nat.min_l.
Qed.

(** Run up to the next refresh block and cut there, at [I]. *)
Ltac wp_cut I :=
  lazymatch goal with
  | |- wp (bind (when _ _) _) _ _ =>
      apply (wp_seq I); [repeat wp_step | intros ? _ ?]
  | |- wp _ _ _ => wp_step; wp_cut I
  end.

(** Run the cycle with an invariant of its own after each of the five
    blocks. *)
Ltac wp_blocks I1 I2 I3 I4 I5 :=
  wp_cut I1; [..|wp_cut I2; [..|wp_cut I3; [..|wp_cut I4; [..|wp_cut I5;
    [..|repeat wp_step]]]]].

Ltac sublist_concrete :=
  repeat first [ apply sublist_nil_l | apply sublist_skip | apply sublist_cons ].

Ltac ordered_leaf k :=
  rewrite ?invoked_app, ?invoked_charts, ?app_nil_r; cbn [invoked];
  rewrite <- ?app_assoc; cbn [app];
  lazymatch goal with
  | H : invoked _ `sublist_of` take ?j callOrder |- _ `sublist_of` _ =>
      first [ apply (ordered_step j k); [exact H | lia | cbv; sublist_concrete]
            | apply (ordered_step j k _ []) in H;
              [by rewrite app_nil_r in H | lia | cbv; sublist_concrete] ]
  | |- _ => cbv; sublist_concrete
  end.

Lemma calls_in_order pk w p :
  invoked (calls (collect pk w p)) `sublist_of` callOrder.
Proof.
  unfold collect. apply run_wp.
  wp_blocks (fun r => invoked (trace r) `sublist_of` take 1 callOrder)
            (fun r => invoked (trace r) `sublist_of` take 2 callOrder)
            (fun r => invoked (trace r) `sublist_of` take 3 callOrder)
            (fun r => invoked (trace r) `sublist_of` take 4 callOrder)
            (fun r => invoked (trace r) `sublist_of` take 5 callOrder).
  all: lazymatch goal with
       | |- _ `sublist_of` take ?k callOrder => ordered_leaf k
       | |- ?l `sublist_of` callOrder =>
           change (l `sublist_of` take 19 callOrder); ordered_leaf 19%nat
       end.
Qed.

(** X15. Whatever happens in a cycle, the methods it calls are called in
    the order in which the text of [collect] names them, each at most
    once: the sequence of calls is the fixed sequence with some calls left
    out. *)
Theorem calls_follow_source_order (pk : Package) (w : World) (p : Postgres) :
  invoked (calls (collect pk w p)) `sublist_of` callOrder
  /\ NoDup (invoked (calls (collect pk w p))).
Proof.
  pose proof (calls_in_order pk w p) as H. split; [exact H|].
  eapply sublist_NoDup; [|exact H]. unfold callOrder.
  repeat (apply NoDup_cons; split;
          [intros Hin; repeat (apply elem_of_cons in Hin as [[=]|Hin]);
           by apply elem_of_nil in Hin|]).
  apply NoDup_nil_2.
Qed.

Lemma nonempty_length {A} (l : list A) : (0 <? length l)%nat = false -> l = [].
Proof. destruct l; [done|]. simpl. done. Qed.

Ltac in_trace :=
  cbv [coreCollectors];
  repeat lazymatch goal with
  | |- Forall _ (_ :: _) => apply Forall_cons; split
  | |- Forall _ [] => apply Forall_nil
  end.

(** X16. A cycle that returns no error returns a snapshot and has run all
    nine unguarded collectors; it has run the replication delta collector
    if a standby application is tracked, the lag collector if moreover the
    server version is at least 100000, and the three per-database
    collectors if a database is tracked. *)
Theorem successful_cycle_is_complete (pk : Package) (w : World) (p : Postgres)
    (H : failure (collect pk w p) = None) :
  let o := collect pk w p in
  is_Some (snapshot o)
  /\ Forall (fun c => Invoked c ∈ calls o) coreCollectors
  /\ (standbyApps (post o) <> [] ->
        Invoked CollectReplicationStandbyAppWALDelta ∈ calls o
        /\ (serverVersion (post o) >= 100000 ->
              Invoked CollectReplicationStandbyAppWALLag ∈ calls o))
  /\ (databases (post o) <> [] ->
        Invoked CollectDatabaseStats ∈ calls o
        /\ Invoked CollectDatabaseConflicts ∈ calls o
        /\ Invoked CollectDatabaseLocks ∈ calls o).
Proof.
  cbv zeta. revert H. unfold collect. apply run_wp.
  wp_cycle (fun r : Run => True).
  all: try exact I.
  all: try (intros [=]; fail).
  all: intros _.
  all: (split; [by eexists|]).
  all: (split; [in_trace; present|]).
  all: repeat match goal with
         | H : (0 <? length _)%nat = false |- _ => apply nonempty_length in H
         end.
  all: split; intros Hne; try congruence.
  all: repeat match goal with
         | |- _ /\ _ => split
         | |- _ >= _ -> _ => intros Hge
         | H : (_ >=? _) = false |- _ => rewrite Z.geb_leb in H; apply Z.leb_gt in H
         end; try (exfalso; lia); try solve [present].
Qed.

Lemma successful_cycle_is_complete_witness :
  let o := collect (samplePackage None None) (cycleAt 100 (sampleServer "140005"))
             newCollector in
  failure o = None
  /\ is_Some (snapshot o)
  /\ Forall (fun c => Invoked c ∈ calls o) coreCollectors
  /\ (standbyApps (post o) <> [] ->
        Invoked CollectReplicationStandbyAppWALDelta ∈ calls o
        /\ (serverVersion (post o) >= 100000 ->
              Invoked CollectReplicationStandbyAppWALLag ∈ calls o))
  /\ (databases (post o) <> [] ->
        Invoked CollectDatabaseStats ∈ calls o
        /\ Invoked CollectDatabaseConflicts ∈ calls o
        /\ Invoked CollectDatabaseLocks ∈ calls o).
Proof.
  cbv zeta. split; [vm_compute; reflexivity|].
  apply (successful_cycle_is_complete (samplePackage None None)
           (cycleAt 100 (sampleServer "140005")) newCollector).
  vm_compute. reflexivity.
Defined.

Ltac use_fetched Hs :=
  repeat match goal with
         | H : _ = true -> _ |- _ => first [ specialize (H Hs) | clear H ]
         end.

Lemma stale_windows_are_fetched pk w p :
  let o := collect pk w p in
  Invoked CollectConnection ∈ calls o ->
  ((Sub (now w) (recheckSettingsTime p) >? recheckSettingsEvery p) = true ->
     Invoked QuerySettingsMaxConnections ∈ calls o)
  /\ ((Sub (now w) (relistDatabaseTime p) >? relistDatabaseEvery p) = true ->
        Invoked QueryDatabaseList ∈ calls o)
  /\ ((Sub (now w) (relistStandbyTime p) >? relistStandbyEvery p) = true ->
        Invoked QueryStandbyAppList ∈ calls o).
Proof.
  cbv zeta. unfold collect. apply run_wp.
  set (S1 := Sub (now w) (recheckSettingsTime p) >? recheckSettingsEvery p).
  set (S2 := Sub (now w) (relistDatabaseTime p) >? relistDatabaseEvery p).
  set (S3 := Sub (now w) (relistStandbyTime p) >? relistStandbyEvery p).
  set (U := fun r : Run =>
         (Invoked CollectConnection ∉ trace r)
         /\ recheckSettingsTime (self r) = recheckSettingsTime p
         /\ recheckSettingsEvery (self r) = recheckSettingsEvery p
         /\ relistDatabaseTime (self r) = relistDatabaseTime p
         /\ relistDatabaseEvery (self r) = relistDatabaseEvery p
         /\ relistStandbyTime (self r) = relistStandbyTime p
         /\ relistStandbyEvery (self r) = relistStandbyEvery p).
  wp_blocks
    U U
    (fun r => (Invoked CollectConnection ∉ trace r)
              /\ (S1 = true -> Invoked QuerySettingsMaxConnections ∈ trace r)
              /\ relistDatabaseTime (self r) = relistDatabaseTime p
              /\ relistDatabaseEvery (self r) = relistDatabaseEvery p
              /\ relistStandbyTime (self r) = relistStandbyTime p
              /\ relistStandbyEvery (self r) = relistStandbyEvery p)
    (fun r => (Invoked CollectConnection ∉ trace r)
              /\ (S1 = true -> Invoked QuerySettingsMaxConnections ∈ trace r)
              /\ (S2 = true -> Invoked QueryDatabaseList ∈ trace r)
              /\ relistStandbyTime (self r) = relistStandbyTime p
              /\ relistStandbyEvery (self r) = relistStandbyEvery p)
    (fun r => (Invoked CollectConnection ∉ trace r)
              /\ (S1 = true -> Invoked QuerySettingsMaxConnections ∈ trace r)
              /\ (S2 = true -> Invoked QueryDatabaseList ∈ trace r)
              /\ (S3 = true -> Invoked QueryStandbyAppList ∈ trace r)).
  all: subst U; cbv beta in *.
  all: repeat match goal with H : _ /\ _ |- _ => destruct H end.
  (* returns before the collectors *)
  all: try (intros Hin; exfalso; revert Hin; solve [absent]).
  (* joins *)
  all: try (repeat match goal with |- _ /\ _ => split end;
            first [ solve [absent]
                  | cbn; congruence
                  | intros Hs; solve [present | use_fetched Hs; present]
                  | intros Hs; exfalso; subst S1 S2 S3; cbn in *; congruence ]).
  (* the collectors *)
  all: intros _; repeat match goal with |- _ /\ _ => split end; intros Hs;
       use_fetched Hs; solve [present].
Qed.

Lemma gtb_gt a b : (a >? b) = true <-> a > b.
Proof. rewrite Z.gtb_ltb, Z.ltb_lt. lia. Qed.

(** X17. In a cycle that gets as far as the collectors, each of the three
    refresh windows is fetched exactly when it is stale, that is when
    more than its interval (strictly) has passed since its last run; the
    three decisions are independent of one another. *)
Theorem windows_fetched_iff_stale (pk : Package) (w : World) (p : Postgres)
    (H : Invoked CollectConnection ∈ calls (collect pk w p)) :
  let o := collect pk w p in
  (Invoked QuerySettingsMaxConnections ∈ calls o
   <-> Sub (now w) (recheckSettingsTime p) > recheckSettingsEvery p)
  /\ (Invoked QueryDatabaseList ∈ calls o
      <-> Sub (now w) (relistDatabaseTime p) > relistDatabaseEvery p)
  /\ (Invoked QueryStandbyAppList ∈ calls o
      <-> Sub (now w) (relistStandbyTime p) > relistStandbyEvery p).
Proof.
  cbv zeta. destruct (stale_windows_are_fetched pk w p H) as (H1 & H2 & H3).
  split; [|split]; split.
  - by destruct (settings_window pk w p) as [(_ & _ & ?)|(? & _)].
  - intros Hs. by apply H1, gtb_gt.
  - by destruct (database_window pk w p) as [(_ & _ & ?)|(? & _)].
  - intros Hs. by apply H2, gtb_gt.
  - by destruct (standby_window pk w p) as [(_ & _ & ?)|(? & _)].
  - intros Hs. by apply H3, gtb_gt.
Qed.

Lemma windows_fetched_iff_stale_witness :
  let p := newCollector in
  let w := cycleAt 100 (sampleServer "140005") in
  let o := collect (samplePackage None None) w p in
  (Invoked CollectConnection ∈ calls o)
  /\ (Invoked QuerySettingsMaxConnections ∈ calls o
      <-> Sub (now w) (recheckSettingsTime p) > recheckSettingsEvery p)
  /\ (Invoked QueryDatabaseList ∈ calls o
      <-> Sub (now w) (relistDatabaseTime p) > relistDatabaseEvery p)
  /\ (Invoked QueryStandbyAppList ∈ calls o
      <-> Sub (now w) (relistStandbyTime p) > relistStandbyEvery p).
Proof.
  cbv zeta.
  assert (Hin : Invoked CollectConnection
                  ∈ calls (collect (samplePackage None None)
                             (cycleAt 100 (sampleServer "140005")) newCollector)).
  { vm_compute. repeat constructor. }
  split; [exact Hin|].
  exact (windows_fetched_iff_stale (samplePackage None None)
           (cycleAt 100 (sampleServer "140005")) newCollector Hin).
Defined.

(** The same collector 30 later: no window is stale, none is fetched, and
    the collectors run all the same. *)
Example fresh_windows_sample :
  let pk := samplePackage None None in
  let p := post (collect pk (cycleAt 100 (sampleServer "140005")) newCollector) in
  invoked (calls (collect pk (cycleAt 130 (sampleServer "140005")) p))
  = drop 5 callOrder.
Proof. vm_compute. reflexivity. Qed.

Lemma collectStandbyAppList_apps apps p :
  exists l, fst (collectStandbyAppList apps p) = set_standbyApps l p
            /\ ((apps <> [] /\ l = apps) \/ (apps = [] /\ l = standbyApps p)).
Proof.
  destruct apps as [|a apps].
  - exists (standbyApps p). split; [by destruct p|by right].
  - exists (a :: apps). rewrite collectStandbyAppList_cons. split; [done|by left].
Qed.

(** As [wp_step], keeping what the tracker did to the list. *)
Ltac wp_step_tracked :=
  lazymatch goal with
  | |- wp (match collectStandbyAppList ?apps ?p with _ => _ end) _ _ =>
      let l := fresh "l" in let Hl := fresh "Hl" in let ch := fresh "charts" in
      let p2 := fresh "p" in let Ht := fresh "Htracked" in
      destruct (collectStandbyAppList_apps apps p) as (l & Hl & Ht);
      destruct (collectStandbyAppList apps p) as [p2 ch]; cbn [fst] in Hl; subst p2
  | |- _ => wp_step
  end.

Ltac wp_cut_tracked I :=
  lazymatch goal with
  | |- wp (bind (when _ _) _) _ _ =>
      apply (wp_seq I); [repeat wp_step_tracked | intros ? _ ?]
  | |- wp _ _ _ => wp_step; wp_cut_tracked I
  end.

Ltac wp_blocks_tracked I1 I2 I3 I4 I5 :=
  wp_cut I1; [..|wp_cut I2; [..|wp_cut I3; [..|wp_cut I4;
    [..|wp_cut_tracked I5; [..|repeat wp_step]]]]].

Ltac prov_atom :=
  first [ reflexivity | assumption | congruence | solve [present]
        | f_equal; congruence ].

Lemma cached_answers_provenance pk w p :
  let o := collect pk w p in
  (maxConnections (post o) = maxConnections p
   \/ (Invoked QuerySettingsMaxConnections ∈ calls o
       /\ querySettingsMaxConnections (server w) = inr (maxConnections (post o))))
  /\ (databases (post o) = databases p
      \/ (Invoked QueryDatabaseList ∈ calls o
          /\ exists dbs, queryDatabaseList pk (server w) = inr dbs
               /\ databases (post o) = collectDatabaseList pk dbs (databases p)))
  /\ (standbyApps (post o) = standbyApps p
      \/ (Invoked QueryStandbyAppList ∈ calls o
          /\ standbyApps (post o) <> []
          /\ queryStandbyAppList (server w) = inr (standbyApps (post o)))).
Proof.
  cbv zeta. unfold collect. apply run_wp.
  set (A1 := fun r : Run =>
         maxConnections (self r) = maxConnections p
         \/ (Invoked QuerySettingsMaxConnections ∈ trace r
             /\ querySettingsMaxConnections (server w) = inr (maxConnections (self r)))).
  set (A2 := fun r : Run =>
         databases (self r) = databases p
         \/ (Invoked QueryDatabaseList ∈ trace r
             /\ exists dbs, queryDatabaseList pk (server w) = inr dbs
                  /\ databases (self r) = collectDatabaseList pk dbs (databases p))).
  set (A3 := fun r : Run =>
         standbyApps (self r) = standbyApps p
         \/ (Invoked QueryStandbyAppList ∈ trace r
             /\ standbyApps (self r) <> []
             /\ queryStandbyAppList (server w) = inr (standbyApps (self r)))).
  set (U := fun r : Run =>
         maxConnections (self r) = maxConnections p
         /\ databases (self r) = databases p
         /\ standbyApps (self r) = standbyApps p).
  wp_blocks_tracked
    U U
    (fun r => A1 r /\ databases (self r) = databases p
              /\ standbyApps (self r) = standbyApps p)
    (fun r => A1 r /\ A2 r /\ standbyApps (self r) = standbyApps p)
    (fun r => A1 r /\ A2 r /\ A3 r).
  all: subst A1 A2 A3 U; cbv beta in *.
  all: repeat match goal with H : _ /\ _ |- _ => destruct H end.
  all: repeat match goal with |- _ /\ _ => split end.
  all: cbn [self trace maxConnections databases standbyApps set_db set_serverVersion
            set_recheckSettingsTime set_relistDatabaseTime set_relistStandbyTime
            set_maxConnections set_databases set_standbyApps] in *.
  all: try solve [prov_atom | left; prov_atom].
  all: try match goal with
         | H : ?A \/ _ |- ?A \/ _ =>
             destruct H as [H|H]; [left; exact H|right];
             repeat match goal with
                    | H : _ /\ _ |- _ => destruct H
                    | H : exists _, _ |- _ => destruct H
                    end;
             repeat match goal with |- _ /\ _ => split end;
             first [ prov_atom | eexists; split; [eassumption|prov_atom] ]
         end.
  all: try solve [right; repeat match goal with |- _ /\ _ => split end;
                  first [ prov_atom | eexists; split; [reflexivity|prov_atom] ]].
  all: destruct Htracked as [[? ->]|[-> ->]];
       [right; repeat match goal with |- _ /\ _ => split end; prov_atom
       |left; prov_atom].
Qed.

(** X18. A cycle changes the four cached answers only by a fetch that
    succeeded in that very cycle: the server version and [maxConnections]
    are what they were or the value their query returned; the tracked
    databases are what they were or what [collectDatabaseList] made of the
    fetched list; the tracked standby applications are what they were or
    the fetched list, which is then not empty. A failure later in the
    cycle does not undo the change. *)
Theorem cached_answers_change_only_by_fetch (pk : Package) (w : World) (p : Postgres) :
  let o := collect pk w p in
  (serverVersion (post o) = serverVersion p
   \/ (Invoked QueryServerVersion ∈ calls o
       /\ queryServerVersion (server w) = inr (serverVersion (post o))))
  /\ (maxConnections (post o) = maxConnections p
      \/ (Invoked QuerySettingsMaxConnections ∈ calls o
          /\ querySettingsMaxConnections (server w) = inr (maxConnections (post o))))
  /\ (databases (post o) = databases p
      \/ (Invoked QueryDatabaseList ∈ calls o
          /\ exists dbs, queryDatabaseList pk (server w) = inr dbs
               /\ databases (post o) = collectDatabaseList pk dbs (databases p)))
  /\ (standbyApps (post o) = standbyApps p
      \/ (Invoked QueryStandbyAppList ∈ calls o
          /\ standbyApps (post o) <> []
          /\ queryStandbyAppList (server w) = inr (standbyApps (post o)))).
Proof.
  cbv zeta. split; [|exact (cached_answers_provenance pk w p)].
  unfold collect. apply run_wp.
  wp_cycle (fun r =>
      serverVersion (self r) = serverVersion p
      \/ (Invoked QueryServerVersion ∈ trace r
          /\ queryServerVersion (server w) = inr (serverVersion (self r)))).
  all: cbn [self trace serverVersion set_db set_serverVersion
            set_recheckSettingsTime set_relistDatabaseTime set_relistStandbyTime
            set_maxConnections set_databases set_standbyApps] in *.
  all: try solve [left; prov_atom].
  all: try solve [right; split; prov_atom].
  all: try assumption.
  all: match goal with
       | H : _ \/ _ |- _ =>
           destruct H as [H|[? ?]];
           [left; prov_atom|first [right; split; prov_atom | exfalso; congruence]]
       end.
Qed.

Lemma queryStandbyAppList_NoDup d apps : queryStandbyAppList d = inr apps -> NoDup apps.
Proof.
  unfold queryStandbyAppList.
  destruct (QueryContext d qReplicationStandbyAppList) as [err|rows]; [done|].
  unfold collectRows. destruct (Columns rows) as [err|cols]; [done|].
  destruct (collectRowsLoop _ _ _ _ _) as [[apps' seen] [err|]] eqn:E; [done|].
  intros [= <-]. apply collectRowsLoop_success in E as (cellrows & _ & E).
  pose proof (fold_assignStandbyApp (feed cols cellrows) [] (NoDup_nil_2)) as H.
  change (list_to_set []) with (∅ : gset string) in H.
  rewrite <- E in H. cbn [fst] in H. rewrite H. apply firstOccurrences_NoDup.
Qed.

(** X19. Two invariants of the tracked standby list, over any number of
    cycles: a list without duplicates never acquires one, and a list that
    is not empty never becomes empty again (an empty fetch is ignored), so
    the replication collectors keep running once a standby application
    has been seen. *)
Theorem tracked_standby_list_stays_clean (pk : Package) (ws : list World) (p : Postgres) :
  (NoDup (standbyApps p) ->
     Forall (fun o => NoDup (standbyApps (post o))) (cycles pk ws p))
  /\ (standbyApps p <> [] ->
        Forall (fun o => standbyApps (post o) <> []) (cycles pk ws p)).
Proof.
  split; revert p; induction ws as [|w ws IH]; intros p Hp; simpl; try constructor.
  - destruct (cached_answers_provenance pk w p) as (_ & _ & [->|(_ & _ & Hq)]); [done|].
    by apply queryStandbyAppList_NoDup in Hq.
  - apply IH.
    destruct (cached_answers_provenance pk w p) as (_ & _ & [->|(_ & _ & Hq)]); [done|].
    by apply queryStandbyAppList_NoDup in Hq.
  - by destruct (cached_answers_provenance pk w p) as (_ & _ & [->|(_ & Hne & _)]).
  - apply IH.
    by destruct (cached_answers_provenance pk w p) as (_ & _ & [->|(_ & Hne & _)]).
Qed.

Lemma tracked_standby_list_stays_clean_witness :
  let p := set_standbyApps ["replica9"] newCollector in
  let ws := [cycleAt 100 (sampleServer "140005");
             cycleAt 200 (answering qReplicationStandbyAppList (table ["application_name"] [])
                            (sampleServer "140005"))] in
  NoDup (standbyApps p) /\ standbyApps p <> []
  /\ Forall (fun o => NoDup (standbyApps (post o))) (cycles (samplePackage None None) ws p)
  /\ Forall (fun o => standbyApps (post o) <> []) (cycles (samplePackage None None) ws p).
Proof.
  cbv zeta.
  assert (Hnd : NoDup (standbyApps (set_standbyApps ["replica9"] newCollector))).
  { apply NoDup_singleton. }
  assert (Hne : standbyApps (set_standbyApps ["replica9"] newCollector) <> []) by discriminate.
  split; [exact Hnd|]. split; [exact Hne|].
  destruct (tracked_standby_list_stays_clean (samplePackage None None)
              [cycleAt 100 (sampleServer "140005");
               cycleAt 200 (answering qReplicationStandbyAppList
                              (table ["application_name"] []) (sampleServer "140005"))]
              (set_standbyApps ["replica9"] newCollector)) as [H1 H2].
  split; [exact (H1 Hnd)|exact (H2 Hne)].
Defined.

(** The last standby has gone: the list keeps its names, and the delta
    collector is still called. *)
Example standby_gone_sample :
  let pk := samplePackage None None in
  let gone := answering qReplicationStandbyAppList (table ["application_name"] [])
                (sampleServer "140005") in
  let o := collect pk (cycleAt 200 gone)
             (post (collect pk (cycleAt 100 (sampleServer "140005")) newCollector)) in
  standbyApps (post o) = ["replica1"; "replica2"]
  /\ CollectReplicationStandbyAppWALDelta ∈ invoked (calls o)
  /\ failure o = None.
Proof. vm_compute. split; [reflexivity|]. split; [repeat constructor|reflexivity]. Qed.

(** As [wp_step], keeping what [openConnection] returned. *)
Ltac wp_step_open :=
  lazymatch goal with
  | |- wp (match openConnection ?w ?p with _ => _ end) _ _ =>
      let E := fresh "Hopen" in
      destruct (openConnection w p) as [? [?|]] eqn:E
  | |- _ => wp_step
  end.

Ltac wp_cut_open I :=
  lazymatch goal with
  | |- wp (bind (when _ _) _) _ _ =>
      apply (wp_seq I); [repeat wp_step_open | intros ? _ ?]
  | |- wp _ _ _ => wp_step; wp_cut_open I
  end.

Ltac wp_blocks_open I1 I2 I3 I4 I5 :=
  wp_cut_open I1; [..|wp_cut I2; [..|wp_cut I3; [..|wp_cut I4; [..|wp_cut I5;
    [..|repeat wp_step]]]]].

(** What the gates of a path say about the two tracked lists. *)
Ltac gates_known :=
  repeat match goal with
         | H : (0 <? length ?l)%nat = _ |- _ =>
             destruct l eqn:?; cbn [length Nat.ltb Nat.leb] in H; try discriminate H; clear H
         | H : (?v >=? 100000) = _ |- _ =>
             rewrite Z.geb_leb in H
         end.

(** Evaluate [runCollectors] along the collectors a path has run. *)
Ltac run_phase :=
  unfold collectorsDue, coreCollectors;
  repeat match goal with
         | H : ?l = _ |- context [match ?l with [] => _ | _ :: _ => _ end] => rewrite H
         | H : (100000 <=? ?v) = _ |- context [100000 <=? ?v] => rewrite H
         end;
  cbn [app];
  repeat (cbn [runCollectors collectorOf];
          match goal with
          | H : ?f = (_, _) |- context [?f] => rewrite H
          end);
  cbn [runCollectors collectorOf fst snd].

Lemma metric_phase pk w p :
  let o := collect pk w p in
  Invoked CollectConnection ∈ calls o ->
  exists fetches,
    invoked (calls o)
    = fetches ++ fst (fst (runCollectors pk (post o) (server w) (collectorsDue (post o)) ∅))
    /\ fetches `sublist_of` take 5 callOrder
    /\ snapshot o
       = Some (snd (fst (runCollectors pk (post o) (server w) (collectorsDue (post o)) ∅)))
    /\ failure o
       = match snd (runCollectors pk (post o) (server w) (collectorsDue (post o)) ∅) with
         | Some (c, cause) => Some (wrapped c cause)
         | None => None
         end.
Proof.
  cbv zeta. unfold collect. apply run_wp.
  wp_blocks
    (fun r => (Invoked CollectConnection ∉ trace r)
              /\ invoked (trace r) `sublist_of` take 1 callOrder)
    (fun r => (Invoked CollectConnection ∉ trace r)
              /\ invoked (trace r) `sublist_of` take 2 callOrder)
    (fun r => (Invoked CollectConnection ∉ trace r)
              /\ invoked (trace r) `sublist_of` take 3 callOrder)
    (fun r => (Invoked CollectConnection ∉ trace r)
              /\ invoked (trace r) `sublist_of` take 4 callOrder)
    (fun r => (Invoked CollectConnection ∉ trace r)
              /\ invoked (trace r) `sublist_of` take 5 callOrder).
  all: repeat match goal with H : _ /\ _ |- _ => destruct H end.
  (* returns before the collectors *)
  all: try (intros Hin; exfalso; revert Hin; solve [absent]).
  (* joins *)
  all: try (split; [solve [absent]|];
            match goal with
            | |- _ `sublist_of` take ?k callOrder => ordered_leaf k
            end).
  (* the collectors *)
  all: intros _; gates_known.
  all: match goal with
       | H : invoked (trace ?r) `sublist_of` take 5 callOrder |- _ =>
           exists (invoked (trace r))
       end.
  all: rewrite !invoked_app; cbn [invoked]; rewrite <- ?app_assoc; cbn [app].
  all: run_phase.
  all: split; [reflexivity|split; [assumption|split; reflexivity]].
Qed.

Lemma due_below_threshold p : serverVersion p < 100000 ->
  collectorsDue p
  = coreCollectors
    ++ match standbyApps p with
       | [] => []
       | _ :: _ => [CollectReplicationStandbyAppWALDelta]
       end
    ++ match databases p with
       | [] => []
       | _ :: _ => [CollectDatabaseStats; CollectDatabaseConflicts; CollectDatabaseLocks]
       end.
Proof.
  intros H. unfold collectorsDue.
  destruct (Z.leb_spec 100000 (serverVersion p)); [lia|done].
Qed.

(** C8. The per-standby collectors run only in a cycle whose tracked
    standby list is not empty and the per-database collectors only in one
    whose tracked database list is not empty; the lag collector runs only
    if, besides, the cached server version is at least 100000. The metric
    phase of a cycle is exactly the run of the collectors that are due:
    they are the calls it makes, in that order, the snapshot is what they
    build, and the cycle returns an error only when one of them does.
    Below version 100000 the lag collector is not among them: it is not
    called, nothing stands in for it, and the cycle goes on with the
    per-database collectors or ends without an error. *)
Theorem entity_groups_gated (pk : Package) (w : World) (p : Postgres) :
  let o := collect pk w p in
  (Invoked CollectReplicationStandbyAppWALDelta ∈ calls o -> standbyApps (post o) <> [])
  /\ (Invoked CollectReplicationStandbyAppWALLag ∈ calls o ->
        standbyApps (post o) <> [] /\ serverVersion (post o) >= 100000)
  /\ (Invoked CollectDatabaseStats ∈ calls o -> databases (post o) <> [])
  /\ (Invoked CollectDatabaseConflicts ∈ calls o -> databases (post o) <> [])
  /\ (Invoked CollectDatabaseLocks ∈ calls o -> databases (post o) <> [])
  /\ (serverVersion (post o) < 100000 ->
        (Invoked CollectReplicationStandbyAppWALLag ∉ calls o)
        /\ forall e, failure o
                     <> Some (Errorf "querying replication standby app wal lag error" e))
  (* the metric phase is the run of the collectors that are due *)
  /\ (Invoked CollectConnection ∈ calls o ->
        let '(called, mx, failed) :=
          runCollectors pk (post o) (server w) (collectorsDue (post o)) ∅ in
        (exists fetches, invoked (calls o) = fetches ++ called
                         /\ fetches `sublist_of` take 5 callOrder)
        /\ snapshot o = Some mx
        /\ failure o = match failed with
                       | Some (c, cause) => Some (wrapped c cause)
                       | None => None
                       end)
  (* below the threshold the lag collector is left out and nothing stands
     in for it: the cycle fails only if a collector that is due fails *)
  /\ (serverVersion (post o) < 100000 -> Invoked CollectConnection ∈ calls o ->
        let due :=
          coreCollectors
          ++ match standbyApps (post o) with
             | [] => []
             | _ :: _ => [CollectReplicationStandbyAppWALDelta]
             end
          ++ match databases (post o) with
             | [] => []
             | _ :: _ => [CollectDatabaseStats; CollectDatabaseConflicts;
                          CollectDatabaseLocks]
             end in
        collectorsDue (post o) = due
        /\ (failure o = None
            <-> snd (runCollectors pk (post o) (server w) due ∅) = None)).
Proof.
  cbv zeta. destruct (entity_gates pk w p) as (H1 & H2 & H3 & H4 & H5).
  pose proof (lag_error_needs_version pk w p) as H6.
  pose proof (metric_phase pk w p) as H7. cbv zeta in *.
  do 5 (split; [assumption|]).
  split; [|split].
  - intros Hlt. split; [|by apply H6].
    intros Hin. apply H2 in Hin as [_ Hge]. lia.
  - intros Hin. destruct (H7 Hin) as (fetches & Hc & Hf & Hs & He).
    destruct (runCollectors _ _ _ _ _) as [[called mx] failed]. cbn [fst snd] in *.
    split; [by exists fetches|]. by split.
  - intros Hlt Hin. destruct (H7 Hin) as (_ & _ & _ & _ & He).
    rewrite <- (due_below_threshold _ Hlt). split; [done|].
    rewrite He. destruct (snd (runCollectors _ _ _ _ _)) as [[c cause]|]; by split.
Qed.

Lemma entity_groups_gated_witness :
  let o := collect (samplePackage None None) (cycleAt 100 (sampleServer "90600"))
             newCollector in
  serverVersion (post o) < 100000
  /\ (Invoked CollectConnection ∈ calls o)
  /\ (Invoked CollectReplicationStandbyAppWALDelta ∈ calls o)
  /\ (Invoked CollectReplicationStandbyAppWALLag ∉ calls o)
  /\ failure o = None.
Proof.
  cbv zeta.
  assert (Hlt : serverVersion (post (collect (samplePackage None None)
                                       (cycleAt 100 (sampleServer "90600")) newCollector))
                < 100000) by (vm_compute; reflexivity).
  assert (Hin : Invoked CollectConnection
                  ∈ calls (collect (samplePackage None None)
                             (cycleAt 100 (sampleServer "90600")) newCollector)).
  { vm_compute. repeat constructor. }
  destruct (entity_groups_gated (samplePackage None None)
              (cycleAt 100 (sampleServer "90600")) newCollector)
    as (_ & _ & _ & _ & _ & Hlag & _ & Hskip).
  split; [exact Hlt|]. split; [exact Hin|].
  split; [vm_compute; repeat constructor|].
  split; [exact (proj1 (Hlag Hlt))|].
  apply (proj2 (Hskip Hlt Hin)). vm_compute. reflexivity.
Defined.

(** X20. A cycle that returns an error ends at the call that failed:
    the last thing it did is a method call, that method returned an error
    (a query on the server's answer, [openConnection] on the state the
    cycle started from, a collector on the snapshot that the collectors
    due before it had built), and the error of the cycle is that error
    behind the message [collect] has for the method (none for
    [openConnection]). A cycle never returns an error of its own after a
    call that succeeded. *)
Theorem failed_cycle_ends_at_failing_call (pk : Package) (w : World) (p : Postgres)
    (e : error) (H : failure (collect pk w p) = Some e) :
  exists c cause,
    last (calls (collect pk w p)) = Some (Invoked c)
    /\ e = wrapped c cause
    /\ returned pk w p (collect pk w p) c cause.
Proof.
  revert H. unfold collect at 1 2 3.
  apply (run_wp p _ (fun o => failure o = Some e ->
           exists c cause, last (calls o) = Some (Invoked c) /\ e = wrapped c cause
                           /\ returned pk w p o c cause)).
  wp_blocks_open (fun _ : Run => True) (fun _ : Run => True) (fun _ : Run => True)
                 (fun _ : Run => True) (fun _ : Run => True).
  all: try exact I.
  all: try (intros [=]; fail).
  all: intros [= <-]; rewrite last_snoc; eexists _, _; split; [reflexivity|].
  all: split; [reflexivity|].
  all: unfold returned; cbn [post].
  all: try (by match goal with H : _ = _ |- _ => rewrite H end).
  all: gates_known; run_phase; reflexivity.
Qed.

Lemma failed_cycle_ends_at_failing_call_witness :
  let pk := samplePackage None None in
  let w := cycleAt 100 (refusing (qWALFiles 140005) "timeout" (sampleServer "140005")) in
  let o := collect pk w newCollector in
  failure o = Some "querying wal files error: timeout"
  /\ exists c cause,
       last (calls o) = Some (Invoked c)
       /\ "querying wal files error: timeout" = wrapped c cause
       /\ returned pk w newCollector o c cause.
Proof.
  cbv zeta. split; [vm_compute; reflexivity|].
  apply (failed_cycle_ends_at_failing_call (samplePackage None None)
           (cycleAt 100 (refusing (qWALFiles 140005) "timeout" (sampleServer "140005")))
           newCollector).
  vm_compute. reflexivity.
Defined.

(** X21. After any cycle the connection is open, unless the cycle was
    stopped by [openConnection] itself, in which case it did nothing
    else. A cycle that fails at any later point still leaves the
    connection open for the next one. *)
Theorem cycle_leaves_connection_open_or_stops_at_open (pk : Package) (w : World)
    (p : Postgres) :
  let o := collect pk w p in
  db (post o) = true
  \/ exists e, o = {| post := p; calls := [Invoked OpenConnection];
                      snapshot := None; failure := Some e |}.
Proof.
  cbv zeta. unfold collect.
  apply (run_wp p _ (fun o => db (post o) = true
                       \/ exists e, o = {| post := p; calls := [Invoked OpenConnection];
                                           snapshot := None; failure := Some e |})).
  wp_cycle (fun r => db (self r) = true).
  all: try solve [left; cbn; congruence].
  all: try solve [right; eexists; reflexivity].
  all: try solve [cbn; congruence].
  all: match goal with H : negb _ = false |- _ => apply negb_false_iff in H; exact H end.
Qed.
